(** * Maple Mono build scripts: naming, feature freezing and width narrowing

    A shallow embedding of the font-table engine of [build.py] and
    [source/py/feature.py], and the properties of it that the design
    document states.

    Python values are embedded as follows.
    - [str] is [string]; the style tokens, tags and names handled here are
      matched against ASCII literals only, so bytes and code points agree.
    - [dict] objects whose iteration order matters (the feature policy, a
      substitution mapping) are association lists in insertion order; the
      glyph and metrics stores, only read and written by key, are [gmap]s.
    - objects that the code mutates through several references (feature
      tables, glyph objects) live in a store and are named by their position
      or address. *)

From Stdlib Require Import ZArith String Ascii.
From stdpp Require Import gmap strings list.

Open Scope string_scope.
Open Scope list_scope.

(** ** Python string primitives *)

Module Py.

(** [s.endswith(suffix)] *)
Definition endswith (s suffix : string) : bool :=
  (String.length suffix <=? String.length s)%nat
  && String.eqb
       (substring (String.length s - String.length suffix)
                  (String.length suffix) s)
       suffix.

(** [s[:-k]] for a positive literal [k]: everything but the last [k]
    characters (empty when [s] is shorter). *)
Definition drop_last (k : nat) (s : string) : string :=
  substring 0 (String.length s - k) s.

(** [s.replace(old, new)] for a non-empty [old]: occurrences are found from
    the left and do not overlap.  [skip] counts the characters of the
    occurrence just replaced that are still to be passed over. *)
Fixpoint replace_from (skip : nat) (old new s : string) : string :=
  match s with
  | EmptyString => EmptyString
  | String c s' =>
      match skip with
      | S k => replace_from k old new s'
      | O =>
          if String.prefix old s
          then new +:+ replace_from (String.length old - 1) old new s'
          else String c (replace_from 0 old new s')
      end
  end.

Definition replace (s old new : string) : string := replace_from 0 old new s.

(** [sub in s] *)
Fixpoint contains (sub s : string) : bool :=
  match s with
  | EmptyString => String.prefix sub EmptyString
  | String _ s' => String.prefix sub s || contains sub s'
  end.

(** [x in xs] for a list of strings *)
Definition list_in (x : string) (xs : list string) : bool :=
  existsb (String.eqb x) xs.

End Py.

(** ** Naming: [parse_font_name] (build.py, 304-319) *)

(** [style_name_compact[0] != "I"].  Indexing the empty string raises
    [IndexError]; the test is only evaluated behind [is_italic and ...],
    where the token ends with "Italic" and so is not empty
    (see [is_italic_nonempty]); the empty case is given the value [false]. *)
Definition first_is_not_I (style_name_compact : string) : bool :=
  match style_name_compact with
  | String c _ => negb (Ascii.eqb c "I")
  | EmptyString => false
  end.

Definition parse_font_name (style_name_compact : string)
    (skip_subfamily_list : list string) : string * string * string * bool :=
  let is_italic := Py.endswith style_name_compact "Italic" in
  let _style_name :=
    if is_italic && first_is_not_I style_name_compact
    then Py.drop_last 6 style_name_compact +:+ " Italic"
    else style_name_compact in
  if Py.list_in style_name_compact skip_subfamily_list
  then ("", _style_name, _style_name, is_italic)
  else (" " +:+ Py.replace style_name_compact "Italic" "",
        if is_italic then "Italic" else "Regular",
        _style_name,
        is_italic).

(** The components of the tuple that [parse_font_name] returns. *)
Definition family_suffix (token : string) (skip_list : list string) : string :=
  (parse_font_name token skip_list).1.1.1.

Definition subfamily_name (token : string) (skip_list : list string)
    : string :=
  (parse_font_name token skip_list).1.1.2.

Definition display_style_name (token : string) (skip_list : list string)
    : string :=
  (parse_font_name token skip_list).1.2.

Definition is_italic_flag (token : string) (skip_list : list string) : bool :=
  (parse_font_name token skip_list).2.

(** [BuildOption.skip_subfamily_list] (build.py, 249) *)
Definition skip_subfamily_list : list string :=
  ["Regular"; "Bold"; "Italic"; "BoldItalic"].

(** ** Unique identifier: [get_unique_identifier] (build.py, 353-366) *)

(** The loop over [freeze_config.items()], accumulating [suffix]. *)
Fixpoint suffix_loop (items : list (string * string)) (suffix : string)
    : string :=
  match items with
  | [] => suffix
  | (k, v) :: rest =>
      suffix_loop rest
        (if String.eqb v "enable" then suffix +:+ "+" +:+ k +:+ ";"
         else if String.eqb v "disable" then suffix +:+ "-" +:+ k +:+ ";"
         else suffix)
  end.

Definition get_unique_identifier (postscript_name : string)
    (freeze_config : list (string * string)) (narrow : bool)
    (suffix : string) : string :=
  let suffix1 :=
    if String.eqb suffix "" then suffix_loop freeze_config suffix
    else suffix in
  let suffix2 :=
    if Py.contains "CN" postscript_name && narrow
    then "Narrow;" +:+ suffix1 else suffix1 in
  "Version 7.000;SUBF;" +:+ postscript_name +:+ ";2024;FL830;" +:+ suffix2.

(** The feature policy of the design document: one of three values per tag,
    in declared order.  [policy_config] is the dictionary of string literals
    that the code receives for it. *)
Inductive policy_value := Ignore | Enable | Disable.

Definition policy_literal (p : policy_value) : string :=
  match p with
  | Ignore => "ignore"
  | Enable => "enable"
  | Disable => "disable"
  end.

Definition policy_config (policy : list (string * policy_value))
    : list (string * string) :=
  map (fun kv => (fst kv, policy_literal (snd kv))) policy.

(** The feature-state suffix as the design document words it: every
    non-ignored tag in declared order, "+" for enabled and "-" for disabled,
    each terminated by a semicolon. *)
Definition non_ignored (kv : string * policy_value) : bool :=
  match snd kv with Ignore => false | _ => true end.

Definition feature_state_entry (kv : string * policy_value) : string :=
  (match snd kv with Enable => "+" | _ => "-" end) +:+ fst kv +:+ ";".

Definition feature_state_suffix (policy : list (string * policy_value))
    : string :=
  foldr String.append ""
    (map feature_state_entry (List.filter non_ignored policy)).

(** [BuildOption.load_cn_dir_and_suffix] (build.py, 251-258) *)
Definition cn_suffix_compact (with_nerd_font : bool) : string :=
  if with_nerd_font then "NF-CN" else "CN".

(** PostScript name of a CN build (build.py, 570). *)
Definition cn_postscript_name (family_name_compact : string)
    (with_nerd_font : bool) (style_compact_cn : string) : string :=
  family_name_compact +:+ "-" +:+ cn_suffix_compact with_nerd_font
  +:+ "-" +:+ style_compact_cn.

(** ** Name records written by [build_mono] (build.py, 394-423) *)

(** Modelled from the spec: [set_font_name] lives in [source/py/utils.py];
    the naming table is a mapping from name ID to string on the default
    platform, and setting a name binds its ID to the given string. *)
Definition set_font_name (names : gmap nat string) (name : string) (id : nat)
    : gmap nat string :=
  <[id := name]> names.

(** The [set_font_name] calls of [build_mono], in program order, as
    (name, id) arguments. *)
Definition build_mono_name_calls (family_name family_name_compact : string)
    (feature_freeze : list (string * string)) (skip_list : list string)
    (style_compact : string) : list (string * nat) :=
  let '(style_with_prefix_space, style_in_2, style, _) :=
    parse_font_name style_compact skip_list in
  let postscript_name := family_name_compact +:+ "-" +:+ style_compact in
  [ (family_name +:+ style_with_prefix_space, 1);
    (style_in_2, 2);
    (family_name +:+ " " +:+ style, 4);
    (postscript_name, 6);
    (get_unique_identifier postscript_name feature_freeze false "", 3) ]
  ++ (if negb (Py.list_in style_compact skip_list)
      then [ (family_name, 16); (style, 17) ]
      else []).

Definition build_mono_names (family_name family_name_compact : string)
    (feature_freeze : list (string * string)) (skip_list : list string)
    (style_compact : string) (names : gmap nat string) : gmap nat string :=
  foldl (fun tbl call => set_font_name tbl (fst call) (snd call)) names
    (build_mono_name_calls family_name family_name_compact feature_freeze
       skip_list style_compact).

(** ** Font table model *)

(** A feature table: [Feature.LookupListIndex]. *)
Record FeatureTable := { LookupListIndex : list nat }.

(** An entry of [font["GSUB"].table.FeatureList.FeatureRecord]. *)
Record FeatureRecord := { FeatureTag : string; Feature : FeatureTable }.

(** A single-substitution subtable: [mapping] is a [dict] from old to new
    glyph name, kept in iteration order. *)
Record SingleSubst := { mapping : list (string * string) }.

(** A subtable object of a lookup: a single substitution, or a subtable of
    a lookup type that has no attribute [mapping] (ligature, alternate,
    contextual substitution), where reading [.mapping] raises
    [AttributeError].  Multiple-substitution subtables, whose [mapping] has
    lists of names as values, are not part of the model. *)
Inductive Subtable := Single (sub : SingleSubst) | Other.

(** An entry of [font["GSUB"].table.LookupList.Lookup]. *)
Record Lookup := { SubTable : list Subtable }.

(** A glyph object: its contour count (-1 for a composite glyph), its
    coordinate list and its bounding box.  [has_coordinates] is
    [hasattr(glyph, "coordinates")]: a composite glyph carries components
    instead, and reading [glyph.coordinates] raises [AttributeError]; the
    field [coordinates] is then not read. *)
Record Glyph := {
  numberOfContours : Z;
  has_coordinates : bool;
  coordinates : list (Z * Z);
  xMin : Z; yMin : Z; xMax : Z; yMax : Z
}.

(** The tables of a [TTFont] that the engine reads and writes.
    [FeatureRecords] is [font["GSUB"].table.FeatureList.FeatureRecord] and
    [Lookups] is [font["GSUB"].table.LookupList.Lookup].
    [glyphs] is [font["glyf"].glyphs]: it binds a glyph name to a glyph
    object, given here by its address in [glyph_objects], so that two names
    bound to one object share every later mutation of it.  [metrics] is
    [font["hmtx"].metrics], whose values are immutable pairs
    (advance width, left side bearing).  [glyphOrder] is
    [font.getGlyphOrder()] and [advanceWidthMax] is
    [font["hhea"].advanceWidthMax]. *)
Record TTFont := {
  FeatureRecords : list FeatureRecord;
  Lookups : list Lookup;
  glyphs : gmap string nat;
  glyph_objects : gmap nat Glyph;
  metrics : gmap string (Z * Z);
  glyphOrder : list string;
  advanceWidthMax : Z
}.

Definition with_FeatureRecords (records : list FeatureRecord) (font : TTFont)
    : TTFont :=
  {| FeatureRecords := records; Lookups := Lookups font;
     glyphs := glyphs font; glyph_objects := glyph_objects font;
     metrics := metrics font; glyphOrder := glyphOrder font;
     advanceWidthMax := advanceWidthMax font |}.

Definition with_stores (g : gmap string nat) (m : gmap string (Z * Z))
    (font : TTFont) : TTFont :=
  {| FeatureRecords := FeatureRecords font; Lookups := Lookups font;
     glyphs := g; glyph_objects := glyph_objects font;
     metrics := m; glyphOrder := glyphOrder font;
     advanceWidthMax := advanceWidthMax font |}.

Definition with_metrics (m : gmap string (Z * Z)) (font : TTFont) : TTFont :=
  with_stores (glyphs font) m font.

Definition with_glyph_objects (objs : gmap nat Glyph) (font : TTFont)
    : TTFont :=
  {| FeatureRecords := FeatureRecords font; Lookups := Lookups font;
     glyphs := glyphs font; glyph_objects := objs;
     metrics := metrics font; glyphOrder := glyphOrder font;
     advanceWidthMax := advanceWidthMax font |}.

Definition with_advanceWidthMax (w : Z) (font : TTFont) : TTFont :=
  {| FeatureRecords := FeatureRecords font; Lookups := Lookups font;
     glyphs := glyphs font; glyph_objects := glyph_objects font;
     metrics := metrics font; glyphOrder := glyphOrder font;
     advanceWidthMax := w |}.

(** How a block of statements ends: it falls through to the next statement,
    executes [return], or raises. *)
Inductive control := Next | Return | Raise (exc : string).

(** ** Feature freezing: [freeze_feature] (source/py/feature.py) *)

(** The dictionary comprehension of lines 4-8.  A feature object is named by
    the position of its record; a later record with the same tag replaces
    the earlier binding. *)
Fixpoint feature_dict_from (i : nat) (feature_record : list FeatureRecord)
    (d : gmap string nat) : gmap string nat :=
  match feature_record with
  | [] => d
  | feature :: rest =>
      feature_dict_from (S i) rest
        (if String.eqb (FeatureTag feature) "calt" then d
         else <[FeatureTag feature := i]> d)
  end.

Definition feature_dict (feature_record : list FeatureRecord)
    : gmap string nat :=
  feature_dict_from 0 feature_record ∅.

(** The list comprehension of lines 10-12. *)
Fixpoint calt_features_from (i : nat) (feature_record : list FeatureRecord)
    : list nat :=
  match feature_record with
  | [] => []
  | feature :: rest =>
      if String.eqb (FeatureTag feature) "calt"
      then i :: calt_features_from (S i) rest
      else calt_features_from (S i) rest
  end.

Definition calt_features (feature_record : list FeatureRecord) : list nat :=
  calt_features_from 0 feature_record.

(** The tags of the feature list, in order. *)
Definition tags (font : TTFont) : list string :=
  map FeatureTag (FeatureRecords font).

(** [feature.LookupListIndex] of the feature object at position [i], read
    in the current state. *)
Definition lookups_at (font : TTFont) (i : nat) : list nat :=
  match FeatureRecords font !! i with
  | Some r => LookupListIndex (Feature r)
  | None => []
  end.

(** Assignment to, or in-place change of, [LookupListIndex] of the feature
    object at position [i]. *)
Definition set_lookups (i : nat) (l : list nat) (font : TTFont) : TTFont :=
  with_FeatureRecords
    (alter (fun r => {| FeatureTag := FeatureTag r;
                        Feature := {| LookupListIndex := l |} |})
       i (FeatureRecords font))
    font.

(** Lines 26-27: every calt feature is extended by the target's indices. *)
Definition extend_calt (calt_feats : list nat) (target_feature : nat)
    (font : TTFont) : TTFont :=
  foldl (fun font calt_feat =>
           set_lookups calt_feat
             (lookups_at font calt_feat ++ lookups_at font target_feature)
             font)
    font calt_feats.

Definition missing_message (old_key new_key : string) : string :=
  old_key +:+ " or " +:+ new_key +:+ " does not exist".

(** [key in d] *)
Definition has_key {V : Type} (d : gmap string V) (key : string) : bool :=
  match d !! key with Some _ => true | None => false end.

(** Lines 35-40: both names are in both stores. *)
Definition both_known (font : TTFont) (old_key new_key : string) : bool :=
  has_key (glyphs font) old_key && has_key (metrics font) old_key
  && has_key (glyphs font) new_key && has_key (metrics font) new_key.

(** Lines 41-42: [old_key] is rebound to the glyph object and to the
    metrics of [new_key].  Reading a missing [new_key] raises [KeyError];
    the test of lines 35-40 rules it out, and the font is then left as
    it is. *)
Definition assign_glyph (font : TTFont) (pair : string * string) : TTFont :=
  match glyphs font !! pair.2, metrics font !! pair.2 with
  | Some g, Some m =>
      with_stores (<[pair.1 := g]> (glyphs font))
                  (<[pair.1 := m]> (metrics font)) font
  | _, _ => font
  end.

(** Lines 34-45: the loop over one mapping.  [out] is what has been
    printed so far. *)
Fixpoint substitute_pairs (pairs : list (string * string)) (font : TTFont)
    (out : list string) : TTFont * list string * control :=
  match pairs with
  | [] => (font, out, Next)
  | (old_key, new_key) :: rest =>
      if both_known font old_key new_key
      then substitute_pairs rest (assign_glyph font (old_key, new_key)) out
      else (font, out ++ [missing_message old_key new_key], Return)
  end.

(** Lines 32-45: the loop over the target feature's lookup indices.
    Indexing [Lookup] or [SubTable] out of range raises [IndexError];
    reading [.mapping] of a subtable that has none raises
    [AttributeError]. *)
Fixpoint substitute_lookups (indices : list nat) (font : TTFont)
    (out : list string) : TTFont * list string * control :=
  match indices with
  | [] => (font, out, Next)
  | index :: rest =>
      match Lookups font !! index with
      | None => (font, out, Raise "IndexError")
      | Some lookup =>
          match SubTable lookup with
          | [] => (font, out, Raise "IndexError")
          | Other :: _ => (font, out, Raise "AttributeError")
          | Single sub :: _ =>
              let '(font', out', c) :=
                substitute_pairs (mapping sub) font out in
              match c with
              | Next => substitute_lookups rest font' out'
              | _ => (font', out', c)
              end
          end
      end
  end.

(** Lines 16-45: the body of the loop over [config.items()]. *)
Definition freeze_step (moving_rules : list string)
    (fdict : gmap string nat) (calt_feats : list nat)
    (tag status : string) (font : TTFont) (out : list string)
    : TTFont * list string * control :=
  match fdict !! tag with
  | None => (font, out, Next)
  | Some target_feature =>
      if String.eqb status "ignore" then (font, out, Next)
      else if String.eqb status "disable"
      then (set_lookups target_feature [] font, out, Next)
      else if Py.list_in tag moving_rules
      then (extend_calt calt_feats target_feature font, out, Next)
      else substitute_lookups (lookups_at font target_feature) font out
  end.

Fixpoint freeze_loop (moving_rules : list string)
    (fdict : gmap string nat) (calt_feats : list nat)
    (config : list (string * string)) (font : TTFont) (out : list string)
    : TTFont * list string * control :=
  match config with
  | [] => (font, out, Next)
  | (tag, status) :: rest =>
      let '(font', out', c) :=
        freeze_step moving_rules fdict calt_feats tag status font out in
      match c with
      | Next => freeze_loop moving_rules fdict calt_feats rest font' out'
      | _ => (font', out', c)
      end
  end.

Definition freeze_feature (font : TTFont) (moving_rules : list string)
    (config : list (string * string)) (out : list string)
    : TTFont * list string * control :=
  freeze_loop moving_rules
    (feature_dict (FeatureRecords font))
    (calt_features (FeatureRecords font))
    config font out.

(** [freeze] (build.py, 262-270) *)
Definition moving_tags : list string := ["ss03"; "ss05"; "ss07"].

Definition freeze (font : TTFont) (freeze_config : list (string * string))
    (out : list string) : TTFont * list string * control :=
  freeze_feature font moving_tags freeze_config out.

(** The font left by a run. *)
Definition font_of (r : TTFont * list string * control) : TTFont := r.1.1.
Definition output_of (r : TTFont * list string * control) : list string :=
  r.1.2.
Definition control_of (r : TTFont * list string * control) : control := r.2.

(** ** Width narrowing: [change_char_width] (build.py, 369-385) *)

(** [round(n / 2)] for an integer [n]: the quotient is exact in binary
    floating point (for |n| < 2^53, far above any font unit), and [round]
    sends a half to the even neighbour. *)
Definition round_half (n : Z) : Z :=
  let q := (n / 2)%Z in
  if Z.even n then q else if Z.even q then q else (q + 1)%Z.

(** [GlyphCoordinates.translate] *)
Definition translate (delta : Z * Z) (coords : list (Z * Z)) : list (Z * Z) :=
  map (fun p => (p.1 + delta.1, p.2 + delta.2)%Z) coords.

(** [GlyphCoordinates.calcIntBounds]: (0, 0, 0, 0) for no points, else the
    extrema of the integer coordinates. *)
Definition calcIntBounds (coords : list (Z * Z)) : Z * Z * Z * Z :=
  match coords with
  | [] => (0, 0, 0, 0)%Z
  | p :: rest =>
      (foldr Z.min p.1 (rest.*1), foldr Z.min p.2 (rest.*2),
       foldr Z.max p.1 (rest.*1), foldr Z.max p.2 (rest.*2))
  end.

(** The glyph object after lines 381-384. *)
Definition shift_glyph (delta : Z) (glyph : Glyph) : Glyph :=
  let coords := translate (delta, 0%Z) (coordinates glyph) in
  let '(x0, y0, x1, y1) := calcIntBounds coords in
  {| numberOfContours := numberOfContours glyph;
     has_coordinates := has_coordinates glyph;
     coordinates := coords;
     xMin := x0; yMin := y0; xMax := x1; yMax := y1 |}.

(** Lines 371-385.  [font["glyf"][name]] and [font["hmtx"][name]] raise
    [KeyError] for a name that the store does not have, and
    [glyph.coordinates] raises [AttributeError] for a glyph object without
    that attribute, after the test of the contour count.  A Python name is
    always bound to a live object; a model font whose [glyphs] holds an
    address absent from [glyph_objects] is not a Python state, and the loop
    stops there. *)
Fixpoint width_loop (names : list string) (match_width target_width : Z)
    (font : TTFont) : TTFont * control :=
  match names with
  | [] => (font, Next)
  | name :: rest =>
      match glyphs font !! name with
      | None => (font, Raise "KeyError")
      | Some addr =>
          match glyph_objects font !! addr with
          | None => (font, Raise "no such object")
          | Some glyph =>
              match metrics font !! name with
              | None => (font, Raise "KeyError")
              | Some (width, lsb) =>
                  if negb (width =? match_width)%Z
                  then width_loop rest match_width target_width font
                  else if (numberOfContours glyph =? 0)%Z
                  then width_loop rest match_width target_width
                         (with_metrics
                            (<[name := (target_width, lsb)]> (metrics font))
                            font)
                  else if negb (has_coordinates glyph)
                  then (font, Raise "AttributeError")
                  else
                    let delta := round_half (target_width - width) in
                    width_loop rest match_width target_width
                      (with_metrics
                         (<[name := (target_width, (lsb + delta)%Z)]>
                            (metrics font))
                         (with_glyph_objects
                            (<[addr := shift_glyph delta glyph]>
                               (glyph_objects font))
                            font))
              end
          end
      end
  end.

Definition change_char_width (font : TTFont) (match_width target_width : Z)
    : TTFont * control :=
  width_loop (glyphOrder font) match_width target_width
    (with_advanceWidthMax target_width font).

(** ** Sample fonts *)

Definition sample_glyph (x0 x1 : Z) : Glyph :=
  {| numberOfContours := 1;
     has_coordinates := true;
     coordinates := [(x0, 0%Z); (x1, 700%Z)];
     xMin := x0; yMin := 0; xMax := x1; yMax := 700 |}.

Definition feature_record (tag : string) (indices : list nat)
    : FeatureRecord :=
  {| FeatureTag := tag; Feature := {| LookupListIndex := indices |} |}.

Definition single_lookup (pairs : list (string * string)) : Lookup :=
  {| SubTable := [ Single {| mapping := pairs |} ] |}.

(** A small CN font: a calt feature, the moving feature ss03, and the
    direct-substitution features cv98 and cv01.  The full-width glyphs are
    1200 units wide. *)
Definition cn_font : TTFont :=
  {| FeatureRecords :=
       [ feature_record "calt" [0]; feature_record "ss03" [1];
         feature_record "cv98" [2]; feature_record "cv01" [3] ];
     Lookups :=
       [ single_lookup []; single_lookup [];
         single_lookup [("emdash", "emdash.cv98");
                        ("ellipsis", "ellipsis.cv98")];
         single_lookup [("a", "a.cv01")] ];
     glyphs :=
       list_to_map [("emdash", 0); ("emdash.cv98", 1); ("ellipsis", 2);
                    ("ellipsis.cv98", 3); ("a", 4); ("a.cv01", 5)];
     glyph_objects :=
       list_to_map [(0, sample_glyph 50 550); (1, sample_glyph 50 1150);
                    (2, sample_glyph 60 540); (3, sample_glyph 60 1140);
                    (4, sample_glyph 40 560); (5, sample_glyph 30 570)];
     metrics :=
       list_to_map [("emdash", (600, 50)%Z); ("emdash.cv98", (1200, 50)%Z);
                    ("ellipsis", (600, 60)%Z);
                    ("ellipsis.cv98", (1200, 60)%Z);
                    ("a", (600, 40)%Z); ("a.cv01", (600, 30)%Z)];
     glyphOrder :=
       ["emdash"; "emdash.cv98"; "ellipsis"; "ellipsis.cv98"; "a"; "a.cv01"];
     advanceWidthMax := 1200 |}.

(** The same font without the glyph "ellipsis.cv98". *)
Definition cn_font_incomplete : TTFont :=
  with_stores (delete "ellipsis.cv98" (glyphs cn_font))
              (delete "ellipsis.cv98" (metrics cn_font)) cn_font.

(** ** Notions used in the statements *)

(** The tables that freezing never writes. *)
Definition same_fixed_tables (font font' : TTFont) : Prop :=
  Lookups font' = Lookups font /\
  glyph_objects font' = glyph_objects font /\
  glyphOrder font' = glyphOrder font /\
  advanceWidthMax font' = advanceWidthMax font.

(** The glyph and metrics stores bind every name as before. *)
Definition same_stores (font font' : TTFont) : Prop :=
  glyphs font' = glyphs font /\ metrics font' = metrics font.

(** The feature list is the same but for the records in [changed]. *)
Definition same_features_except (changed : nat -> Prop)
    (font font' : TTFont) : Prop :=
  tags font' = tags font /\
  forall j, ~ changed j -> FeatureRecords font' !! j = FeatureRecords font !! j.

(** A status that is neither "ignore" nor "disable" sends the loop body to
    its enabling branch. *)
Definition enabling (status : string) : bool :=
  negb (String.eqb status "ignore") && negb (String.eqb status "disable").

(** The pairs that the loops of lines 32-34 visit for a list of lookup
    indices, in order, and how the visit ends when no pair stops it:
    [Next], or the exception of the first index that cannot be read. *)
Fixpoint resolved_pairs (lookups : list Lookup) (indices : list nat)
    : list (string * string) * control :=
  match indices with
  | [] => ([], Next)
  | index :: rest =>
      match lookups !! index with
      | None => ([], Raise "IndexError")
      | Some lookup =>
          match SubTable lookup with
          | [] => ([], Raise "IndexError")
          | Other :: _ => ([], Raise "AttributeError")
          | Single sub :: _ =>
              let '(ps, c) := resolved_pairs lookups rest in
              (mapping sub ++ ps, c)
          end
      end
  end.

(** The pairs before the first one with a name missing from a store, and
    that pair if there is one. *)
Fixpoint known_prefix (font : TTFont) (pairs : list (string * string))
    : list (string * string) * option (string * string) :=
  match pairs with
  | [] => ([], None)
  | (o, n) :: rest =>
      if both_known font o n
      then let '(done, stop) := known_prefix font rest in ((o, n) :: done, stop)
      else ([], Some (o, n))
  end.

(** What a run of [freeze_feature] may do to the feature list and the
    stores: the fixed tables, the tags and the known names stay; a calt
    feature keeps its indices and may gain some at the end; any other
    feature keeps its indices or loses them all. *)
Definition evolves (font font' : TTFont) : Prop :=
  same_fixed_tables font font' /\
  tags font' = tags font /\
  (forall a b, both_known font' a b = both_known font a b) /\
  (forall i,
     (tags font !! i = Some "calt" ->
      exists extra, lookups_at font' i = lookups_at font i ++ extra) /\
     (tags font !! i <> Some "calt" ->
      lookups_at font' i = lookups_at font i \/ lookups_at font' i = [])).

(** *** The edits of a run

    Under a policy that moves no feature and whose substitutions never read
    a name that they also rewrite, a run amounts to a list of edits that
    each store a fixed value: clearing the indices of a feature, or binding
    a name to the glyph object and the metrics that its target had in the
    initial font. *)
Inductive edit :=
  | Clear (t : nat)
  | Bind (o : string) (g : nat) (m : Z * Z).

Definition apply_edit (font : TTFont) (e : edit) : TTFont :=
  match e with
  | Clear t => set_lookups t [] font
  | Bind o g m =>
      with_stores (<[o := g]> (glyphs font)) (<[o := m]> (metrics font)) font
  end.

Definition same_target (e e' : edit) : bool :=
  match e, e' with
  | Clear t, Clear t' => bool_decide (t = t')
  | Bind o _ _, Bind o' _ _ => bool_decide (o = o')
  | _, _ => false
  end.

Definition bind_of (font : TTFont) (pair : string * string) : edit :=
  Bind pair.1 (default 0 (glyphs font !! pair.2))
       (default (0, 0)%Z (metrics font !! pair.2)).

(** The edits of a run on [font], in order. *)
Fixpoint plan (moving_rules : list string) (font : TTFont)
    (config : list (string * string)) : list edit :=
  match config with
  | [] => []
  | (tag, status) :: rest =>
      match feature_dict (FeatureRecords font) !! tag with
      | None => plan moving_rules font rest
      | Some t =>
          if String.eqb status "ignore" then plan moving_rules font rest
          else if String.eqb status "disable"
          then Clear t :: plan moving_rules font rest
          else if Py.list_in tag moving_rules
          then plan moving_rules font rest
          else
            let '(ps, c) :=
              resolved_pairs (Lookups font) (lookups_at font t) in
            let '(done, stop) := known_prefix font ps in
            map (bind_of font) done
            ++ match stop, c with
               | None, Next => plan moving_rules font rest
               | _, _ => []
               end
      end
  end.

(** The pairs of the mappings of the features that a policy enables by
    direct substitution. *)
Definition enabled_pairs (moving_rules : list string) (font : TTFont)
    (config : list (string * string)) : list (string * string) :=
  concat
    (map (fun entry =>
            match feature_dict (FeatureRecords font) !! entry.1 with
            | Some t =>
                if enabling entry.2 && negb (Py.list_in entry.1 moving_rules)
                then (resolved_pairs (Lookups font) (lookups_at font t)).1
                else []
            | None => []
            end)
       config).

(** No enabled moving tag is bound by the font. *)
Definition moves_nothing (moving_rules : list string) (font : TTFont)
    (config : list (string * string)) : Prop :=
  forall tag status, (tag, status) ∈ config -> enabling status = true ->
    Py.list_in tag moving_rules = true ->
    feature_dict (FeatureRecords font) !! tag = None.

(** No glyph name is the target of one enabled pair and the source of
    one. *)
Definition targets_not_sources (pairs : list (string * string)) : Prop :=
  forall p q, p ∈ pairs -> q ∈ pairs -> p.2 <> q.1.

(** A state from which the edits of a run on [font0] can be replayed: it
    has the tags, lookups and known names of [font0], and binds the names
    in [T] as [font0] does. *)
Definition replayable (font0 : TTFont) (T : string -> Prop) (s : TTFont)
    : Prop :=
  tags s = tags font0 /\
  Lookups s = Lookups font0 /\
  (forall a b, both_known s a b = both_known font0 a b) /\
  (forall n, T n ->
     glyphs s !! n = glyphs font0 !! n /\
     metrics s !! n = metrics font0 !! n).

(** An entry of the policy that, if it enables a feature of [font0], does
    so by direct substitution with pairs that read names in [T] and rewrite
    names outside [T]. *)
Definition reads_only (moving_rules : list string) (font0 : TTFont)
    (T : string -> Prop) (entry : string * string) : Prop :=
  forall t, feature_dict (FeatureRecords font0) !! entry.1 = Some t ->
    enabling entry.2 = true ->
    Py.list_in entry.1 moving_rules = false /\
    forall p, p ∈ (resolved_pairs (Lookups font0) (lookups_at font0 t)).1 ->
      T p.2 /\ ~ T p.1.

(** *** Narrowing, glyph by glyph

    What the design document asks of [change_char_width] for one glyph with
    metrics [m]: the new metrics and the new glyph object. *)
Definition narrowed_metrics (match_width target_width : Z) (glyph : Glyph)
    (m : Z * Z) : Z * Z :=
  if negb (m.1 =? match_width)%Z then m
  else if (numberOfContours glyph =? 0)%Z then (target_width, m.2)
  else (target_width, (m.2 + round_half (target_width - match_width))%Z).

Definition narrowed_glyph (match_width target_width : Z) (glyph : Glyph)
    (m : Z * Z) : Glyph :=
  if negb (m.1 =? match_width)%Z then glyph
  else if (numberOfContours glyph =? 0)%Z then glyph
  else shift_glyph (round_half (target_width - match_width)) glyph.

Definition narrow_one (match_width target_width : Z) (font : TTFont)
    (name : string) (addr : nat) (glyph : Glyph) (m : Z * Z) : TTFont :=
  with_metrics
    (<[name := narrowed_metrics match_width target_width glyph m]>
       (metrics font))
    (with_glyph_objects
       (<[addr := narrowed_glyph match_width target_width glyph m]>
          (glyph_objects font))
       font).

(** Every name of the list is bound to a glyph object and to metrics. *)
Definition all_bound (names : list string) (font : TTFont) : Prop :=
  forall n, n ∈ names ->
    exists a g m, glyphs font !! n = Some a /\
                  glyph_objects font !! a = Some g /\
                  metrics font !! n = Some m.

(** No two names of the list are bound to one glyph object. *)
Definition unshared (names : list string) (font : TTFont) : Prop :=
  forall n1 n2 a, n1 ∈ names -> n2 ∈ names ->
    glyphs font !! n1 = Some a -> glyphs font !! n2 = Some a -> n1 = n2.

(** ** Further functions of build.py *)

(** [str.split(sep)] for a one-character separator: the pieces between the
    separators, never an empty list. *)
Fixpoint split_char (sep : ascii) (s : string) : list string :=
  match s with
  | EmptyString => [EmptyString]
  | String c s' =>
      let pieces := split_char sep s' in
      if Ascii.eqb c sep then EmptyString :: pieces
      else match pieces with
           | piece :: others => String c piece :: others
           | [] => [String c EmptyString]
           end
  end.

(** [f.split("-")[-1].split(".")[0]] (build.py, 392, 498, 540): the style
    token of a file name.  Both lists have an element, so neither index
    raises. *)
Definition style_of_filename (f : string) : string :=
  hd "" (split_char "." (List.last (split_char "-" f) "")).

(** [FontConfig.load_external] (build.py, 168):
    [family_name.replace(" ", "")]. *)
Definition compact_family_name (family_name : string) : string :=
  Py.replace family_name " " "".

(** PostScript names of the mono and NF builds (build.py, 410, 516). *)
Definition mono_postscript_name (family_name_compact style_compact : string)
    : string :=
  family_name_compact +:+ "-" +:+ style_compact.

Definition nf_postscript_name (family_name_compact style_compact : string)
    : string :=
  family_name_compact +:+ "-NF-" +:+ style_compact.

(** [BuildOption.load_cn_dir_and_suffix] (build.py, 251-258): [cn_suffix]. *)
Definition cn_suffix (with_nerd_font : bool) : string :=
  if with_nerd_font then "NF CN" else "CN".

(** The [set_font_name] calls of [build_nf] (build.py, 500-529). *)
Definition build_nf_name_calls (family_name family_name_compact : string)
    (feature_freeze : list (string * string)) (skip_list : list string)
    (style_compact_nf : string) : list (string * nat) :=
  let '(style_nf_with_prefix_space, style_nf_in_2, style_nf, _) :=
    parse_font_name style_compact_nf skip_list in
  let postscript_name :=
    family_name_compact +:+ "-NF-" +:+ style_compact_nf in
  [ (family_name +:+ " NF" +:+ style_nf_with_prefix_space, 1);
    (style_nf_in_2, 2);
    (family_name +:+ " NF " +:+ style_nf, 4);
    (postscript_name, 6);
    (get_unique_identifier postscript_name feature_freeze false "", 3) ]
  ++ (if negb (Py.list_in style_compact_nf skip_list)
      then [ (family_name +:+ " NF", 16); (style_nf, 17) ]
      else []).

(** The [set_font_name] calls of [build_cn] (build.py, 554-584). *)
Definition build_cn_name_calls (family_name family_name_compact : string)
    (feature_freeze : list (string * string)) (skip_list : list string)
    (with_nerd_font narrow : bool) (style_compact_cn : string)
    : list (string * nat) :=
  let '(style_cn_with_prefix_space, style_cn_in_2, style_cn, _) :=
    parse_font_name style_compact_cn skip_list in
  let postscript_name :=
    family_name_compact +:+ "-" +:+ cn_suffix_compact with_nerd_font
    +:+ "-" +:+ style_compact_cn in
  [ (family_name +:+ " " +:+ cn_suffix with_nerd_font
     +:+ style_cn_with_prefix_space, 1);
    (style_cn_in_2, 2);
    (family_name +:+ " " +:+ cn_suffix with_nerd_font +:+ " " +:+ style_cn,
     4);
    (postscript_name, 6);
    (get_unique_identifier postscript_name feature_freeze narrow "", 3) ]
  ++ (if negb (Py.list_in style_compact_cn skip_list)
      then [ (family_name +:+ " " +:+ cn_suffix with_nerd_font, 16);
             (style_cn, 17) ]
      else []).

(** The name table after a list of [set_font_name] calls. *)
Definition set_font_names (calls : list (string * nat))
    (names : gmap nat string) : gmap nat string :=
  foldl (fun tbl call => set_font_name tbl (fst call) (snd call)) names calls.

(** [build_mono] (build.py, 426-429): the weight class after the override
    for the family-name suffixes " Thin" and " ExtraLight". *)
Definition override_weight_class (style_with_prefix_space : string)
    (usWeightClass : Z) : Z :=
  if String.eqb style_with_prefix_space " Thin" then 250%Z
  else if String.eqb style_with_prefix_space " ExtraLight" then 275%Z
  else usWeightClass.

Definition build_mono_weight_class (skip_list : list string)
    (style_compact : string) (usWeightClass : Z) : Z :=
  override_weight_class (family_suffix style_compact skip_list) usWeightClass.

Definition with_Lookups (lookups : list Lookup) (font : TTFont) : TTFont :=
  {| FeatureRecords := FeatureRecords font; Lookups := lookups;
     glyphs := glyphs font; glyph_objects := glyph_objects font;
     metrics := metrics font; glyphOrder := glyphOrder font;
     advanceWidthMax := advanceWidthMax font |}.

(** [fix_cv98] (build.py, 322-336).  The mapping assigned at 332-335: *)
Definition cv98_mapping : list (string * string) :=
  [("emdash", "emdash.cv98"); ("ellipsis", "ellipsis.cv98")].

(** The loop over the feature records: the first record tagged "cv98" has
    the mapping of the first subtable of its first lookup replaced, and the
    loop breaks.  Each of the three indexings raises [IndexError] out of
    range.  The subtable object is changed in place, so every feature that
    refers to the lookup sees the new mapping; a subtable that had no
    attribute [mapping] has one afterwards. *)
Fixpoint fix_cv98_loop (records : list FeatureRecord) (font : TTFont)
    : TTFont * control :=
  match records with
  | [] => (font, Next)
  | feature_record :: rest =>
      if negb (String.eqb (FeatureTag feature_record) "cv98")
      then fix_cv98_loop rest font
      else
        match LookupListIndex (Feature feature_record) with
        | [] => (font, Raise "IndexError")
        | index :: _ =>
            match Lookups font !! index with
            | None => (font, Raise "IndexError")
            | Some lookup =>
                match SubTable lookup with
                | [] => (font, Raise "IndexError")
                | _ :: subs =>
                    (with_Lookups
                       (<[index := {| SubTable :=
                                        Single {| mapping := cv98_mapping |}
                                        :: subs |}]> (Lookups font))
                       font,
                     Next)
                end
            end
        end
  end.

Definition fix_cv98 (font : TTFont) : TTFont * control :=
  fix_cv98_loop (FeatureRecords font) font.

#[global] Instance FeatureTable_eq_dec : EqDecision FeatureTable.
Proof. solve_decision. Defined.

#[global] Instance FeatureRecord_eq_dec : EqDecision FeatureRecord.
Proof. solve_decision. Defined.

(** [list.remove(x)]: the first element equal to [x] is taken out;
    [None] stands for the [ValueError] raised when there is none.  Tables
    compare by their contents. *)
Fixpoint list_remove (x : FeatureRecord) (l : list FeatureRecord)
    : option (list FeatureRecord) :=
  match l with
  | [] => None
  | y :: rest =>
      if decide (y = x) then Some rest
      else match list_remove x rest with
           | Some rest' => Some (y :: rest')
           | None => None
           end
  end.

(** [remove_locl] (build.py, 339-350): the second loop. *)
Fixpoint remove_each (features_to_remove records : list FeatureRecord)
    : list FeatureRecord * control :=
  match features_to_remove with
  | [] => (records, Next)
  | feature :: rest =>
      match list_remove feature records with
      | None => (records, Raise "ValueError")
      | Some records' => remove_each rest records'
      end
  end.

Definition is_locl (feature : FeatureRecord) : bool :=
  String.eqb (FeatureTag feature) "locl".

Definition remove_locl (font : TTFont) : TTFont * control :=
  let features_to_remove := List.filter is_locl (FeatureRecords font) in
  let '(records, c) := remove_each features_to_remove (FeatureRecords font) in
  (with_FeatureRecords records font, c).

(** *** Notions for the further statements *)

(** The lookup indices that a completed run appends to every calt feature:
    those of the features bound to the enabled moving tags, in the order of
    the policy. *)
Definition moved_indices (moving_rules : list string) (font : TTFont)
    (config : list (string * string)) : list nat :=
  concat
    (map (fun entry =>
            match feature_dict (FeatureRecords font) !! entry.1 with
            | Some t =>
                if enabling entry.2 && Py.list_in entry.1 moving_rules
                then lookups_at font t else []
            | None => []
            end)
       config).

(** The two stores of [font'] know the names that those of [font] know and
    bind them to values that [font] already held. *)
Definition stores_within (font font' : TTFont) : Prop :=
  (forall k, has_key (glyphs font') k = has_key (glyphs font) k) /\
  (forall k, has_key (metrics font') k = has_key (metrics font) k) /\
  (forall k a, glyphs font' !! k = Some a ->
     exists k', glyphs font !! k' = Some a) /\
  (forall k m, metrics font' !! k = Some m ->
     exists k', metrics font !! k' = Some m).

(** A lookup index whose lookup and first subtable can be read. *)
Definition readable (lookups : list Lookup) (index : nat) : Prop :=
  exists lookup sub subs,
    lookups !! index = Some lookup /\ SubTable lookup = sub :: subs.

(** A lookup index whose first subtable can be read and has a mapping. *)
Definition has_mapping (lookups : list Lookup) (index : nat) : Prop :=
  exists lookup sub subs,
    lookups !! index = Some lookup /\ SubTable lookup = Single sub :: subs.

(** Every name of the list whose advance width is [match_width] and whose
    glyph has contours is bound to a glyph object that has the attribute
    [coordinates]: no composite glyph has the matching width. *)
Definition has_outlines (match_width : Z) (names : list string)
    (font : TTFont) : Prop :=
  forall n a g m, n ∈ names ->
    glyphs font !! n = Some a -> glyph_objects font !! a = Some g ->
    metrics font !! n = Some m ->
    m.1 = match_width -> numberOfContours g <> 0%Z ->
    has_coordinates g = true.

(** The differences of widths for which [round_half] is the rounding of the
    code: their halves are binary floating-point numbers. *)
Definition exact_half (n : Z) : Prop := (Z.abs n < 2 ^ 53)%Z.

(** The number of names of the list that are bound to the object at [addr]
    and whose advance width is [match_width]. *)
Definition visits (match_width : Z) (font : TTFont) (names : list string)
    (addr : nat) : nat :=
  length
    (List.filter
       (fun n =>
          match glyphs font !! n, metrics font !! n with
          | Some a, Some m => (a =? addr)%nat && (m.1 =? match_width)%Z
          | _, _ => false
          end)
       names).

(** The name records that a build leaves are consistent: the full name
    (ID 4) is the family name, a space and the subfamily name, read from IDs
    1 and 2 for a style of the skip list (IDs 16 and 17 are then left as
    they were) and from IDs 16 and 17 for any other style; and the unique
    identifier (ID 3) carries the PostScript name (ID 6). *)
Definition names_consistent (in_skip_list : bool)
    (names names' : gmap nat string) : Prop :=
  (in_skip_list = true ->
     exists family subfamily,
       names' !! 1 = Some family /\ names' !! 2 = Some subfamily /\
       names' !! 4 = Some (family +:+ " " +:+ subfamily) /\
       names' !! 16 = names !! 16 /\ names' !! 17 = names !! 17) /\
  (in_skip_list = false ->
     exists family subfamily,
       names' !! 16 = Some family /\ names' !! 17 = Some subfamily /\
       names' !! 4 = Some (family +:+ " " +:+ subfamily)) /\
  (exists postscript_name rest,
     names' !! 6 = Some postscript_name /\
     names' !! 3 =
       Some ("Version 7.000;SUBF;" +:+ postscript_name +:+ ";2024;FL830;"
             +:+ rest)).

(** How a run that started with the output [out] may end: it completes and
    has printed nothing more; or it returns early, having printed one
    message about a pair with a name that a store of the final font does
    not have; or it raises [IndexError] or [AttributeError] and has
    printed nothing more. *)
Definition run_end (out : list string) (r : TTFont * list string * control)
    : Prop :=
  match control_of r with
  | Next => output_of r = out
  | Return =>
      exists o n, output_of r = out ++ [missing_message o n] /\
                  both_known (font_of r) o n = false
  | Raise exc =>
      (exc = "IndexError" \/ exc = "AttributeError") /\ output_of r = out
  end.

(** * Properties *)

(** ** Strings *)

Section StringFacts.

Lemma app_cons (c : ascii) (a b : string) :
  String c a +:+ b = String c (a +:+ b).
Proof. reflexivity. Qed.

Lemma app_length_string (a b : string) :
  String.length (a +:+ b) = String.length a + String.length b.
Proof.
  induction a as [|c a IH]; [reflexivity |].
  rewrite app_cons. simpl. now rewrite IH.
Qed.

Lemma app_assoc_string (a b c : string) : (a +:+ b) +:+ c = a +:+ (b +:+ c).
Proof.
  induction a as [|x a IH]; [reflexivity |].
  rewrite !app_cons. now f_equal.
Qed.

Lemma app_empty_r (a : string) : a +:+ "" = a.
Proof.
  induction a as [|x a IH]; [reflexivity |].
  rewrite app_cons. now f_equal.
Qed.

Lemma substring_whole (s : string) : substring 0 (String.length s) s = s.
Proof. induction s as [|c s IH]; simpl; [reflexivity | now rewrite IH]. Qed.

Lemma substring_past_prefix (p s : string) (n : nat) :
  substring (String.length p) n (p +:+ s) = substring 0 n s.
Proof.
  induction p as [|c p IH]; [reflexivity |].
  rewrite app_cons. simpl. exact IH.
Qed.

Lemma substring_prefix_of_app (p s : string) :
  substring 0 (String.length p) (p +:+ s) = p.
Proof.
  induction p as [|c p IH]; [now destruct s |].
  rewrite app_cons. simpl. now rewrite IH.
Qed.

Lemma substring_cut (s : string) (i : nat) :
  i <= String.length s ->
  s = substring 0 i s +:+ substring i (String.length s - i) s.
Proof.
  revert i; induction s as [|c s IH]; intros [|i] Hi; simpl in *;
    try reflexivity; try lia.
  - now rewrite substring_whole.
  - rewrite app_cons. f_equal. apply IH. lia.
Qed.

Lemma endswith_spec (s suffix : string) :
  Py.endswith s suffix = true <-> exists p, s = p +:+ suffix.
Proof.
  unfold Py.endswith. rewrite andb_true_iff, Nat.leb_le, String.eqb_eq. split.
  - intros [Hlen Hsub].
    exists (substring 0 (String.length s - String.length suffix) s).
    pose proof (substring_cut s (String.length s - String.length suffix))
      as Hcut.
    replace (String.length s - (String.length s - String.length suffix))
      with (String.length suffix) in Hcut by lia.
    rewrite Hsub in Hcut. apply Hcut. lia.
  - intros [p ->]. rewrite app_length_string. split; [lia |].
    replace (String.length p + String.length suffix - String.length suffix)
      with (String.length p) by lia.
    rewrite substring_past_prefix. apply substring_whole.
Qed.

Lemma drop_last_app (p suffix : string) :
  Py.drop_last (String.length suffix) (p +:+ suffix) = p.
Proof.
  unfold Py.drop_last. rewrite app_length_string.
  replace (String.length p + String.length suffix - String.length suffix)
    with (String.length p) by lia.
  apply substring_prefix_of_app.
Qed.

Lemma contains_prefix (sub s : string) :
  String.prefix sub s = true -> Py.contains sub s = true.
Proof. destruct s; simpl; intros ->; reflexivity. Qed.

Lemma contains_app_r (sub p s : string) :
  Py.contains sub s = true -> Py.contains sub (p +:+ s) = true.
Proof.
  intros H. induction p as [|c p IH]; [exact H |].
  rewrite app_cons. simpl. rewrite IH. apply orb_true_r.
Qed.

Lemma prefix_app_long (a s x : string) :
  String.length a <= String.length s ->
  String.prefix a (s +:+ x) = String.prefix a s.
Proof.
  revert s. induction a as [|c a IH]; intros s Hlen.
  - destruct s; [now destruct x | reflexivity].
  - destruct s as [|d s]; simpl in Hlen; [lia |].
    rewrite app_cons. simpl. rewrite IH by lia. reflexivity.
Qed.

Lemma replace_from_cons (old new : string) (c : ascii) (s : string) :
  Py.replace_from 0 old new (String c s) =
  if String.prefix old (String c s)
  then new +:+ Py.replace_from (String.length old - 1) old new s
  else String c (Py.replace_from 0 old new s).
Proof. reflexivity. Qed.

Lemma contains_cons (sub : string) (c : ascii) (s : string) :
  Py.contains sub (String c s) =
  String.prefix sub (String c s) || Py.contains sub s.
Proof. reflexivity. Qed.

(** Replacing in a string without an occurrence changes nothing. *)
Lemma replace_absent (s old new : string) :
  Py.contains old s = false -> Py.replace s old new = s.
Proof.
  unfold Py.replace. induction s as [|c s IH]; intros H; [reflexivity |].
  rewrite contains_cons in H. apply orb_false_iff in H as [Hp Hc].
  rewrite replace_from_cons, Hp. now rewrite IH.
Qed.

(** Removing "Italic" from a token whose only occurrence of it is the
    trailing one leaves the part before it. *)
Lemma remove_trailing_Italic (p : string) :
  Py.contains "Italic" (p +:+ "Itali") = false ->
  Py.replace (p +:+ "Italic") "Italic" "" = p.
Proof.
  unfold Py.replace. induction p as [|c p IH]; intros H; [reflexivity |].
  rewrite app_cons, contains_cons in H. apply orb_false_iff in H as [Hp Hc].
  assert (String.prefix "Italic" (String c (p +:+ "Italic")) = false)
    as Hp'.
  { change (String c (p +:+ "Italic"))
      with (String c (p +:+ ("Itali" +:+ "c"))).
    rewrite <- app_assoc_string, <- app_cons.
    rewrite prefix_app_long; [exact Hp |].
    simpl. rewrite app_length_string. simpl. lia. }
  rewrite app_cons, replace_from_cons, Hp'. f_equal. now apply IH.
Qed.

Lemma list_in_spec (x : string) (xs : list string) :
  Py.list_in x xs = true <-> x ∈ xs.
Proof.
  unfold Py.list_in. rewrite existsb_exists, list_elem_of_In. split.
  - intros (y & Hy & Heq). apply String.eqb_eq in Heq. now subst.
  - intros H. exists x. split; [exact H | apply String.eqb_refl].
Qed.

Lemma list_in_false (x : string) (xs : list string) :
  Py.list_in x xs = false <-> x ∉ xs.
Proof.
  rewrite <- list_in_spec. destruct (Py.list_in x xs); split;
    intros H; congruence.
Qed.

End StringFacts.

(** ** Naming *)

(** The guarded index [style_name_compact[0]] never raises: a token that
    ends with "Italic" is not empty. *)
Lemma is_italic_nonempty (token : string) :
  Py.endswith token "Italic" = true -> token <> "".
Proof.
  intros H ->. discriminate H.
Qed.

Lemma parse_font_name_flag (token : string) (skip_list : list string) :
  is_italic_flag token skip_list = Py.endswith token "Italic".
Proof.
  unfold is_italic_flag, parse_font_name.
  destruct (Py.list_in token skip_list); reflexivity.
Qed.

Lemma parse_font_name_display (token : string) (skip_list : list string) :
  display_style_name token skip_list =
  if Py.endswith token "Italic" && first_is_not_I token
  then Py.drop_last 6 token +:+ " Italic" else token.
Proof.
  unfold display_style_name, parse_font_name.
  destruct (Py.list_in token skip_list); reflexivity.
Qed.

(** C4 (as stated, refuted): the token "Italic" is classified as italic
    although its first character is "I". *)
Lemma italic_flag_ignores_first_char :
  ~ (is_italic_flag "Italic" skip_subfamily_list = true <->
     (exists p, "Italic" = p +:+ "Italic") /\
     ~ (exists r, "Italic" = String "I" r)).
Proof.
  intros [Hflag _]. destruct (Hflag eq_refl) as [_ Hfirst].
  apply Hfirst. exists "talic". reflexivity.
Qed.

(** C4 (amended): the parser classifies a token as italic exactly when the
    token ends with "Italic", whatever its first character is. *)
Theorem italic_flag_iff_suffix (token : string) (skip_list : list string) :
  is_italic_flag token skip_list = true <-> exists p, token = p +:+ "Italic".
Proof. rewrite parse_font_name_flag. apply endswith_spec. Qed.

(** C9 (as stated, refuted): "IItalic" is an italic token other than
    "Italic", and its display name is not split. *)
Lemma display_name_IItalic_unsplit :
  is_italic_flag "IItalic" skip_subfamily_list = true /\
  "IItalic" <> "Italic" /\
  display_style_name "IItalic" skip_subfamily_list = "IItalic" /\
  display_style_name "IItalic" skip_subfamily_list <>
    Py.drop_last 6 "IItalic" +:+ " " +:+ "Italic".
Proof. repeat split; try reflexivity; discriminate. Qed.

(** C9 (amended): a token that ends with "Italic" and does not start with
    "I" is displayed as its part before "Italic", one space, "Italic"; a
    token that starts with "I" (among them "Italic" itself) and a token that
    does not end with "Italic" are displayed unchanged. *)
Theorem display_style_name_cases (skip_list : list string) :
  (forall c p, c <> "I"%char ->
     display_style_name (String c p +:+ "Italic") skip_list =
     String c p +:+ " " +:+ "Italic") /\
  (forall p, display_style_name (String "I" p) skip_list = String "I" p) /\
  display_style_name "Italic" skip_list = "Italic" /\
  (forall token, ~ (exists p, token = p +:+ "Italic") ->
     display_style_name token skip_list = token).
Proof.
  repeat split.
  - intros c p Hc. rewrite parse_font_name_display.
    assert (Py.endswith (String c p +:+ "Italic") "Italic" = true) as ->
      by (apply endswith_spec; eauto).
    rewrite app_cons. unfold first_is_not_I.
    destruct (Ascii.eqb_spec c "I") as [|_]; [contradiction |].
    rewrite <- app_cons.
    change 6 with (String.length "Italic"). now rewrite drop_last_app.
  - intros p. rewrite parse_font_name_display. unfold first_is_not_I.
    rewrite Ascii.eqb_refl. now rewrite andb_false_r.
  - rewrite parse_font_name_display. reflexivity.
  - intros token Hno. rewrite parse_font_name_display.
    destruct (Py.endswith token "Italic") eqn:E; [| reflexivity].
    apply endswith_spec in E. contradiction.
Qed.

Lemma display_style_name_cases_witness :
  display_style_name "BoldItalic" skip_subfamily_list = "Bold Italic" /\
  display_style_name "Regular" skip_subfamily_list = "Regular".
Proof.
  split.
  - apply (proj1 (display_style_name_cases skip_subfamily_list)
             "B"%char "old"). discriminate.
  - apply (proj2 (proj2 (proj2
             (display_style_name_cases skip_subfamily_list))) "Regular").
    intros H. apply endswith_spec in H. discriminate H.
Defined.

(** ** Unique identifier *)

Lemma suffix_loop_policy (policy : list (string * policy_value))
    (acc : string) :
  suffix_loop (policy_config policy) acc = acc +:+ feature_state_suffix policy.
Proof.
  revert acc. induction policy as [|[k v] policy IH]; intros acc.
  - symmetry. apply app_empty_r.
  - unfold feature_state_suffix in *. destruct v; simpl; rewrite IH.
    + reflexivity.
    + unfold feature_state_entry. simpl.
      now rewrite !app_assoc_string.
    + unfold feature_state_entry. simpl.
      now rewrite !app_assoc_string.
Qed.

Lemma cn_postscript_name_contains_CN (family_name_compact : string)
    (with_nerd_font : bool) (style : string) :
  Py.contains "CN"
    (cn_postscript_name family_name_compact with_nerd_font style) = true.
Proof.
  unfold cn_postscript_name.
  apply contains_app_r. apply contains_app_r.
  destruct with_nerd_font.
  - change (cn_suffix_compact true +:+ "-" +:+ style)
      with ("NF-" +:+ ("CN" +:+ "-" +:+ style)).
    apply contains_app_r. apply contains_prefix. reflexivity.
  - apply contains_prefix. reflexivity.
Qed.

(** C3: the identifier is the fixed prefix, the PostScript name,
    ";2024;FL830;", then "Narrow;" exactly when [narrow] is set and the name
    is that of a CN build, then every non-ignored tag of the policy in
    declared order, "+" for enabled and "-" for disabled, each followed by a
    semicolon.  The name of a CN build always holds "CN", and the mono and
    NF builds never pass [narrow]. *)
Theorem unique_identifier_format :
  (forall postscript_name policy narrow,
     get_unique_identifier postscript_name (policy_config policy) narrow "" =
     "Version 7.000;SUBF;" +:+ postscript_name +:+ ";2024;FL830;" +:+
     (if narrow && Py.contains "CN" postscript_name then "Narrow;" else "")
     +:+ feature_state_suffix policy) /\
  (forall family_name_compact with_nerd_font style narrow policy,
     let name :=
       cn_postscript_name family_name_compact with_nerd_font style in
     get_unique_identifier name (policy_config policy) narrow "" =
     "Version 7.000;SUBF;" +:+ name +:+ ";2024;FL830;" +:+
     (if narrow then "Narrow;" else "") +:+ feature_state_suffix policy) /\
  get_unique_identifier "MapleMono-Bold"
    (policy_config
       [("cv02", Ignore); ("ss03", Enable); ("zero", Ignore);
        ("cv01", Disable); ("ss01", Ignore)])
    false "" =
  "Version 7.000;SUBF;MapleMono-Bold;2024;FL830;+ss03;-cv01;".
Proof.
  assert (forall postscript_name policy narrow,
     get_unique_identifier postscript_name (policy_config policy) narrow "" =
     "Version 7.000;SUBF;" +:+ postscript_name +:+ ";2024;FL830;" +:+
     (if narrow && Py.contains "CN" postscript_name then "Narrow;" else "")
     +:+ feature_state_suffix policy) as Hgen.
  { intros ps policy narrow. unfold get_unique_identifier.
    change (String.eqb "" "") with true. cbv iota.
    rewrite suffix_loop_policy. rewrite andb_comm.
    destruct (narrow && Py.contains "CN" ps); reflexivity. }
  split; [exact Hgen | split; [| reflexivity]].
  intros fam nf style narrow policy name. rewrite Hgen.
  unfold name. rewrite cn_postscript_name_contains_CN.
  now rewrite andb_true_r.
Qed.

(** X2: with a non-empty [suffix] argument, as the variable-font build
    passes, the policy is not read: the argument takes the place of the
    feature-state suffix. *)
Theorem unique_identifier_explicit_suffix (postscript_name : string)
    (freeze_config : list (string * string)) (narrow : bool)
    (suffix : string) :
  suffix <> "" ->
  get_unique_identifier postscript_name freeze_config narrow suffix =
  "Version 7.000;SUBF;" +:+ postscript_name +:+ ";2024;FL830;" +:+
  (if Py.contains "CN" postscript_name && narrow then "Narrow;" else "")
  +:+ suffix.
Proof.
  intros Hne. unfold get_unique_identifier.
  destruct (String.eqb_spec suffix "") as [-> | _]; [contradiction |].
  destruct (Py.contains "CN" postscript_name && narrow); reflexivity.
Qed.

Lemma unique_identifier_explicit_suffix_witness :
  get_unique_identifier "MapleMono-VF" [("ss03", "enable")] false "variable"
  = "Version 7.000;SUBF;MapleMono-VF;2024;FL830;variable".
Proof.
  apply (unique_identifier_explicit_suffix "MapleMono-VF"
           [("ss03", "enable")] false "variable").
  discriminate.
Defined.

(** ** Name records of a style *)


Lemma other_tokens_names (token : string) (skip_list : list string) :
  token ∉ skip_list ->
  family_suffix token skip_list = " " +:+ Py.replace token "Italic" "" /\
  subfamily_name token skip_list =
    (if is_italic_flag token skip_list then "Italic" else "Regular").
Proof.
  intros Hin. apply list_in_false in Hin.
  unfold family_suffix, subfamily_name, is_italic_flag, parse_font_name.
  rewrite Hin. split; reflexivity.
Qed.









(** ** Feature freezing: the feature list *)

Section FeatureList.

Implicit Types (font : TTFont) (recs : list FeatureRecord) (tag : string).

Lemma lookups_at_set_lookups font i l j :
  lookups_at (set_lookups i l font) j =
  if decide (i = j) then
    (if decide (i < length (FeatureRecords font)) then l else [])
  else lookups_at font j.
Proof.
  unfold lookups_at, set_lookups. simpl.
  destruct (decide (i = j)) as [<- | Hne].
  - rewrite list_lookup_alter_eq.
    destruct (FeatureRecords font !! i) as [r|] eqn:E; simpl.
    + apply lookup_lt_Some in E. now rewrite decide_True.
    + apply lookup_ge_None in E. rewrite decide_False by lia. reflexivity.
  - now rewrite list_lookup_alter_ne.
Qed.

Lemma lookups_at_ext font font' i :
  FeatureRecords font' = FeatureRecords font ->
  lookups_at font' i = lookups_at font i.
Proof. intros H. unfold lookups_at. now rewrite H. Qed.

Lemma tags_set_lookups font i l : tags (set_lookups i l font) = tags font.
Proof.
  unfold tags, set_lookups. simpl. apply list_eq. intros j.
  rewrite !list_lookup_fmap.
  destruct (decide (i = j)) as [<- | Hne].
  - rewrite list_lookup_alter_eq. now destruct (FeatureRecords font !! i).
  - now rewrite list_lookup_alter_ne.
Qed.

Lemma length_set_lookups font i l :
  length (FeatureRecords (set_lookups i l font)) =
  length (FeatureRecords font).
Proof. unfold set_lookups. simpl. apply length_alter. Qed.

Lemma set_lookups_other font i l j :
  i <> j ->
  FeatureRecords (set_lookups i l font) !! j = FeatureRecords font !! j.
Proof.
  intros Hne. unfold set_lookups. simpl. now rewrite list_lookup_alter_ne.
Qed.

Lemma tag_at font i r :
  FeatureRecords font !! i = Some r -> tags font !! i = Some (FeatureTag r).
Proof. intros H. unfold tags. now rewrite list_lookup_fmap, H. Qed.

Lemma tags_lookup font font' i r :
  tags font' = tags font ->
  FeatureRecords font !! i = Some r ->
  exists r', FeatureRecords font' !! i = Some r' /\
             FeatureTag r' = FeatureTag r.
Proof.
  intros Ht Hr. apply tag_at in Hr. rewrite <- Ht in Hr.
  unfold tags in Hr. rewrite list_lookup_fmap in Hr.
  destruct (FeatureRecords font' !! i) as [r'|]; [| discriminate].
  exists r'. split; [reflexivity |]. simpl in Hr. congruence.
Qed.

(** The dictionary binds no feature to "calt". *)
Lemma feature_dict_from_calt i recs (d : gmap string nat) :
  feature_dict_from i recs d !! "calt" = d !! "calt".
Proof.
  revert i d. induction recs as [|r recs IH]; intros i d; simpl;
    [reflexivity |].
  rewrite IH. destruct (String.eqb_spec (FeatureTag r) "calt") as [|Hne];
    [reflexivity |].
  now rewrite lookup_insert_ne.
Qed.

Lemma feature_dict_calt recs : feature_dict recs !! "calt" = None.
Proof. unfold feature_dict. now rewrite feature_dict_from_calt. Qed.

(** A tag that no record carries keeps its earlier binding. *)
Lemma feature_dict_from_absent i recs (d : gmap string nat) tag :
  tag ∉ map FeatureTag recs ->
  feature_dict_from i recs d !! tag = d !! tag.
Proof.
  revert i d. induction recs as [|r recs IH]; intros i d Hno; simpl;
    [reflexivity |].
  simpl in Hno. apply not_elem_of_cons in Hno as [Hne Hno].
  rewrite IH by exact Hno.
  destruct (String.eqb (FeatureTag r) "calt"); [reflexivity |].
  now rewrite lookup_insert_ne.
Qed.

(** A binding made by the comprehension names a record that carries the tag,
    and no later record carries it. *)
Lemma feature_dict_from_bound i recs (d : gmap string nat) tag t :
  feature_dict_from i recs d !! tag = Some t ->
  (d !! tag = Some t /\ (tag = "calt" \/ tag ∉ map FeatureTag recs)) \/
  (tag <> "calt" /\ i <= t /\
   (exists r, recs !! (t - i) = Some r /\ FeatureTag r = tag) /\
   (forall j r, recs !! j = Some r -> FeatureTag r = tag -> i + j <= t)).
Proof.
  revert i d. induction recs as [|r recs IH]; intros i d H; simpl in H.
  - left. split; [exact H |]. right. simpl. apply not_elem_of_nil.
  - apply IH in H as [[Hd Hrest] | (Hne & Hle & (r' & Hr' & Htag) & Hlast)].
    + destruct (String.eqb_spec (FeatureTag r) "calt") as [Hcalt | Hncalt].
      * left. split; [exact Hd |]. destruct Hrest as [-> | Hrest];
          [now left |].
        destruct (decide (tag = "calt")) as [-> | Hne]; [now left |].
        right. simpl. apply not_elem_of_cons. split; [congruence | exact Hrest].
      * destruct (decide (FeatureTag r = tag)) as [Heq | Hneq].
        -- rewrite Heq, lookup_insert_eq in Hd. inversion Hd; subst t.
           right. split; [congruence |]. split; [lia |]. split.
           ++ exists r. rewrite Nat.sub_diag. now split.
           ++ intros j r0 Hj Hr0. destruct j as [|j]; [lia |].
              simpl in Hj. destruct Hrest as [-> | Hrest]; [congruence |].
              exfalso. apply Hrest. apply list_elem_of_fmap.
              exists r0. split; [now symmetry |].
              eapply list_elem_of_lookup_2; eauto.
        -- rewrite lookup_insert_ne in Hd by exact Hneq.
           left. split; [exact Hd |]. destruct Hrest as [-> | Hrest];
             [now left |].
           right. simpl. apply not_elem_of_cons.
           split; [congruence | exact Hrest].
    + right. split; [exact Hne |]. split; [lia |]. split.
      * exists r'. replace (t - i) with (S (t - S i)) by lia. now split.
      * intros j r0 Hj Hr0. destruct j as [|j].
        -- lia.
        -- simpl in Hj. specialize (Hlast j r0 Hj Hr0). lia.
Qed.

Lemma feature_dict_bound recs tag t :
  feature_dict recs !! tag = Some t ->
  tag <> "calt" /\
  (exists r, recs !! t = Some r /\ FeatureTag r = tag) /\
  (forall j r, recs !! j = Some r -> FeatureTag r = tag -> j <= t).
Proof.
  intros H. apply feature_dict_from_bound in H
    as [[Hd _] | (Hne & _ & Hr & Hlast)].
  - rewrite lookup_empty in Hd. discriminate.
  - rewrite Nat.sub_0_r in Hr. split; [exact Hne |]. split; [exact Hr |].
    intros j r Hj Hr0. specialize (Hlast j r Hj Hr0). lia.
Qed.

Lemma feature_dict_absent recs tag :
  tag ∉ map FeatureTag recs -> feature_dict recs !! tag = None.
Proof.
  intros H. unfold feature_dict. rewrite feature_dict_from_absent by exact H.
  apply lookup_empty.
Qed.

(** The comprehensions read the tags only. *)
Lemma feature_dict_from_tags i recs recs' (d : gmap string nat) :
  map FeatureTag recs = map FeatureTag recs' ->
  feature_dict_from i recs d = feature_dict_from i recs' d.
Proof.
  revert i d recs'. induction recs as [|r recs IH];
    intros i d [|r' recs'] H; simpl in *; try discriminate; [reflexivity |].
  inversion H as [[Htag Hrest]]. rewrite Htag. now apply IH.
Qed.

Lemma calt_features_from_tags i recs recs' :
  map FeatureTag recs = map FeatureTag recs' ->
  calt_features_from i recs = calt_features_from i recs'.
Proof.
  revert i recs'. induction recs as [|r recs IH];
    intros i [|r' recs'] H; simpl in *; try discriminate; [reflexivity |].
  inversion H as [[Htag Hrest]]. rewrite Htag.
  now rewrite (IH (S i) recs' Hrest).
Qed.

Lemma elem_of_calt_features_from i recs j :
  j ∈ calt_features_from i recs <->
  i <= j /\ exists r, recs !! (j - i) = Some r /\ FeatureTag r = "calt".
Proof.
  revert i. induction recs as [|r recs IH]; intros i; simpl.
  - rewrite elem_of_nil. split; [tauto |]. intros (_ & r & Hr & _).
    discriminate.
  - assert (j ∈ calt_features_from (S i) recs <->
            S i <= j /\ exists r0, (r :: recs) !! (j - i) = Some r0 /\
                                    FeatureTag r0 = "calt") as Htail.
    { rewrite IH. split.
      - intros (Hle & r0 & Hr0 & Ht). split; [exact Hle |]. exists r0.
        replace (j - i) with (S (j - S i)) by lia. now split.
      - intros (Hle & r0 & Hr0 & Ht). split; [exact Hle |]. exists r0.
        replace (j - i) with (S (j - S i)) in Hr0 by lia. now split. }
    destruct (String.eqb_spec (FeatureTag r) "calt") as [Hcalt | Hncalt].
    + rewrite elem_of_cons, Htail. split.
      * intros [-> | (Hle & Hex)].
        -- split; [lia |]. exists r. rewrite Nat.sub_diag. now split.
        -- split; [lia | exact Hex].
      * intros (Hle & Hex). destruct (decide (j = i)) as [-> | Hne];
          [now left |]. right. split; [lia | exact Hex].
    + rewrite Htail. split.
      * intros (Hle & Hex). split; [lia | exact Hex].
      * intros (Hle & r0 & Hr0 & Ht).
        destruct (decide (j = i)) as [-> | Hne].
        -- rewrite Nat.sub_diag in Hr0. simpl in Hr0. congruence.
        -- split; [lia |]. now exists r0.
Qed.

Lemma elem_of_calt_features recs j :
  j ∈ calt_features recs <->
  exists r, recs !! j = Some r /\ FeatureTag r = "calt".
Proof.
  unfold calt_features. rewrite elem_of_calt_features_from, Nat.sub_0_r.
  split; [tauto |]. intros H. split; [lia | exact H].
Qed.

Lemma NoDup_calt_features_from i recs : NoDup (calt_features_from i recs).
Proof.
  revert i. induction recs as [|r recs IH]; intros i; simpl.
  - constructor.
  - destruct (String.eqb (FeatureTag r) "calt"); [| apply IH].
    constructor; [| apply IH].
    rewrite elem_of_calt_features_from. lia.
Qed.

End FeatureList.

(** ** Feature freezing: the steps *)

Section FreezeSteps.

Implicit Types (font : TTFont) (tag status : string) (out : list string).

Lemma same_fixed_tables_refl font : same_fixed_tables font font.
Proof. repeat split. Qed.

Lemma same_fixed_tables_trans f1 f2 f3 :
  same_fixed_tables f1 f2 -> same_fixed_tables f2 f3 ->
  same_fixed_tables f1 f3.
Proof.
  intros (A1 & A2 & A3 & A4) (B1 & B2 & B3 & B4).
  repeat split; congruence.
Qed.

(** *** Moving rules into calt *)

Lemma extend_calt_cons c cs t font :
  extend_calt (c :: cs) t font =
  extend_calt cs t
    (set_lookups c (lookups_at font c ++ lookups_at font t) font).
Proof. reflexivity. Qed.

Lemma extend_calt_frame cs t font :
  same_fixed_tables font (extend_calt cs t font) /\
  same_stores font (extend_calt cs t font) /\
  tags (extend_calt cs t font) = tags font /\
  (forall j, j ∉ cs ->
     FeatureRecords (extend_calt cs t font) !! j = FeatureRecords font !! j).
Proof.
  revert font. induction cs as [|c cs IH]; intros font.
  - repeat split.
  - rewrite extend_calt_cons.
    set (font1 := set_lookups c _ font).
    destruct (IH font1) as (Hfix & Hst & Htags & Hother).
    split; [| split; [| split]].
    + eapply same_fixed_tables_trans; [| exact Hfix]. repeat split.
    + destruct Hst as [Hg Hm]. split; [now rewrite Hg | now rewrite Hm].
    + rewrite Htags. apply tags_set_lookups.
    + intros j Hj. apply not_elem_of_cons in Hj as [Hne Hj].
      rewrite Hother by exact Hj. now apply set_lookups_other.
Qed.

Lemma extend_calt_lookups cs t font :
  NoDup cs -> t ∉ cs ->
  (forall c, c ∈ cs -> c < length (FeatureRecords font)) ->
  forall j, lookups_at (extend_calt cs t font) j =
            if decide (j ∈ cs)
            then lookups_at font j ++ lookups_at font t
            else lookups_at font j.
Proof.
  revert font. induction cs as [|c cs IH]; intros font Hnd Ht Hlen j.
  - rewrite decide_False by apply not_elem_of_nil. reflexivity.
  - rewrite extend_calt_cons.
    set (font1 := set_lookups c _ font).
    apply NoDup_cons in Hnd as [Hc Hnd].
    apply not_elem_of_cons in Ht as [Htc Ht].
    rewrite IH; [| exact Hnd | exact Ht |].
    2:{ intros c' Hc'. unfold font1. rewrite length_set_lookups.
        apply Hlen. now right. }
    assert (lookups_at font1 t = lookups_at font t) as Htgt.
    { unfold font1. rewrite lookups_at_set_lookups.
      now rewrite decide_False by congruence. }
    destruct (decide (j = c)) as [-> | Hne].
    + rewrite decide_False by exact Hc.
      rewrite decide_True by apply list_elem_of_here.
      unfold font1. rewrite lookups_at_set_lookups.
      rewrite decide_True by reflexivity.
      rewrite decide_True; [reflexivity |]. apply Hlen. apply list_elem_of_here.
    + assert (lookups_at font1 j = lookups_at font j) as Hj.
      { unfold font1. rewrite lookups_at_set_lookups.
        now rewrite decide_False by congruence. }
      rewrite Hj, Htgt.
      destruct (decide (j ∈ cs)) as [Hin | Hnin].
      * rewrite decide_True by (now right). reflexivity.
      * rewrite decide_False; [reflexivity |].
        intros Hin. apply elem_of_cons in Hin as [-> | Hin]; tauto.
Qed.

(** *** Replacing glyph data *)

Lemma assign_glyph_frame font pair :
  same_fixed_tables font (assign_glyph font pair) /\
  FeatureRecords (assign_glyph font pair) = FeatureRecords font.
Proof.
  unfold assign_glyph.
  destruct (glyphs font !! pair.2), (metrics font !! pair.2); repeat split.
Qed.

Lemma has_key_insert {V : Type} (d : gmap string V) k v key :
  has_key d k = true -> has_key (<[k := v]> d) key = has_key d key.
Proof.
  unfold has_key. intros Hk. destruct (decide (k = key)) as [<- | Hne].
  - rewrite lookup_insert_eq. exact (eq_sym Hk).
  - now rewrite lookup_insert_ne.
Qed.

(** Rebinding a known name leaves the set of known names as it is. *)
Lemma both_known_assign font o n a b :
  both_known font o n = true ->
  both_known (assign_glyph font (o, n)) a b = both_known font a b.
Proof.
  unfold both_known, assign_glyph. simpl. intros H.
  apply andb_true_iff in H as [H H4]. apply andb_true_iff in H as [H H3].
  apply andb_true_iff in H as [H1 H2].
  unfold has_key in H3, H4.
  destruct (glyphs font !! n) as [g|]; [| discriminate].
  destruct (metrics font !! n) as [m|]; [| discriminate].
  simpl. now rewrite !has_key_insert.
Qed.

Lemma substitute_pairs_frame pairs font out :
  let r := substitute_pairs pairs font out in
  same_fixed_tables font (font_of r) /\
  FeatureRecords (font_of r) = FeatureRecords font /\
  (forall a b, both_known (font_of r) a b = both_known font a b) /\
  (forall exc, control_of r <> Raise exc).
Proof.
  revert font. induction pairs as [|[o n] pairs IH]; intros font; simpl.
  - repeat split; discriminate.
  - destruct (both_known font o n) eqn:Hk.
    + destruct (IH (assign_glyph font (o, n))) as (Hfix & Hfr & Hkn & Hc).
      destruct (assign_glyph_frame font (o, n)) as [Hfix0 Hfr0].
      split; [| split; [| split]].
      * eapply same_fixed_tables_trans; eauto.
      * congruence.
      * intros a b. rewrite Hkn. now apply both_known_assign.
      * exact Hc.
    + repeat split; discriminate.
Qed.

Lemma known_prefix_ext font font' pairs :
  (forall a b, both_known font' a b = both_known font a b) ->
  known_prefix font' pairs = known_prefix font pairs.
Proof.
  intros H. induction pairs as [|[o n] pairs IH]; simpl; [reflexivity |].
  now rewrite H, IH.
Qed.

Lemma known_prefix_split font pairs done stop :
  known_prefix font pairs = (done, stop) ->
  Forall (fun p => both_known font p.1 p.2 = true) done /\
  match stop with
  | None => pairs = done
  | Some (o, n) =>
      both_known font o n = false /\
      exists rest, pairs = done ++ (o, n) :: rest
  end.
Proof.
  revert done stop. induction pairs as [|[o n] pairs IH]; intros done stop H;
    simpl in H.
  - inversion H; subst. split; [constructor | reflexivity].
  - destruct (both_known font o n) eqn:Hk.
    + destruct (known_prefix font pairs) as [d u]. inversion H; subst.
      destruct (IH d stop eq_refl) as [Hall Hstop]. split.
      * constructor; [exact Hk | exact Hall].
      * destruct stop as [[o' n']|].
        -- destruct Hstop as [Hu [rest ->]]. split; [exact Hu |].
           now exists rest.
        -- now rewrite Hstop.
    + inversion H; subst. split; [constructor |]. split; [exact Hk |].
      now exists pairs.
Qed.

Lemma known_prefix_stop font done o n rest :
  Forall (fun p => both_known font p.1 p.2 = true) done ->
  both_known font o n = false ->
  known_prefix font (done ++ (o, n) :: rest) = (done, Some (o, n)).
Proof.
  intros Hall Hk. induction Hall as [|[a b] done Hab Hall IH]; simpl.
  - now rewrite Hk.
  - simpl in Hab. now rewrite Hab, IH.
Qed.

Lemma known_prefix_all font pairs :
  Forall (fun p => both_known font p.1 p.2 = true) pairs ->
  known_prefix font pairs = (pairs, None).
Proof.
  intros Hall. induction Hall as [|[a b] done Hab Hall IH]; simpl;
    [reflexivity |].
  simpl in Hab. now rewrite Hab, IH.
Qed.

(** The loop over one mapping applies the pairs before the first unknown
    one, and at that one prints and returns. *)
Lemma substitute_pairs_eval pairs font out :
  substitute_pairs pairs font out =
  let '(done, stop) := known_prefix font pairs in
  (foldl assign_glyph font done,
   match stop with
   | None => out
   | Some (o, n) => out ++ [missing_message o n]
   end,
   match stop with None => Next | Some _ => Return end).
Proof.
  revert font. induction pairs as [|[o n] pairs IH]; intros font; simpl;
    [reflexivity |].
  destruct (both_known font o n) eqn:Hk; [| reflexivity].
  rewrite IH.
  rewrite (known_prefix_ext font (assign_glyph font (o, n)))
    by (intros a b; now apply both_known_assign).
  now destruct (known_prefix font pairs) as [d u].
Qed.

Lemma substitute_pairs_app ps qs font out :
  substitute_pairs (ps ++ qs) font out =
  let r := substitute_pairs ps font out in
  match control_of r with
  | Next => substitute_pairs qs (font_of r) (output_of r)
  | _ => r
  end.
Proof.
  revert font. induction ps as [|[o n] ps IH]; intros font; simpl;
    [reflexivity |].
  destruct (both_known font o n); [apply IH | reflexivity].
Qed.

(** The loop over the lookup indices is the loop over the pairs they
    resolve to, followed by the exception if there is one. *)
Lemma substitute_lookups_eval indices font out :
  substitute_lookups indices font out =
  let '(ps, c) := resolved_pairs (Lookups font) indices in
  let r := substitute_pairs ps font out in
  match control_of r with
  | Next => (font_of r, output_of r, c)
  | _ => r
  end.
Proof.
  revert font out. induction indices as [|index rest IH]; intros font out;
    simpl; [reflexivity |].
  destruct (Lookups font !! index) as [lookup|]; [| reflexivity].
  destruct (SubTable lookup) as [|[sub|] subs]; [reflexivity | | reflexivity].
  destruct (substitute_pairs (mapping sub) font out) as [[font' out'] c]
    eqn:Hsub.
  pose proof (substitute_pairs_frame (mapping sub) font out) as Hframe.
  rewrite Hsub in Hframe. simpl in Hframe.
  destruct Hframe as ((Hlk & _) & _ & _ & Hnoraise).
  unfold font_of in Hlk. simpl in Hlk.
  destruct (resolved_pairs (Lookups font) rest) as [ps c'] eqn:Hres.
  rewrite substitute_pairs_app, Hsub. simpl.
  destruct c as [| |exc].
  - rewrite IH, Hlk, Hres. reflexivity.
  - reflexivity.
  - exfalso. now apply (Hnoraise exc).
Qed.

Lemma foldl_assign_frame pairs font :
  same_fixed_tables font (foldl assign_glyph font pairs) /\
  FeatureRecords (foldl assign_glyph font pairs) = FeatureRecords font.
Proof.
  revert font. induction pairs as [|p pairs IH]; intros font; simpl.
  - split; [apply same_fixed_tables_refl | reflexivity].
  - destruct (IH (assign_glyph font p)) as [Hfix Hfr].
    destruct (assign_glyph_frame font p) as [Hfix0 Hfr0]. split.
    + eapply same_fixed_tables_trans; eauto.
    + congruence.
Qed.

Lemma substitute_lookups_frame indices font out :
  let r := substitute_lookups indices font out in
  same_fixed_tables font (font_of r) /\
  FeatureRecords (font_of r) = FeatureRecords font /\
  (forall a b, both_known (font_of r) a b = both_known font a b).
Proof.
  simpl. rewrite substitute_lookups_eval.
  destruct (resolved_pairs (Lookups font) indices) as [ps c].
  pose proof (substitute_pairs_frame ps font out) as Hframe. simpl in Hframe.
  destruct Hframe as (Hfix & Hfr & Hkn & _).
  cbv zeta. destruct (control_of (substitute_pairs ps font out));
    exact (conj Hfix (conj Hfr Hkn)).
Qed.

End FreezeSteps.

(** ** Feature freezing: a whole run *)

Section FreezeRun.

Variable moving_rules : list string.
Variable font0 : TTFont.

Let fdict := feature_dict (FeatureRecords font0).
Let calt_feats := calt_features (FeatureRecords font0).

Implicit Types (font : TTFont) (tag status : string) (out : list string).

Lemma evolves_refl font : evolves font font.
Proof.
  split; [apply same_fixed_tables_refl |]. split; [reflexivity |].
  split; [reflexivity |]. intros i. split.
  - intros _. exists []. now rewrite app_nil_r.
  - intros _. now left.
Qed.

Lemma evolves_trans f1 f2 f3 : evolves f1 f2 -> evolves f2 f3 -> evolves f1 f3.
Proof.
  intros (A1 & A2 & A3 & A4) (B1 & B2 & B3 & B4).
  split; [eapply same_fixed_tables_trans; eauto |].
  split; [congruence |]. split; [intros a b; now rewrite B3 |].
  intros i. destruct (A4 i) as [Ac An]. destruct (B4 i) as [Bc Bn].
  rewrite A2 in Bc, Bn. split.
  - intros Hc. destruct (Ac Hc) as [e1 He1]. destruct (Bc Hc) as [e2 He2].
    exists (e1 ++ e2). now rewrite He2, He1, app_assoc.
  - intros Hn. destruct (Bn Hn) as [He | He]; [| now right].
    rewrite He. now apply An.
Qed.

Lemma calt_feats_tag font i :
  tags font = tags font0 ->
  i ∈ calt_feats <-> tags font !! i = Some "calt".
Proof.
  intros Ht. rewrite Ht. unfold calt_feats, tags.
  rewrite elem_of_calt_features, list_lookup_fmap. split.
  - intros (r & -> & Hr). simpl. now rewrite Hr.
  - intros H. destruct (FeatureRecords font0 !! i) as [r|]; [| discriminate].
    exists r. split; [reflexivity |]. simpl in H. congruence.
Qed.

Lemma calt_feats_bounded font c :
  tags font = tags font0 -> c ∈ calt_feats ->
  c < length (FeatureRecords font).
Proof.
  intros Ht Hc. apply (calt_feats_tag font c Ht) in Hc.
  apply lookup_lt_Some in Hc. unfold tags in Hc.
  now rewrite length_map in Hc.
Qed.

(** The feature that the dictionary binds to a tag is not a calt feature. *)
Lemma fdict_target font tag t :
  tags font = tags font0 ->
  fdict !! tag = Some t ->
  tag <> "calt" /\ tags font !! t = Some tag /\ (t ∉ calt_feats) /\
  t < length (FeatureRecords font).
Proof.
  intros Ht Hd. apply feature_dict_bound in Hd as (Hne & (r & Hr & Htag) & _).
  assert (tags font !! t = Some tag) as Htt.
  { rewrite Ht. apply tag_at in Hr. now rewrite Hr, Htag. }
  split; [exact Hne |]. split; [exact Htt |]. split.
  - rewrite (calt_feats_tag font t Ht), Htt. congruence.
  - apply lookup_lt_Some in Htt. unfold tags in Htt.
    now rewrite length_map in Htt.
Qed.

Lemma both_known_stores font font' a b :
  same_stores font font' -> both_known font' a b = both_known font a b.
Proof. intros [Hg Hm]. unfold both_known. now rewrite Hg, Hm. Qed.

Lemma set_lookups_clear_evolves font tag t :
  tags font = tags font0 -> fdict !! tag = Some t ->
  evolves font (set_lookups t [] font).
Proof.
  intros Ht Hd. destruct (fdict_target font tag t Ht Hd) as (Hne & Htt & _ & _).
  split; [repeat split |]. split; [apply tags_set_lookups |].
  split; [reflexivity |]. intros i. rewrite lookups_at_set_lookups. split.
  - intros Hc. destruct (decide (t = i)) as [<- | _].
    + rewrite Htt in Hc. congruence.
    + exists []. now rewrite app_nil_r.
  - intros _. destruct (decide (t = i)) as [<- | _]; [right | now left].
    now destruct (decide (t < length (FeatureRecords font))).
Qed.

Lemma extend_calt_evolves font tag t :
  tags font = tags font0 -> fdict !! tag = Some t ->
  evolves font (extend_calt calt_feats t font).
Proof.
  intros Ht Hd. destruct (fdict_target font tag t Ht Hd) as (_ & _ & Htc & _).
  destruct (extend_calt_frame calt_feats t font) as (Hfix & Hst & Htags & _).
  split; [exact Hfix |]. split; [exact Htags |].
  split; [intros a b; now apply both_known_stores |].
  intros i.
  rewrite (extend_calt_lookups calt_feats t font
             (NoDup_calt_features_from 0 _) Htc
             (fun c Hc => calt_feats_bounded font c Ht Hc)).
  rewrite <- (calt_feats_tag font i Ht). split.
  - intros Hc. rewrite decide_True by exact Hc. eauto.
  - intros Hn. rewrite decide_False by exact Hn. now left.
Qed.

Lemma frame_evolves font font' :
  same_fixed_tables font font' ->
  FeatureRecords font' = FeatureRecords font ->
  (forall a b, both_known font' a b = both_known font a b) ->
  evolves font font'.
Proof.
  intros Hfix Hfr Hkn. split; [exact Hfix |].
  split; [unfold tags; now rewrite Hfr |]. split; [exact Hkn |].
  intros i. rewrite (lookups_at_ext font font' i Hfr). split.
  - intros _. exists []. now rewrite app_nil_r.
  - intros _. now left.
Qed.

Lemma freeze_step_evolves font tag status out :
  tags font = tags font0 ->
  evolves font
    (font_of (freeze_step moving_rules fdict calt_feats tag status font out)).
Proof.
  intros Ht. unfold freeze_step.
  destruct (fdict !! tag) as [t|] eqn:Hd; [| apply evolves_refl].
  destruct (String.eqb status "ignore"); [apply evolves_refl |].
  destruct (String.eqb status "disable");
    [now apply (set_lookups_clear_evolves font tag t) |].
  destruct (Py.list_in tag moving_rules);
    [now apply (extend_calt_evolves font tag t) |].
  destruct (substitute_lookups_frame (lookups_at font t) font out)
    as (Hfix & Hfr & Hkn).
  now apply frame_evolves.
Qed.

Lemma freeze_loop_evolves config font out :
  tags font = tags font0 ->
  evolves font
    (font_of (freeze_loop moving_rules fdict calt_feats config font out)).
Proof.
  revert font out. induction config as [|[tag status] config IH];
    intros font out Ht; simpl; [apply evolves_refl |].
  pose proof (freeze_step_evolves font tag status out Ht) as Hstep.
  destruct (freeze_step moving_rules fdict calt_feats tag status font out)
    as [[font' out'] c].
  unfold font_of in Hstep. simpl in Hstep.
  destruct c; try exact Hstep.
  eapply evolves_trans; [exact Hstep |]. apply IH.
  destruct Hstep as (_ & Htags & _). congruence.
Qed.

Lemma freeze_loop_app pre post font out :
  freeze_loop moving_rules fdict calt_feats (pre ++ post) font out =
  let r := freeze_loop moving_rules fdict calt_feats pre font out in
  match control_of r with
  | Next =>
      freeze_loop moving_rules fdict calt_feats post (font_of r) (output_of r)
  | _ => r
  end.
Proof.
  revert font out. induction pre as [|[tag status] pre IH]; intros font out;
    simpl; [reflexivity |].
  destruct (freeze_step moving_rules fdict calt_feats tag status font out)
    as [[font' out'] c].
  destruct c; [apply IH | reflexivity | reflexivity].
Qed.

(** The exact effect of one pass through the loop body on the lookup
    indices of every feature. *)
Lemma freeze_step_lookups font tag status out i :
  tags font = tags font0 ->
  lookups_at
    (font_of (freeze_step moving_rules fdict calt_feats tag status font out))
    i =
  match fdict !! tag with
  | None => lookups_at font i
  | Some t =>
      if String.eqb status "ignore" then lookups_at font i
      else if String.eqb status "disable"
      then (if decide (t = i) then [] else lookups_at font i)
      else if Py.list_in tag moving_rules
      then (if decide (i ∈ calt_feats)
            then lookups_at font i ++ lookups_at font t
            else lookups_at font i)
      else lookups_at font i
  end.
Proof.
  intros Ht. unfold freeze_step.
  destruct (fdict !! tag) as [t|] eqn:Hd; [| reflexivity].
  destruct (fdict_target font tag t Ht Hd) as (_ & _ & Htc & Hlen).
  destruct (String.eqb status "ignore"); [reflexivity |].
  destruct (String.eqb status "disable").
  { unfold font_of. simpl. rewrite lookups_at_set_lookups.
    destruct (decide (t = i)); [| reflexivity].
    now rewrite decide_True by exact Hlen. }
  destruct (Py.list_in tag moving_rules).
  { unfold font_of. simpl.
    apply (extend_calt_lookups calt_feats t font
             (NoDup_calt_features_from 0 _) Htc
             (fun c Hc => calt_feats_bounded font c Ht Hc)). }
  destruct (substitute_lookups_frame (lookups_at font t) font out)
    as (_ & Hfr & _).
  now apply lookups_at_ext.
Qed.

(** Outside the substitution branch the step prints nothing, falls through
    and leaves the stores alone. *)
Lemma freeze_step_quiet font tag status out :
  (fdict !! tag = None \/ enabling status = false \/
   Py.list_in tag moving_rules = true) ->
  let r := freeze_step moving_rules fdict calt_feats tag status font out in
  control_of r = Next /\ output_of r = out /\
  same_stores font (font_of r) /\ same_fixed_tables font (font_of r).
Proof.
  intros H. unfold freeze_step, enabling in *.
  destruct (fdict !! tag) as [t|]; [| now repeat split].
  destruct (String.eqb status "ignore"); [now repeat split |].
  destruct (String.eqb status "disable"); [now repeat split |].
  destruct (Py.list_in tag moving_rules).
  - destruct (extend_calt_frame calt_feats t font) as (Hfix & Hst & _).
    cbv zeta. split; [reflexivity |]. split; [reflexivity |].
    split; [exact Hst | exact Hfix].
  - destruct H as [H | [H | H]]; discriminate.
Qed.

(** A step for a tag that the font does not bind, or with status "ignore",
    does nothing. *)
Lemma freeze_step_skip font tag status out :
  fdict !! tag = None \/ status = "ignore" ->
  freeze_step moving_rules fdict calt_feats tag status font out =
  (font, out, Next).
Proof.
  intros [H | ->]; unfold freeze_step.
  - now rewrite H.
  - now destruct (fdict !! tag).
Qed.

Lemma freeze_loop_snoc pre tag status font out :
  control_of (freeze_loop moving_rules fdict calt_feats pre font out) = Next ->
  freeze_loop moving_rules fdict calt_feats (pre ++ [(tag, status)]) font out =
  freeze_step moving_rules fdict calt_feats tag status
    (font_of (freeze_loop moving_rules fdict calt_feats pre font out))
    (output_of (freeze_loop moving_rules fdict calt_feats pre font out)).
Proof.
  intros Hc. rewrite freeze_loop_app. cbv zeta. rewrite Hc. simpl.
  destruct (freeze_step moving_rules fdict calt_feats tag status _ _)
    as [[font' out'] c].
  now destruct c.
Qed.

Lemma freeze_loop_skip_entry pre tag status post font out :
  fdict !! tag = None \/ status = "ignore" ->
  freeze_loop moving_rules fdict calt_feats (pre ++ (tag, status) :: post)
    font out =
  freeze_loop moving_rules fdict calt_feats (pre ++ post) font out.
Proof.
  intros H. rewrite !freeze_loop_app. cbv zeta.
  destruct (control_of
              (freeze_loop moving_rules fdict calt_feats pre font out));
    try reflexivity.
  simpl. now rewrite freeze_step_skip.
Qed.

(** A feature whose tag is not a key of the policy, calt apart, keeps its
    lookup indices. *)
Lemma freeze_loop_untouched config font out i tg :
  tags font = tags font0 ->
  tags font !! i = Some tg -> tg <> "calt" -> tg ∉ config.*1 ->
  lookups_at
    (font_of (freeze_loop moving_rules fdict calt_feats config font out)) i =
  lookups_at font i.
Proof.
  revert font out. induction config as [|[tag status] config IH];
    intros font out Ht Hi Hne Hkeys; simpl; [reflexivity |].
  simpl in Hkeys. apply not_elem_of_cons in Hkeys as [Htag Hkeys].
  pose proof (freeze_step_lookups font tag status out i Ht) as Hstep.
  pose proof (freeze_step_evolves font tag status out Ht) as (_ & Htags & _).
  destruct (freeze_step moving_rules fdict calt_feats tag status font out)
    as [[font' out'] c].
  unfold font_of in Hstep, Htags. simpl in Hstep, Htags.
  assert (lookups_at font' i = lookups_at font i) as Hsame.
  { rewrite Hstep. destruct (fdict !! tag) as [t|] eqn:Hd; [| reflexivity].
    destruct (fdict_target font tag t Ht Hd) as (_ & Htt & _).
    destruct (String.eqb status "ignore"); [reflexivity |].
    destruct (String.eqb status "disable").
    - destruct (decide (t = i)) as [-> | _]; [| reflexivity]. congruence.
    - destruct (Py.list_in tag moving_rules); [| reflexivity].
      rewrite decide_False; [reflexivity |].
      rewrite (calt_feats_tag font i Ht). congruence. }
  destruct c; try exact Hsame.
  rewrite IH; [exact Hsame | congruence | congruence | exact Hne | exact Hkeys].
Qed.

(** Without an enabled moving tag that the font binds, the calt features
    keep their lookup indices. *)
Lemma freeze_loop_calt_fixed config font out i :
  tags font = tags font0 ->
  (forall tag status, (tag, status) ∈ config -> enabling status = true ->
     Py.list_in tag moving_rules = true -> fdict !! tag = None) ->
  tags font !! i = Some "calt" ->
  lookups_at
    (font_of (freeze_loop moving_rules fdict calt_feats config font out)) i =
  lookups_at font i.
Proof.
  revert font out. induction config as [|[tag status] config IH];
    intros font out Ht Hmov Hi; simpl; [reflexivity |].
  pose proof (freeze_step_lookups font tag status out i Ht) as Hstep.
  pose proof (freeze_step_evolves font tag status out Ht) as (_ & Htags & _).
  destruct (freeze_step moving_rules fdict calt_feats tag status font out)
    as [[font' out'] c].
  unfold font_of in Hstep, Htags. simpl in Hstep, Htags.
  assert (lookups_at font' i = lookups_at font i) as Hsame.
  { rewrite Hstep. destruct (fdict !! tag) as [t|] eqn:Hd; [| reflexivity].
    destruct (fdict_target font tag t Ht Hd) as (Hnc & Htt & _).
    specialize (Hmov tag status (list_elem_of_here _ _)).
    unfold enabling in Hmov.
    destruct (String.eqb status "ignore"); [reflexivity |].
    destruct (String.eqb status "disable").
    - destruct (decide (t = i)) as [-> | _]; [| reflexivity]. congruence.
    - destruct (Py.list_in tag moving_rules); [| reflexivity].
      specialize (Hmov eq_refl eq_refl). congruence. }
  destruct c; try exact Hsame.
  rewrite IH; [exact Hsame | congruence | | congruence].
  intros tag' status' Hin. apply Hmov. now right.
Qed.

End FreezeRun.

Lemma freeze_feature_evolves font moving_rules config out :
  evolves font (font_of (freeze_feature font moving_rules config out)).
Proof. unfold freeze_feature. now apply freeze_loop_evolves. Qed.

(** ** Feature freezing: the claims *)

(** C10: an entry of the policy for the tag "calt" does nothing, whatever
    its status; a run only ever appends to the lookup indices of a calt
    feature, and leaves them as they are when the policy enables no moving
    tag that the font binds. *)
Theorem calt_not_processable (font : TTFont) (moving_rules : list string)
    (config : list (string * string)) (out : list string) :
  (forall pre post status,
     freeze_feature font moving_rules (pre ++ ("calt", status) :: post) out =
     freeze_feature font moving_rules (pre ++ post) out) /\
  (forall i, tags font !! i = Some "calt" ->
     exists extra,
       lookups_at (font_of (freeze_feature font moving_rules config out)) i =
       lookups_at font i ++ extra) /\
  ((forall tag status, (tag, status) ∈ config -> enabling status = true ->
      Py.list_in tag moving_rules = true ->
      feature_dict (FeatureRecords font) !! tag = None) ->
   forall i, tags font !! i = Some "calt" ->
     lookups_at (font_of (freeze_feature font moving_rules config out)) i =
     lookups_at font i).
Proof.
  split; [| split].
  - intros pre post status. unfold freeze_feature.
    apply freeze_loop_skip_entry. left. apply feature_dict_calt.
  - intros i Hi.
    destruct (freeze_feature_evolves font moving_rules config out)
      as (_ & _ & _ & Hl).
    now apply (Hl i).
  - intros Hmov i Hi. unfold freeze_feature.
    now apply freeze_loop_calt_fixed.
Qed.

Lemma calt_not_processable_witness :
  lookups_at
    (font_of (freeze_feature cn_font moving_tags
                [("calt", "disable"); ("cv01", "enable")] [])) 0 =
  lookups_at cn_font 0.
Proof.
  apply (proj2 (proj2 (calt_not_processable cn_font moving_tags
                         [("calt", "disable"); ("cv01", "enable")] []))).
  - intros tag status Hin _ Hmov.
    apply elem_of_cons in Hin as [Heq | Hin].
    + inversion Heq; subst. reflexivity.
    + apply list_elem_of_singleton in Hin. inversion Hin; subst.
      discriminate Hmov.
  - reflexivity.
Defined.

Section Reaching.

Variables (font : TTFont) (moving_rules : list string).

Let fdict := feature_dict (FeatureRecords font).
Let calt_feats := calt_features (FeatureRecords font).

(** When the loop reaches an entry, running up to and including it is one
    step from the state left by the entries before it. *)
Lemma freeze_feature_snoc pre tag status out :
  control_of (freeze_feature font moving_rules pre out) = Next ->
  freeze_feature font moving_rules (pre ++ [(tag, status)]) out =
  freeze_step moving_rules fdict calt_feats tag status
    (font_of (freeze_feature font moving_rules pre out))
    (output_of (freeze_feature font moving_rules pre out)).
Proof. apply freeze_loop_snoc. Qed.

Lemma freeze_feature_after pre entry post out :
  freeze_feature font moving_rules (pre ++ entry :: post) out =
  let r := freeze_feature font moving_rules (pre ++ [entry]) out in
  match control_of r with
  | Next =>
      freeze_loop moving_rules fdict calt_feats post (font_of r) (output_of r)
  | _ => r
  end.
Proof.
  unfold freeze_feature. rewrite <- freeze_loop_app.
  now rewrite <- app_assoc.
Qed.

Lemma tags_reached pre out :
  tags (font_of (freeze_feature font moving_rules pre out)) = tags font.
Proof.
  now destruct (freeze_feature_evolves font moving_rules pre out)
    as (_ & Ht & _).
Qed.

End Reaching.

(** C8 (as stated, refuted): the policy disables cv01, but the entry before
    it stops the run at a missing glyph, and cv01 keeps its lookup index. *)
Lemma disable_skipped_after_stop :
  let policy := [("cv98", "enable"); ("cv01", "disable")] in
  let r := freeze cn_font_incomplete policy [] in
  control_of r = Return /\
  feature_dict (FeatureRecords cn_font_incomplete) !! "cv01" = Some 3 /\
  lookups_at (font_of r) 3 = [3].
Proof. vm_compute. repeat split. Qed.

(** C8 (amended): a "disable" entry that the loop reaches (no earlier entry
    has stopped the run) empties the lookup indices of the feature bound to
    its tag and nothing else, the tags of the feature list stay, and the
    indices stay empty to the end of the run;
    an "ignore" entry and an entry whose tag the font does not carry can be
    struck from the policy without any difference; a feature whose tag the
    policy does not name keeps its indices; and under a policy of "ignore"
    entries only the run returns the font as it was. *)
Theorem disable_clears_ignore_keeps (font : TTFont)
    (moving_rules : list string) (out : list string) :
  (forall pre tag t post,
     control_of (freeze_feature font moving_rules pre out) = Next ->
     feature_dict (FeatureRecords font) !! tag = Some t ->
     let before := freeze_feature font moving_rules pre out in
     let after :=
       freeze_feature font moving_rules (pre ++ [(tag, "disable")]) out in
     control_of after = Next /\ output_of after = output_of before /\
     lookups_at (font_of after) t = [] /\
     tags (font_of after) = tags font /\ tags font !! t = Some tag /\
     (forall i, i <> t ->
        lookups_at (font_of after) i = lookups_at (font_of before) i) /\
     same_stores (font_of before) (font_of after) /\
     same_fixed_tables (font_of before) (font_of after) /\
     lookups_at
       (font_of (freeze_feature font moving_rules
                   (pre ++ (tag, "disable") :: post) out)) t = []) /\
  (forall pre tag status post,
     status = "ignore" \/ tag ∉ tags font ->
     freeze_feature font moving_rules (pre ++ (tag, status) :: post) out =
     freeze_feature font moving_rules (pre ++ post) out) /\
  (forall config i tg,
     tags font !! i = Some tg -> tg <> "calt" -> tg ∉ config.*1 ->
     lookups_at (font_of (freeze_feature font moving_rules config out)) i =
     lookups_at font i) /\
  (forall config,
     Forall (fun entry => entry.2 = "ignore") config ->
     freeze_feature font moving_rules config out = (font, out, Next)).
Proof.
  split; [| split; [| split]].
  - intros pre tag t post Hreach Hd before after.
    pose proof (tags_reached font moving_rules pre out) as Ht.
    pose proof (freeze_feature_snoc font moving_rules pre tag "disable" out
                  Hreach) as Hsnoc.
    pose proof (fun i => freeze_step_lookups moving_rules font
                  (font_of (freeze_feature font moving_rules pre out))
                  tag "disable"
                  (output_of (freeze_feature font moving_rules pre out))
                  i Ht) as Hlk.
    rewrite <- Hsnoc in Hlk. rewrite Hd in Hlk. simpl in Hlk.
    assert (after =
            (set_lookups t [] (font_of before), output_of before, Next))
      as Hafter.
    { unfold after. rewrite Hsnoc. unfold freeze_step. now rewrite Hd. }
    fold before in Ht. fold after in Hlk. fold before in Hlk.
    destruct (fdict_target font (font_of before) tag t Ht Hd)
      as (Hnc & Htt & _ & _).
    assert (lookups_at (font_of after) t = []) as Hempty.
    { rewrite Hlk. now rewrite decide_True. }
    assert (tags (font_of after) = tags font) as Hta
      by (unfold after; apply tags_reached).
    split; [now rewrite Hafter |]. split; [now rewrite Hafter |].
    split; [exact Hempty |].
    split; [exact Hta |].
    split; [now rewrite <- Ht |].
    split.
    { intros i Hi. rewrite Hlk. now rewrite decide_False. }
    split; [rewrite Hafter; now split |].
    split; [rewrite Hafter; repeat split |].
    rewrite freeze_feature_after. fold after. cbv zeta.
    replace (control_of after) with Next by now rewrite Hafter.
    destruct (freeze_loop_evolves moving_rules font post (font_of after)
                (output_of after) Hta) as (_ & _ & _ & Hl).
    destruct (Hl t) as [_ Hn].
    destruct Hn as [He | He].
    + rewrite Hta, <- Ht, Htt. congruence.
    + now rewrite He.
    + exact He.
  - intros pre tag status post H. unfold freeze_feature.
    apply freeze_loop_skip_entry. destruct H as [-> | H]; [now right |].
    left. now apply feature_dict_absent.
  - intros config i tg Hi Hnc Hkeys. unfold freeze_feature.
    now apply (freeze_loop_untouched moving_rules font config font out i tg).
  - intros config Hall. unfold freeze_feature.
    induction Hall as [|[tag status] config Hst Hall IH]; [reflexivity |].
    simpl in Hst. subst status. simpl.
    now rewrite freeze_step_skip by (now right).
Qed.

Lemma disable_clears_ignore_keeps_witness :
  lookups_at
    (font_of (freeze_feature cn_font moving_tags
                ([("cv98", "enable")] ++ [("cv01", "disable")]) [])) 3 = [].
Proof.
  destruct (proj1 (disable_clears_ignore_keeps cn_font moving_tags [])
              [("cv98", "enable")] "cv01" 3 [] eq_refl eq_refl)
    as (_ & _ & H & _).
  exact H.
Defined.

(** An enabling entry for a moving tag that the loop reaches. *)
Lemma moving_step_appends (font : TTFont) (moving_rules : list string)
    (out : list string) (pre : list (string * string)) (tag status : string)
    (t : nat) (post : list (string * string)) :
  control_of (freeze_feature font moving_rules pre out) = Next ->
  enabling status = true ->
  Py.list_in tag moving_rules = true ->
  feature_dict (FeatureRecords font) !! tag = Some t ->
  let before := freeze_feature font moving_rules pre out in
  let after := freeze_feature font moving_rules (pre ++ [(tag, status)]) out in
  let final :=
    freeze_feature font moving_rules (pre ++ (tag, status) :: post) out in
  control_of after = Next /\ output_of after = output_of before /\
  (forall i, tags font !! i = Some "calt" ->
     lookups_at (font_of after) i =
       lookups_at (font_of before) i ++ lookups_at (font_of before) t /\
     exists later,
       lookups_at (font_of final) i =
       lookups_at (font_of before) i ++ lookups_at (font_of before) t
       ++ later) /\
  (forall i, tags font !! i <> Some "calt" ->
     lookups_at (font_of after) i = lookups_at (font_of before) i) /\
  same_stores (font_of before) (font_of after) /\
  same_fixed_tables (font_of before) (font_of after).
Proof.
  intros Hreach Hen Hmov Hd before after final.
  pose proof (tags_reached font moving_rules pre out) as Ht.
  pose proof (freeze_feature_snoc font moving_rules pre tag status out
                Hreach) as Hsnoc.
  pose proof (fun i => freeze_step_lookups moving_rules font
                (font_of (freeze_feature font moving_rules pre out))
                tag status
                (output_of (freeze_feature font moving_rules pre out))
                i Ht) as Hlk.
  pose proof (freeze_step_quiet moving_rules font
                (font_of (freeze_feature font moving_rules pre out))
                tag status
                (output_of (freeze_feature font moving_rules pre out))
                (or_intror (or_intror Hmov))) as Hq.
  cbv zeta in Hq. rewrite <- Hsnoc in Hlk, Hq.
  rewrite Hd, Hmov in Hlk. unfold enabling in Hen.
  destruct (String.eqb status "ignore"); [discriminate |].
  destruct (String.eqb status "disable"); [discriminate |].
  fold after in Hlk, Hq. fold before in Hlk, Hq, Ht.
  destruct Hq as (Hc & Ho & Hst & Hfix).
  assert (tags (font_of after) = tags font) as Hta
    by (unfold after; apply tags_reached).
  split; [exact Hc |]. split; [exact Ho |].
  split; [| split; [| split; [exact Hst | exact Hfix]]].
  - intros i Hi.
    assert (lookups_at (font_of after) i =
            lookups_at (font_of before) i ++ lookups_at (font_of before) t)
      as Hafter.
    { rewrite Hlk. rewrite decide_True; [reflexivity |].
      apply (calt_feats_tag font font i eq_refl). exact Hi. }
    split; [exact Hafter |].
    unfold final. rewrite freeze_feature_after. fold after. cbv zeta.
    rewrite Hc.
    destruct (freeze_loop_evolves moving_rules font post (font_of after)
                (output_of after) Hta) as (_ & _ & _ & Hl).
    destruct (Hl i) as [Hcalt _].
    rewrite Hta in Hcalt. destruct (Hcalt Hi) as [later Hlater].
    exists later. now rewrite Hlater, Hafter, app_assoc.
  - intros i Hi. rewrite Hlk. rewrite decide_False; [reflexivity |].
    rewrite (calt_feats_tag font font i eq_refl). exact Hi.
Qed.

(** C7 (as stated, refuted): the policy enables the moving tag ss03, but
    the entry before it stops the run at a missing glyph, and nothing is
    appended to calt. *)
Lemma moving_feature_skipped_after_stop :
  let policy := [("cv98", "enable"); ("ss03", "enable")] in
  let r := freeze cn_font_incomplete policy [] in
  control_of r = Return /\
  Py.list_in "ss03" moving_tags = true /\
  feature_dict (FeatureRecords cn_font_incomplete) !! "ss03" = Some 1 /\
  lookups_at cn_font_incomplete 1 = [1] /\
  lookups_at cn_font_incomplete 0 = [0] /\
  lookups_at (font_of r) 0 = [0].
Proof. vm_compute. repeat split. Qed.

(** C7 (amended): when the loop of [freeze] reaches the entry that enables
    one of ss03, ss05, ss07 (no earlier entry has stopped the run), the
    lookup indices of that feature are appended to those of every calt
    feature, after the indices already there and in the same order; nothing
    else changes, and what later entries append comes after them. *)
Theorem moving_feature_appended_to_calt (font : TTFont) (out : list string)
    (pre : list (string * string)) (tag : string) (t : nat)
    (post : list (string * string)) :
  tag ∈ ["ss03"; "ss05"; "ss07"] ->
  control_of (freeze font pre out) = Next ->
  feature_dict (FeatureRecords font) !! tag = Some t ->
  let before := freeze font pre out in
  let after := freeze font (pre ++ [(tag, "enable")]) out in
  let final := freeze font (pre ++ (tag, "enable") :: post) out in
  control_of after = Next /\ output_of after = output_of before /\
  (forall i, tags font !! i = Some "calt" ->
     lookups_at (font_of after) i =
       lookups_at (font_of before) i ++ lookups_at (font_of before) t /\
     exists later,
       lookups_at (font_of final) i =
       lookups_at (font_of before) i ++ lookups_at (font_of before) t
       ++ later) /\
  (forall i, tags font !! i <> Some "calt" ->
     lookups_at (font_of after) i = lookups_at (font_of before) i) /\
  same_stores (font_of before) (font_of after) /\
  same_fixed_tables (font_of before) (font_of after).
Proof.
  intros Htag Hreach Hd. unfold freeze.
  apply moving_step_appends; try assumption; [reflexivity |].
  apply list_in_spec. exact Htag.
Qed.

Lemma moving_feature_appended_to_calt_witness :
  lookups_at
    (font_of (freeze cn_font ([("cv01", "enable")] ++ [("ss03", "enable")])
                [])) 0 = [0; 1].
Proof.
  assert ("ss03" ∈ ["ss03"; "ss05"; "ss07"]) as Hin
    by apply list_elem_of_here.
  destruct (moving_feature_appended_to_calt cn_font []
              [("cv01", "enable")] "ss03" 1 [] Hin eq_refl eq_refl)
    as (_ & _ & H & _).
  destruct (H 0 eq_refl) as [Hafter _].
  exact Hafter.
Defined.

Lemma assign_glyph_other (font : TTFont) (pair : string * string)
    (k : string) :
  k <> pair.1 ->
  glyphs (assign_glyph font pair) !! k = glyphs font !! k /\
  metrics (assign_glyph font pair) !! k = metrics font !! k.
Proof.
  intros Hne. unfold assign_glyph.
  destruct (glyphs font !! pair.2), (metrics font !! pair.2); simpl;
    try (split; reflexivity).
  split; now rewrite lookup_insert_ne.
Qed.

Lemma foldl_assign_other (pairs : list (string * string)) (font : TTFont)
    (k : string) :
  k ∉ pairs.*1 ->
  glyphs (foldl assign_glyph font pairs) !! k = glyphs font !! k /\
  metrics (foldl assign_glyph font pairs) !! k = metrics font !! k.
Proof.
  revert font. induction pairs as [|p pairs IH]; intros font Hk; simpl.
  - split; reflexivity.
  - simpl in Hk. apply not_elem_of_cons in Hk as [Hne Hk].
    destruct (IH (assign_glyph font p) Hk) as [Hg Hm].
    destruct (assign_glyph_other font p k Hne) as [Hg0 Hm0].
    split; congruence.
Qed.

(** C1 (as stated, refuted): the mapping of cv98 names the missing glyph
    "ellipsis.cv98" in its second pair.  The first pair has been applied
    when the run stops, and the entry that disables cv01 is never
    processed. *)
Lemma missing_glyph_partial_and_global :
  let policy := [("cv98", "enable"); ("cv01", "disable")] in
  let r := freeze cn_font_incomplete policy [] in
  control_of r = Return /\
  output_of r = ["ellipsis or ellipsis.cv98 does not exist"] /\
  glyphs cn_font_incomplete !! "emdash" = Some 0 /\
  glyphs (font_of r) !! "emdash" = Some 1 /\
  metrics (font_of r) !! "emdash" = Some (1200, 50)%Z /\
  lookups_at (font_of r) 3 = [3] /\
  lookups_at (font_of (freeze cn_font_incomplete [("cv01", "disable")] []))
    3 = [].
Proof. vm_compute. repeat split. Qed.

(** C1 (amended): when the loop reaches an enabled direct-substitution
    feature and a pair of its mappings has a name missing from a store, the
    pairs before that one have been applied, the message naming the pair is
    printed, and the whole run returns there: neither the rest of the
    feature nor the rest of the policy is processed.  The feature list and
    the bindings of all names but the sources of the applied pairs are as
    the earlier entries left them. *)
Theorem missing_glyph_stops_freeze (font : TTFont)
    (moving_rules : list string) (out : list string)
    (pre : list (string * string)) (tag status : string) (t : nat)
    (post : list (string * string))
    (done : list (string * string)) (o n : string)
    (rest : list (string * string)) (c : control) :
  control_of (freeze_feature font moving_rules pre out) = Next ->
  enabling status = true ->
  Py.list_in tag moving_rules = false ->
  feature_dict (FeatureRecords font) !! tag = Some t ->
  let before := freeze_feature font moving_rules pre out in
  resolved_pairs (Lookups font) (lookups_at (font_of before) t) =
    (done ++ (o, n) :: rest, c) ->
  Forall (fun p => both_known font p.1 p.2 = true) done ->
  both_known font o n = false ->
  let stopped := foldl assign_glyph (font_of before) done in
  freeze_feature font moving_rules (pre ++ (tag, status) :: post) out =
    (stopped, output_of before ++ [missing_message o n], Return) /\
  FeatureRecords stopped = FeatureRecords (font_of before) /\
  same_fixed_tables (font_of before) stopped /\
  (forall k, k ∉ done.*1 ->
     glyphs stopped !! k = glyphs (font_of before) !! k /\
     metrics stopped !! k = metrics (font_of before) !! k).
Proof.
  intros Hreach Hen Hmov Hd before Hres Hdone Hmiss stopped.
  destruct (freeze_feature_evolves font moving_rules pre out)
    as ((Hlk & _) & _ & Hkn & _).
  fold before in Hlk, Hkn.
  destruct (foldl_assign_frame done (font_of before)) as [Hfix Hfr].
  split; [| split; [exact Hfr | split; [exact Hfix |]]].
  - rewrite freeze_feature_after. cbv zeta.
    rewrite (freeze_feature_snoc font moving_rules pre tag status out Hreach).
    fold before. unfold freeze_step. rewrite Hd, Hmov.
    unfold enabling in Hen.
    destruct (String.eqb status "ignore"); [discriminate |].
    destruct (String.eqb status "disable"); [discriminate |].
    rewrite substitute_lookups_eval, Hlk, Hres, substitute_pairs_eval.
    rewrite (known_prefix_ext font (font_of before)) by exact Hkn.
    rewrite (known_prefix_stop font done o n rest Hdone Hmiss).
    reflexivity.
  - intros k Hk. now apply foldl_assign_other.
Qed.

Lemma missing_glyph_stops_freeze_witness :
  freeze_feature cn_font_incomplete moving_tags
    ([] ++ ("cv98", "enable") :: [("cv01", "disable")]) [] =
  (foldl assign_glyph cn_font_incomplete [("emdash", "emdash.cv98")],
   [] ++ [missing_message "ellipsis" "ellipsis.cv98"], Return).
Proof.
  assert (Forall (fun p => both_known cn_font_incomplete p.1 p.2 = true)
            [("emdash", "emdash.cv98")]) as Hdone
    by (constructor; [reflexivity | constructor]).
  destruct (missing_glyph_stops_freeze cn_font_incomplete moving_tags []
              [] "cv98" "enable" 2 [("cv01", "disable")]
              [("emdash", "emdash.cv98")] "ellipsis" "ellipsis.cv98" []
              Next eq_refl eq_refl eq_refl eq_refl eq_refl Hdone eq_refl)
    as [H _].
  exact H.
Defined.

(** ** Applying freeze twice *)

Section Edits.

Implicit Types (font : TTFont) (e : edit) (es : list edit).

Lemma set_lookups_twice font t l :
  set_lookups t l (set_lookups t l font) = set_lookups t l font.
Proof.
  unfold set_lookups, with_FeatureRecords. simpl. f_equal.
  rewrite list_alter_alter_eq. now apply list_alter_ext.
Qed.

Lemma set_lookups_commute font t t' l l' :
  t <> t' ->
  set_lookups t l (set_lookups t' l' font) =
  set_lookups t' l' (set_lookups t l font).
Proof.
  intros Hne. unfold set_lookups, with_FeatureRecords. simpl. f_equal.
  now apply list_alter_alter_ne.
Qed.

Lemma apply_edit_same font e e' :
  same_target e e' = true ->
  apply_edit (apply_edit font e') e = apply_edit font e.
Proof.
  destruct e as [t | o g m], e' as [t' | o' g' m']; simpl; try discriminate;
    intros H; apply bool_decide_eq_true in H; subst.
  - apply set_lookups_twice.
  - unfold with_stores. simpl. now rewrite !insert_insert_eq.
Qed.

Lemma apply_edit_commute font e e' :
  same_target e e' = false ->
  apply_edit (apply_edit font e') e = apply_edit (apply_edit font e) e'.
Proof.
  destruct e as [t | o g m], e' as [t' | o' g' m']; simpl; try reflexivity;
    intros H; apply bool_decide_eq_false in H.
  - now apply set_lookups_commute.
  - unfold with_stores. simpl. f_equal; now apply insert_insert_ne.
Qed.

Lemma same_target_refl e : same_target e e = true.
Proof. destruct e; simpl; now apply bool_decide_eq_true. Qed.

Lemma foldl_edit_overwritten es font e :
  existsb (same_target e) es = true ->
  foldl apply_edit (apply_edit font e) es = foldl apply_edit font es.
Proof.
  revert font. induction es as [|e' es IH]; intros font H; simpl in *;
    [discriminate |].
  destruct (same_target e e') eqn:Hs.
  - assert (same_target e' e = true) as Hs'
      by (destruct e, e'; simpl in *; try discriminate;
          apply bool_decide_eq_true in Hs; subst;
          now apply bool_decide_eq_true).
    now rewrite apply_edit_same.
  - simpl in H. rewrite <- apply_edit_commute; [now apply IH |].
    destruct e, e'; simpl in *; try reflexivity;
      apply bool_decide_eq_false in Hs; apply bool_decide_eq_false;
      congruence.
Qed.

Lemma foldl_edit_passes es font e :
  existsb (same_target e) es = false ->
  foldl apply_edit (apply_edit font e) es =
  apply_edit (foldl apply_edit font es) e.
Proof.
  revert font. induction es as [|e' es IH]; intros font H; simpl in *;
    [reflexivity |].
  apply orb_false_iff in H as [Hs H].
  rewrite <- apply_edit_commute.
  - now apply IH.
  - destruct e, e'; simpl in *; try reflexivity;
      apply bool_decide_eq_false in Hs; apply bool_decide_eq_false;
      congruence.
Qed.

(** Edits that store fixed values can be replayed without effect. *)
Lemma foldl_edit_idempotent es font :
  foldl apply_edit (foldl apply_edit font es) es = foldl apply_edit font es.
Proof.
  revert font. induction es as [|e es IH]; intros font; simpl;
    [reflexivity |].
  destruct (existsb (same_target e) es) eqn:Hex.
  - rewrite foldl_edit_overwritten by exact Hex. apply IH.
  - rewrite (foldl_edit_passes es font e Hex).
    rewrite (apply_edit_same _ e e (same_target_refl e)).
    rewrite <- (foldl_edit_passes es font e Hex). apply IH.
Qed.

End Edits.

Section RunAsPlan.

Variables (moving_rules : list string) (font0 : TTFont) (T : string -> Prop).

Let fdict := feature_dict (FeatureRecords font0).
Let calt_feats := calt_features (FeatureRecords font0).

Implicit Types (s : TTFont) (out : list string).

Lemma has_key_Some {V : Type} (d : gmap string V) k :
  has_key d k = true -> exists v, d !! k = Some v.
Proof. unfold has_key. destruct (d !! k) as [v|]; [eauto | discriminate]. Qed.

Lemma both_known_target font o n :
  both_known font o n = true ->
  exists g m, glyphs font !! n = Some g /\ metrics font !! n = Some m.
Proof.
  unfold both_known. intros H.
  apply andb_true_iff in H as [H H4]. apply andb_true_iff in H as [_ H3].
  destruct (has_key_Some _ _ H3) as [g Hg].
  destruct (has_key_Some _ _ H4) as [m Hm]. eauto.
Qed.

(** Applying known pairs whose targets are in [T] and whose sources are
    not is replaying their bindings. *)
Lemma foldl_assign_binds done s :
  replayable font0 T s ->
  Forall (fun p => both_known font0 p.1 p.2 = true) done ->
  (forall p, p ∈ done -> T p.2 /\ ~ T p.1) ->
  foldl assign_glyph s done = foldl apply_edit s (map (bind_of font0) done) /\
  replayable font0 T (foldl assign_glyph s done).
Proof.
  revert s. induction done as [|[o n] done IH]; intros s Hs Hknown HT.
  - split; [reflexivity | exact Hs].
  - apply Forall_cons in Hknown as [Hon Hknown]. simpl in Hon.
    destruct (HT (o, n) (list_elem_of_here _ _)) as [HTn HTo].
    simpl in HTn, HTo.
    destruct Hs as (Htags & Hlk & Hkn & Hbind).
    destruct (both_known_target font0 o n Hon) as (g & m & Hg & Hm).
    destruct (Hbind n HTn) as [Hsg Hsm].
    assert (assign_glyph s (o, n) = apply_edit s (bind_of font0 (o, n)))
      as Hstep.
    { unfold assign_glyph, bind_of. simpl.
      now rewrite Hsg, Hsm, Hg, Hm. }
    assert (replayable font0 T (assign_glyph s (o, n))) as Hs1.
    { destruct (assign_glyph_frame s (o, n)) as [(Hl1 & _) Hfr].
      split; [unfold tags; now rewrite Hfr |].
      split; [congruence |].
      split.
      - intros a b. rewrite both_known_assign; [apply Hkn |].
        now rewrite Hkn.
      - intros k Hk. assert (k <> o) as Hne by (intros ->; contradiction).
        destruct (assign_glyph_other s (o, n) k Hne) as [Hg1 Hm1].
        destruct (Hbind k Hk) as [Hg2 Hm2]. split; congruence. }
    change (foldl assign_glyph s ((o, n) :: done))
      with (foldl assign_glyph (assign_glyph s (o, n)) done).
    change (foldl apply_edit s (map (bind_of font0) ((o, n) :: done)))
      with (foldl apply_edit (apply_edit s (bind_of font0 (o, n)))
              (map (bind_of font0) done)).
    rewrite <- Hstep.
    apply IH; [exact Hs1 | exact Hknown |].
    intros p Hp. apply HT. now right.
Qed.

(** The substitution branch of the loop body, replayed. *)
Lemma substitute_lookups_plan s t out ps c done stop :
  replayable font0 T s ->
  lookups_at s t = lookups_at font0 t ->
  resolved_pairs (Lookups font0) (lookups_at font0 t) = (ps, c) ->
  known_prefix font0 ps = (done, stop) ->
  (forall p, p ∈ ps -> T p.2 /\ ~ T p.1) ->
  let r := substitute_lookups (lookups_at s t) s out in
  font_of r = foldl apply_edit s (map (bind_of font0) done) /\
  control_of r =
    match stop, c with
    | Some _, _ => Return
    | None, c => c
    end /\
  replayable font0 T (font_of r) /\
  FeatureRecords (font_of r) = FeatureRecords s.
Proof.
  intros Hs Hlist Hres Hpre HT r. subst r.
  destruct (substitute_lookups_frame (lookups_at s t) s out) as (_ & Hfr & _).
  pose proof Hs as (Htags & Hlk & Hkn & Hbind).
  destruct (known_prefix_split font0 ps done stop Hpre) as [Hknown Hstop].
  assert (forall p, p ∈ done -> T p.2 /\ ~ T p.1) as HTdone.
  { intros p Hp. apply HT. destruct stop as [[o n]|].
    - destruct Hstop as [_ [rest ->]]. apply elem_of_app. now left.
    - now subst ps. }
  destruct (foldl_assign_binds done s Hs Hknown HTdone) as [Hfold Hrep].
  rewrite substitute_lookups_eval, Hlist, Hlk, Hres, substitute_pairs_eval.
  rewrite (known_prefix_ext font0 s ps Hkn), Hpre.
  split; [| split; [| split]].
  - destruct stop as [[o n]|]; exact Hfold.
  - now destruct stop as [[o n]|].
  - destruct stop as [[o n]|]; exact Hrep.
  - rewrite substitute_lookups_eval, Hlist, Hlk, Hres, substitute_pairs_eval
      in Hfr.
    rewrite (known_prefix_ext font0 s ps Hkn), Hpre in Hfr.
    destruct stop as [[o n]|]; exact Hfr.
Qed.

Lemma replayable_set_lookups s t l :
  replayable font0 T s -> replayable font0 T (set_lookups t l s).
Proof.
  intros (Htags & Hlk & Hkn & Hbind).
  split; [now rewrite tags_set_lookups |].
  split; [exact Hlk |]. split; [exact Hkn | exact Hbind].
Qed.

(** Two tags bound by the dictionary to one feature are the same tag. *)
Lemma fdict_injective tag tag' t :
  fdict !! tag = Some t -> fdict !! tag' = Some t -> tag = tag'.
Proof.
  intros H H'.
  destruct (fdict_target font0 font0 tag t eq_refl H) as (_ & Ht & _).
  destruct (fdict_target font0 font0 tag' t eq_refl H') as (_ & Ht' & _).
  congruence.
Qed.

(** A run from a replayable state is the replay of the plan. *)
Lemma freeze_loop_plan config s out :
  NoDup config.*1 ->
  Forall (reads_only moving_rules font0 T) config ->
  replayable font0 T s ->
  (forall tag status t, (tag, status) ∈ config -> fdict !! tag = Some t ->
     enabling status = true -> lookups_at s t = lookups_at font0 t) ->
  font_of (freeze_loop moving_rules fdict calt_feats config s out) =
  foldl apply_edit s (plan moving_rules font0 config).
Proof.
  revert s out. induction config as [|[tag status] config IH];
    intros s out Hnd Hok Hs Hlive; [reflexivity |].
  simpl in Hnd. apply NoDup_cons in Hnd as [Hfresh Hnd].
  apply Forall_cons in Hok as [Hentry Hok].
  assert (forall s' out',
            replayable font0 T s' ->
            (forall t, lookups_at s' t = lookups_at s t \/
                       (fdict !! tag = Some t)) ->
            font_of (freeze_loop moving_rules fdict calt_feats config s' out')
            = foldl apply_edit s' (plan moving_rules font0 config)) as Hrest.
  { intros s' out' Hs' Hsame. apply IH; try assumption.
    intros tag' status' t' Hin Hd' Hen'.
    destruct (Hsame t') as [-> | Hd].
    - apply (Hlive tag' status' t'); [now right | exact Hd' | exact Hen'].
    - exfalso. apply Hfresh.
      rewrite (fdict_injective tag tag' t' Hd Hd').
      apply list_elem_of_fmap. exists (tag', status'). now split. }
  cbn [freeze_loop plan]. unfold freeze_step. fold fdict.
  destruct (fdict !! tag) as [t|] eqn:Hd.
  2:{ apply Hrest; [exact Hs | now left]. }
  unfold reads_only in Hentry. simpl in Hentry. fold fdict in Hentry.
  specialize (Hentry t Hd). unfold enabling in Hentry.
  specialize (Hlive tag status t (list_elem_of_here _ _) Hd).
  unfold enabling in Hlive.
  destruct (String.eqb status "ignore").
  { apply Hrest; [exact Hs | now left]. }
  destruct (String.eqb status "disable").
  { cbn [foldl apply_edit]. apply Hrest.
    - now apply replayable_set_lookups.
    - intros t'. rewrite lookups_at_set_lookups.
      destruct (decide (t = t')) as [<- | _]; [now right | now left]. }
  destruct (Hentry eq_refl) as [Hmov HT]. rewrite Hmov.
  specialize (Hlive eq_refl).
  destruct (resolved_pairs (Lookups font0) (lookups_at font0 t)) as [ps c]
    eqn:Hres.
  destruct (known_prefix font0 ps) as [done stop] eqn:Hpre.
  destruct (substitute_lookups_plan s t out ps c done stop Hs Hlive Hres Hpre
              HT) as (Hfont & Hctl & Hrep & Hfr).
  destruct (substitute_lookups (lookups_at s t) s out) as [[s' out'] c']
    eqn:Hsub.
  unfold font_of, control_of in Hfont, Hctl, Hrep, Hfr.
  simpl in Hfont, Hctl, Hrep, Hfr. subst c'.
  rewrite foldl_app, <- Hfont.
  destruct stop as [[o n]|]; [reflexivity |].
  destruct c; try reflexivity.
  apply Hrest; [exact Hrep |].
  intros t'. left. now apply lookups_at_ext.
Qed.

(** What the edits of a plan can be. *)
Lemma plan_edits config e :
  Forall (reads_only moving_rules font0 T) config ->
  e ∈ plan moving_rules font0 config ->
  match e with
  | Clear t =>
      exists tag status, (tag, status) ∈ config /\
        fdict !! tag = Some t /\ enabling status = false
  | Bind o _ _ => ~ T o
  end.
Proof.
  intros Hok. induction Hok as [|[tag status] config Hentry Hok IH];
    intros He; [now apply elem_of_nil in He |].
  assert (e ∈ plan moving_rules font0 config ->
          match e with
          | Clear t =>
              exists tag0 status0,
                (tag0, status0) ∈ (tag, status) :: config /\
                fdict !! tag0 = Some t /\ enabling status0 = false
          | Bind o _ _ => ~ T o
          end) as Hrest.
  { intros Hin. specialize (IH Hin). destruct e as [t|o g m]; [| exact IH].
    destruct IH as (tag0 & status0 & Hin0 & H0).
    exists tag0, status0. split; [now right | exact H0]. }
  cbn [plan] in He. fold fdict in He.
  destruct (fdict !! tag) as [t|] eqn:Hd; [| now apply Hrest].
  unfold reads_only in Hentry. simpl in Hentry. fold fdict in Hentry.
  specialize (Hentry t Hd). unfold enabling in Hentry.
  destruct (String.eqb status "ignore") eqn:Hig; [now apply Hrest |].
  destruct (String.eqb status "disable") eqn:Hdis.
  { apply elem_of_cons in He as [-> | He]; [| now apply Hrest].
    exists tag, status. split; [apply list_elem_of_here |].
    split; [exact Hd |]. unfold enabling. rewrite Hig, Hdis. reflexivity. }
  destruct (Hentry eq_refl) as [Hmov HT]. rewrite Hmov in He.
  destruct (resolved_pairs (Lookups font0) (lookups_at font0 t)) as [ps c]
    eqn:Hres.
  destruct (known_prefix font0 ps) as [done stop] eqn:Hpre.
  destruct (known_prefix_split font0 ps done stop Hpre) as [_ Hstop].
  apply elem_of_app in He as [He | He].
  - apply list_elem_of_fmap in He as (p & -> & Hp). simpl.
    apply HT. simpl. destruct stop as [[o n]|].
    + destruct Hstop as [_ [rest ->]]. apply elem_of_app. now left.
    + now subst ps.
  - destruct stop as [[o n]|]; [now apply elem_of_nil in He |].
    destruct c; try (now apply elem_of_nil in He). now apply Hrest.
Qed.

(** Replaying edits leaves untouched what none of them writes. *)
Lemma foldl_edit_frame es s :
  same_fixed_tables s (foldl apply_edit s es) /\
  tags (foldl apply_edit s es) = tags s /\
  (forall t, Clear t ∉ es ->
     lookups_at (foldl apply_edit s es) t = lookups_at s t) /\
  (forall k, (forall g m, Bind k g m ∉ es) ->
     glyphs (foldl apply_edit s es) !! k = glyphs s !! k /\
     metrics (foldl apply_edit s es) !! k = metrics s !! k).
Proof.
  revert s. induction es as [|e es IH]; intros s.
  - repeat split.
  - cbn [foldl]. destruct (IH (apply_edit s e)) as (Hfix & Htags & Hl & Hb).
    split; [| split; [| split]].
    + eapply same_fixed_tables_trans; [| exact Hfix].
      destruct e; repeat split.
    + rewrite Htags. destruct e as [t|o g m]; [apply tags_set_lookups |].
      reflexivity.
    + intros t Ht. apply not_elem_of_cons in Ht as [Hne Ht].
      rewrite Hl by exact Ht. destruct e as [t'|o g m]; [| reflexivity].
      simpl. rewrite lookups_at_set_lookups.
      rewrite decide_False; [reflexivity | congruence].
    + intros k Hk.
      destruct (Hb k) as [Hg Hm].
      { intros g m Hin. apply (Hk g m). now right. }
      rewrite Hg, Hm. destruct e as [t'|o g m]; [now split |].
      simpl. assert (o <> k) as Hne.
      { intros ->. apply (Hk g m). apply list_elem_of_here. }
      split; now rewrite lookup_insert_ne.
Qed.

End RunAsPlan.

Lemma NoDup_keys_same_value {A B : Type} (l : list (A * B)) k v v' :
  NoDup l.*1 -> (k, v) ∈ l -> (k, v') ∈ l -> v = v'.
Proof.
  induction l as [|[k0 v0] l IH]; intros Hnd Hin Hin'.
  - now apply elem_of_nil in Hin.
  - simpl in Hnd. apply NoDup_cons in Hnd as [Hfresh Hnd].
    apply elem_of_cons in Hin as [Heq | Hin];
      apply elem_of_cons in Hin' as [Heq' | Hin'].
    + congruence.
    + inversion Heq; subst. exfalso. apply Hfresh.
      apply list_elem_of_fmap. exists (k0, v'). now split.
    + inversion Heq'; subst. exfalso. apply Hfresh.
      apply list_elem_of_fmap. exists (k0, v). now split.
    + now apply IH.
Qed.

Lemma elem_of_enabled_pairs moving_rules font config tag status t p :
  (tag, status) ∈ config ->
  feature_dict (FeatureRecords font) !! tag = Some t ->
  enabling status = true -> Py.list_in tag moving_rules = false ->
  p ∈ (resolved_pairs (Lookups font) (lookups_at font t)).1 ->
  p ∈ enabled_pairs moving_rules font config.
Proof.
  intros Hin Hd Hen Hmov Hp. unfold enabled_pairs.
  apply list_elem_of_In, in_concat.
  exists ((resolved_pairs (Lookups font) (lookups_at font t)).1).
  split; [| now apply list_elem_of_In].
  apply in_map_iff. exists (tag, status).
  split; [| now apply list_elem_of_In].
  simpl. now rewrite Hd, Hen, Hmov.
Qed.

(** C2 (as stated, refuted): enabling the moving feature ss03 twice leaves
    its lookup index twice in calt. *)
Lemma freeze_twice_differs :
  let policy := [("ss03", "enable")] in
  let once := font_of (freeze cn_font policy []) in
  let twice := font_of (freeze once policy []) in
  lookups_at once 0 = [0; 1] /\
  lookups_at twice 0 = [0; 1; 1] /\
  twice <> once.
Proof.
  cbv zeta. split; [reflexivity |]. split; [reflexivity |].
  intros H.
  assert (lookups_at
            (font_of (freeze (font_of (freeze cn_font [("ss03", "enable")] []))
                        [("ss03", "enable")] [])) 0 =
          lookups_at (font_of (freeze cn_font [("ss03", "enable")] [])) 0)
    as Hl by now rewrite H.
  vm_compute in Hl. discriminate Hl.
Qed.

(** C2 (amended): applying freeze again with the same policy returns the
    same font when the policy enables no moving tag that the font binds and
    no glyph name is both a source and a target in the mappings of the
    features enabled by direct substitution.  (The keys of the policy, a
    dictionary, are distinct.) *)
Theorem freeze_twice_same (font : TTFont) (moving_rules : list string)
    (config : list (string * string)) (out out' : list string) :
  NoDup config.*1 ->
  moves_nothing moving_rules font config ->
  targets_not_sources (enabled_pairs moving_rules font config) ->
  font_of
    (freeze_feature (font_of (freeze_feature font moving_rules config out))
       moving_rules config out') =
  font_of (freeze_feature font moving_rules config out).
Proof.
  intros Hnd Hmoves Hpairs.
  set (T := fun n : string =>
              exists p, p ∈ enabled_pairs moving_rules font config /\
                        p.2 = n).
  assert (Forall (reads_only moving_rules font T) config) as Hok.
  { apply Forall_forall. intros [tag status] Hin t Hd Hen.
    simpl in Hd, Hen.
    assert (Py.list_in tag moving_rules = false) as Hmov.
    { destruct (Py.list_in tag moving_rules) eqn:E; [| reflexivity].
      rewrite (Hmoves tag status Hin Hen E) in Hd. discriminate. }
    split; [exact Hmov |]. intros p Hp.
    pose proof (elem_of_enabled_pairs moving_rules font config tag status t p
                  Hin Hd Hen Hmov Hp) as Hpe.
    split.
    - exists p. now split.
    - intros (q & Hq & Heq). now apply (Hpairs q p Hq Hpe). }
  assert (replayable font T font) as Hrep0 by (now repeat split).
  assert (font_of (freeze_feature font moving_rules config out) =
          foldl apply_edit font (plan moving_rules font config)) as Honce.
  { unfold freeze_feature.
    apply (freeze_loop_plan moving_rules font T); try assumption.
    reflexivity. }
  set (once := font_of (freeze_feature font moving_rules config out)) in *.
  destruct (freeze_feature_evolves font moving_rules config out)
    as ((Hlk & _) & Htags & Hkn & _).
  fold once in Hlk, Htags, Hkn.
  destruct (foldl_edit_frame (plan moving_rules font config) font)
    as (_ & _ & Hclear & Hbind).
  rewrite <- Honce in Hclear, Hbind.
  assert (replayable font T once) as Hrep1.
  { split; [exact Htags |]. split; [exact Hlk |]. split; [exact Hkn |].
    intros n Hn. apply Hbind. intros g m Hin.
    now apply (plan_edits moving_rules font T config _ Hok Hin). }
  unfold freeze_feature at 1.
  assert (map FeatureTag (FeatureRecords once) =
          map FeatureTag (FeatureRecords font)) as Htags' by exact Htags.
  unfold feature_dict, calt_features.
  rewrite (feature_dict_from_tags 0 _ _ ∅ Htags').
  rewrite (calt_features_from_tags 0 _ _ Htags').
  fold (feature_dict (FeatureRecords font)).
  fold (calt_features (FeatureRecords font)).
  rewrite (freeze_loop_plan moving_rules font T config once out'
             Hnd Hok Hrep1).
  - rewrite Honce. apply foldl_edit_idempotent.
  - intros tag status t Hin Hd Hen. apply Hclear. intros Hc.
    destruct (plan_edits moving_rules font T config _ Hok Hc)
      as (tag' & status' & Hin' & Hd' & Hen').
    rewrite (fdict_injective font tag' tag t Hd' Hd) in Hin'.
    rewrite (NoDup_keys_same_value config tag status status' Hnd Hin Hin')
      in Hen.
    congruence.
Qed.

Lemma freeze_twice_same_witness :
  let policy := [("cv01", "enable"); ("cv98", "disable")] in
  font_of (freeze_feature (font_of (freeze_feature cn_font moving_tags
                                      policy []))
             moving_tags policy []) =
  font_of (freeze_feature cn_font moving_tags policy []).
Proof.
  apply freeze_twice_same.
  - apply NoDup_cons. split; [| apply NoDup_singleton].
    intros H. apply list_elem_of_singleton in H. discriminate H.
  - intros tag status Hin _ Hmov.
    apply elem_of_cons in Hin as [Heq | Hin].
    + inversion Heq; subst. discriminate Hmov.
    + apply list_elem_of_singleton in Hin. inversion Hin; subst.
      discriminate Hmov.
  - intros p q Hp Hq.
    change (enabled_pairs moving_tags cn_font
              [("cv01", "enable"); ("cv98", "disable")])
      with [("a", "a.cv01")] in Hp, Hq.
    apply list_elem_of_singleton in Hp, Hq. subst. discriminate.
Defined.

(** ** Width narrowing *)

Section Narrowing.

Variables match_width target_width : Z.

Implicit Types (font : TTFont) (names : list string).

Lemma width_loop_cons n names font a g m :
  glyphs font !! n = Some a ->
  glyph_objects font !! a = Some g ->
  metrics font !! n = Some m ->
  (m.1 = match_width -> numberOfContours g <> 0%Z ->
   has_coordinates g = true) ->
  width_loop (n :: names) match_width target_width font =
  width_loop names match_width target_width
    (narrow_one match_width target_width font n a g m).
Proof.
  intros Ha Hg Hm Hout. cbn [width_loop]. rewrite Ha, Hg, Hm.
  destruct m as [w lsb].
  unfold narrow_one, narrowed_metrics, narrowed_glyph. cbn [fst snd] in *.
  destruct (negb (w =? match_width)%Z) eqn:Hw.
  - f_equal. destruct font. unfold with_metrics, with_stores,
      with_glyph_objects. simpl in *. f_equal; symmetry; now apply insert_id.
  - apply negb_false_iff, Z.eqb_eq in Hw. subst w.
    destruct (numberOfContours g =? 0)%Z eqn:Hc.
    + f_equal. destruct font. unfold with_metrics, with_stores,
        with_glyph_objects. simpl in *. f_equal. symmetry.
      now apply insert_id.
    + apply Z.eqb_neq in Hc. now rewrite (Hout eq_refl Hc).
Qed.

Lemma shift_glyph_contours d g :
  numberOfContours (shift_glyph d g) = numberOfContours g.
Proof. unfold shift_glyph. now destruct (calcIntBounds _) as [[[? ?] ?] ?]. Qed.

Lemma shift_glyph_has_coordinates d g :
  has_coordinates (shift_glyph d g) = has_coordinates g.
Proof. unfold shift_glyph. now destruct (calcIntBounds _) as [[[? ?] ?] ?]. Qed.

Lemma narrowed_glyph_contours g m :
  numberOfContours (narrowed_glyph match_width target_width g m) =
  numberOfContours g.
Proof.
  unfold narrowed_glyph. destruct (negb _); [reflexivity|].
  destruct (_ =? 0)%Z; [reflexivity|]. apply shift_glyph_contours.
Qed.

Lemma narrowed_glyph_has_coordinates g m :
  has_coordinates (narrowed_glyph match_width target_width g m) =
  has_coordinates g.
Proof.
  unfold narrowed_glyph. destruct (negb _); [reflexivity|].
  destruct (_ =? 0)%Z; [reflexivity|]. apply shift_glyph_has_coordinates.
Qed.

Lemma width_loop_unshared names font :
  NoDup names -> all_bound names font -> unshared names font ->
  has_outlines match_width names font ->
  exists font',
    width_loop names match_width target_width font = (font', Next) /\
    glyphs font' = glyphs font /\
    advanceWidthMax font' = advanceWidthMax font /\
    (forall k, k ∉ names -> metrics font' !! k = metrics font !! k) /\
    (forall a, (forall n, n ∈ names -> glyphs font !! n <> Some a) ->
       glyph_objects font' !! a = glyph_objects font !! a) /\
    (forall n a g m, n ∈ names ->
       glyphs font !! n = Some a -> glyph_objects font !! a = Some g ->
       metrics font !! n = Some m ->
       metrics font' !! n =
         Some (narrowed_metrics match_width target_width g m) /\
       glyph_objects font' !! a =
         Some (narrowed_glyph match_width target_width g m)).
Proof.
  revert font. induction names as [|n names IH];
    intros font Hnd Hbound Hinj Hout.
  - exists font. split; [reflexivity |]. split; [reflexivity |].
    split; [reflexivity |]. split; [reflexivity |]. split; [reflexivity |].
    intros n a g m Hin. now apply elem_of_nil in Hin.
  - apply NoDup_cons in Hnd as [Hfresh Hnd].
    destruct (Hbound n (list_elem_of_here _ _)) as (a & g & m & Ha & Hg & Hm).
    rewrite (width_loop_cons n names font a g m Ha Hg Hm
               (Hout n a g m (list_elem_of_here _ _) Ha Hg Hm)).
    set (font1 := narrow_one match_width target_width font n a g m).
    assert (forall n', n' ∈ names -> glyphs font !! n' <> Some a) as Hother.
    { intros n' Hin' Ha'. apply Hfresh.
      rewrite <- (Hinj n' n a); [exact Hin' | now right |
        apply list_elem_of_here | exact Ha' | exact Ha]. }
    assert (forall k, k <> n -> metrics font1 !! k = metrics font !! k) as Hm1.
    { intros k Hk. unfold font1, narrow_one. simpl.
      now rewrite lookup_insert_ne. }
    assert (forall a', a' <> a ->
              glyph_objects font1 !! a' = glyph_objects font !! a') as Hg1.
    { intros a' Hne. unfold font1, narrow_one. simpl.
      now rewrite lookup_insert_ne. }
    destruct (IH font1 Hnd) as (font' & Hrun & Hgl & Hadv & Hmf & Hof & Hmain).
    { intros n' Hin'.
      destruct (Hbound n' (list_elem_of_further _ _ _ Hin'))
        as (a' & g' & m' & Ha' & Hg' & Hm').
      exists a', g', m'. split; [exact Ha' |]. split.
      - rewrite Hg1; [exact Hg' |]. intros ->. now apply (Hother n' Hin').
      - rewrite Hm1; [exact Hm' |]. intros ->. contradiction. }
    { intros n1 n2 a' H1 H2. apply Hinj; now right. }
    { intros n' a' g' m' Hin' Ha' Hg' Hm'.
      assert (n' <> n) as Hne by (intros ->; contradiction).
      rewrite Hm1 in Hm' by exact Hne.
      rewrite Hg1 in Hg'
        by (intros ->; now apply (Hother n' Hin')).
      apply (Hout n' a' g' m'); [now right | assumption ..]. }
    exists font'. split; [exact Hrun |]. split; [exact Hgl |].
    split; [exact Hadv |]. split; [| split].
    + intros k Hk. apply not_elem_of_cons in Hk as [Hne Hk].
      rewrite Hmf by exact Hk. now apply Hm1.
    + intros a' Ha'. rewrite Hof.
      * apply Hg1. intros ->.
        apply (Ha' n); [apply list_elem_of_here | exact Ha].
      * intros n' Hin'. apply Ha'. now right.
    + intros n' a' g' m' Hin' Ha' Hg' Hm'.
      apply elem_of_cons in Hin' as [-> | Hin'].
      * assert (a' = a) as -> by congruence.
        assert (g' = g) as -> by congruence.
        assert (m' = m) as -> by congruence.
        split.
        -- rewrite Hmf by exact Hfresh. unfold font1, narrow_one. simpl.
           apply lookup_insert_eq.
        -- rewrite Hof by exact Hother. unfold font1, narrow_one. simpl.
           apply lookup_insert_eq.
      * assert (n' <> n) as Hne by (intros ->; contradiction).
        assert (a' <> a) as Hane
          by (intros ->; now apply (Hother n' Hin')).
        apply Hmain; [exact Hin' | exact Ha' | |].
        -- rewrite Hg1; assumption.
        -- rewrite Hm1; assumption.
Qed.

End Narrowing.

(** [round_half n] is [n / 2] rounded to the nearest integer, a half going
    to the even neighbour. *)
Lemma round_half_spec (n : Z) :
  (Z.even n = true -> 2 * round_half n = n)%Z /\
  (Z.even n = false ->
     (2 * round_half n = n - 1 \/ 2 * round_half n = n + 1)%Z /\
     Z.even (round_half n) = true).
Proof.
  unfold round_half. pose proof (Z.div_mod n 2 ltac:(lia)) as Hdiv.
  pose proof (Z.mod_pos_bound n 2 ltac:(lia)) as Hmod.
  rewrite Zeven_mod. split.
  - intros He. rewrite He. apply Z.eqb_eq in He. lia.
  - intros He. rewrite He. apply Z.eqb_neq in He.
    destruct (Z.even (n / 2)) eqn:Hq.
    + split; [left; lia | exact Hq].
    + split; [right; lia |].
      rewrite Z.even_add, Hq. reflexivity.
Qed.

Lemma narrowed_cases (match_width target_width : Z) (g : Glyph) (w lsb : Z) :
  let delta := round_half (target_width - match_width) in
  let m' := narrowed_metrics match_width target_width g (w, lsb) in
  let g' := narrowed_glyph match_width target_width g (w, lsb) in
  (w <> match_width -> m' = (w, lsb) /\ g' = g) /\
  (w = match_width -> numberOfContours g = 0%Z ->
     m' = (target_width, lsb) /\ g' = g) /\
  (w = match_width -> numberOfContours g <> 0%Z ->
     m' = (target_width, (lsb + delta)%Z) /\
     numberOfContours g' = numberOfContours g /\
     coordinates g' = translate (delta, 0%Z) (coordinates g) /\
     (xMin g', yMin g', xMax g', yMax g') = calcIntBounds (coordinates g')).
Proof.
  cbv zeta. unfold narrowed_metrics, narrowed_glyph. cbn [fst snd].
  split; [| split].
  - intros Hw. apply Z.eqb_neq in Hw. now rewrite Hw.
  - intros -> Hc. now rewrite Z.eqb_refl, Hc.
  - intros -> Hc. apply Z.eqb_neq in Hc. rewrite Z.eqb_refl, Hc.
    cbn [negb]. unfold shift_glyph.
    destruct (calcIntBounds _) as [[[x0 y0] x1] y1] eqn:Hb.
    cbn [numberOfContours coordinates xMin yMin xMax yMax].
    now rewrite Hb.
Qed.

(** X1: narrowing a font whose ordered glyph names are distinct, bound in
    both stores, and bound to distinct glyph objects, where no glyph of the
    matching width with contours is composite and the difference of the
    widths is small enough for its half to be rounded exactly: the run
    completes, the declared maximum width is the target width, and for
    every ordered glyph: a width other than the matching one leaves the
    metrics and the glyph as they are; a matching width without contours
    gives the target width with the side bearing kept; a matching width
    with contours gives the target width, the side bearing moved by the
    rounded half difference, the outline translated by it and the bounding
    box recomputed from the translated outline. *)
Theorem change_char_width_unshared (font : TTFont)
    (match_width target_width : Z) :
  NoDup (glyphOrder font) ->
  all_bound (glyphOrder font) font ->
  unshared (glyphOrder font) font ->
  has_outlines match_width (glyphOrder font) font ->
  exact_half (target_width - match_width) ->
  let delta := round_half (target_width - match_width) in
  exists font',
    change_char_width font match_width target_width = (font', Next) /\
    advanceWidthMax font' = target_width /\
    glyphs font' = glyphs font /\
    (forall n a g m, n ∈ glyphOrder font ->
       glyphs font !! n = Some a -> glyph_objects font !! a = Some g ->
       metrics font !! n = Some m ->
       metrics font' !! n =
         Some (narrowed_metrics match_width target_width g m) /\
       glyph_objects font' !! a =
         Some (narrowed_glyph match_width target_width g m)) /\
    (forall n a g w lsb, n ∈ glyphOrder font ->
       glyphs font !! n = Some a -> glyph_objects font !! a = Some g ->
       metrics font !! n = Some (w, lsb) ->
       (w <> match_width ->
          metrics font' !! n = Some (w, lsb) /\
          glyph_objects font' !! a = Some g) /\
       (w = match_width -> numberOfContours g = 0%Z ->
          metrics font' !! n = Some (target_width, lsb) /\
          glyph_objects font' !! a = Some g) /\
       (w = match_width -> numberOfContours g <> 0%Z ->
          metrics font' !! n = Some (target_width, (lsb + delta)%Z) /\
          exists g',
            glyph_objects font' !! a = Some g' /\
            numberOfContours g' = numberOfContours g /\
            coordinates g' = translate (delta, 0%Z) (coordinates g) /\
            (xMin g', yMin g', xMax g', yMax g') =
              calcIntBounds (coordinates g'))).
Proof.
  intros Hnd Hbound Hinj Hout _ delta. unfold change_char_width.
  destruct (width_loop_unshared match_width target_width (glyphOrder font)
              (with_advanceWidthMax target_width font) Hnd Hbound Hinj Hout)
    as (font' & Hrun & Hgl & Hadv & _ & _ & Hmain).
  exists font'. split; [exact Hrun |]. split; [exact Hadv |].
  split; [exact Hgl |]. split; [exact Hmain |].
  intros n a g w lsb Hin Ha Hg Hm.
  destruct (Hmain n a g (w, lsb) Hin Ha Hg Hm) as [Hm' Hg'].
  destruct (narrowed_cases match_width target_width g w lsb)
    as (Hother & Hempty & Hmoved).
  rewrite Hm', Hg'. split; [| split].
  - intros Hw. destruct (Hother Hw) as [-> ->]. now split.
  - intros Hw Hc. destruct (Hempty Hw Hc) as [-> ->]. now split.
  - intros Hw Hc. destruct (Hmoved Hw Hc) as (-> & Hc' & Hco & Hbox).
    split; [reflexivity |]. eexists. split; [reflexivity |].
    split; [exact Hc' |]. split; [exact Hco | exact Hbox].
Qed.

Lemma exact_half_font_units : exact_half (1000 - 1200).
Proof. unfold exact_half. simpl. lia. Qed.

Lemma cn_font_outlines (match_width : Z) :
  has_outlines match_width (glyphOrder cn_font) cn_font.
Proof.
  intros n a g m Hin Ha Hg _ _ _.
  repeat (apply elem_of_cons in Hin as [-> | Hin]);
    try (now apply elem_of_nil in Hin);
    vm_compute in Ha; inversion Ha; subst a;
    vm_compute in Hg; inversion Hg; reflexivity.
Qed.

Lemma cn_font_well_formed :
  NoDup (glyphOrder cn_font) /\
  all_bound (glyphOrder cn_font) cn_font /\
  unshared (glyphOrder cn_font) cn_font.
Proof.
  split; [| split].
  - apply (bool_decide_unpack _). vm_compute. exact I.
  - intros n Hin.
    repeat (apply elem_of_cons in Hin as [-> | Hin]);
      try (now apply elem_of_nil in Hin);
      do 3 eexists; repeat split; reflexivity.
  - intros n1 n2 a H1 H2 Ha1 Ha2.
    repeat (apply elem_of_cons in H1 as [-> | H1]);
      try (now apply elem_of_nil in H1);
      vm_compute in Ha1; inversion Ha1; subst a;
      repeat (apply elem_of_cons in H2 as [-> | H2]);
      try (now apply elem_of_nil in H2);
      vm_compute in Ha2; congruence.
Qed.

Lemma change_char_width_unshared_witness :
  exists font',
    change_char_width cn_font 1200 1000 = (font', Next) /\
    metrics font' !! "emdash.cv98" = Some (1000, -50)%Z /\
    glyph_objects font' !! 1 = Some (sample_glyph (-50) 1050) /\
    metrics font' !! "a" = Some (600, 40)%Z.
Proof.
  destruct cn_font_well_formed as (Hnd & Hbound & Hinj).
  destruct (change_char_width_unshared cn_font 1200 1000 Hnd Hbound Hinj
              (cn_font_outlines 1200) exact_half_font_units)
    as (font' & Hrun & _ & _ & Hmain & _).
  exists font'. split; [exact Hrun |].
  destruct (Hmain "emdash.cv98" 1 (sample_glyph 50 1150) (1200, 50)%Z)
    as [Hm Hg]; try reflexivity.
  { apply list_elem_of_In. simpl. tauto. }
  destruct (Hmain "a" 4 (sample_glyph 40 560) (600, 40)%Z)
    as [Hm' _]; try reflexivity.
  { apply list_elem_of_In. simpl. tauto. }
  split; [exact Hm |]. split; [exact Hg | exact Hm'].
Defined.

(** C6 (the code at the failing input): after freezing cv98 the names
    "emdash" and "emdash.cv98" are bound to one glyph object, 1200 units
    wide.  Narrowing from 1200 to 1000 visits the object under both names:
    each name gets the side bearing 50 - 100, and the outline is moved
    twice, by -200 in all. *)
Theorem shared_glyph_translated_twice :
  let frozen := font_of (freeze cn_font [("cv98", "enable")] []) in
  let narrowed := change_char_width frozen 1200 1000 in
  glyphs frozen !! "emdash" = Some 1 /\
  glyphs frozen !! "emdash.cv98" = Some 1 /\
  metrics frozen !! "emdash" = Some (1200, 50)%Z /\
  metrics frozen !! "emdash.cv98" = Some (1200, 50)%Z /\
  glyph_objects frozen !! 1 = Some (sample_glyph 50 1150) /\
  narrowed.2 = Next /\
  round_half (1000 - 1200) = (-100)%Z /\
  metrics narrowed.1 !! "emdash" = Some (1000, -50)%Z /\
  metrics narrowed.1 !! "emdash.cv98" = Some (1000, -50)%Z /\
  glyph_objects narrowed.1 !! 1 =
    Some (shift_glyph (-100) (shift_glyph (-100) (sample_glyph 50 1150))) /\
  glyph_objects narrowed.1 !! 1 <>
    Some (shift_glyph (-100) (sample_glyph 50 1150)) /\
  coordinates
    (shift_glyph (-100) (shift_glyph (-100) (sample_glyph 50 1150))) =
    translate (-200, 0)%Z (coordinates (sample_glyph 50 1150)).
Proof. vm_compute. repeat split. discriminate. Qed.

(** * Further properties *)

(** ** File names and PostScript names *)

Section FileNames.

Lemma prefix_empty (s : string) : String.prefix "" s = true.
Proof. now destruct s. Qed.

Lemma prefix_char (c d : ascii) (s : string) :
  String.prefix (String c "") (String d s) = Ascii.eqb c d.
Proof.
  simpl. destruct (ascii_dec c d) as [-> | Hne].
  - now rewrite prefix_empty, Ascii.eqb_refl.
  - symmetry. now apply Ascii.eqb_neq.
Qed.

Lemma contains_char_cons (c d : ascii) (s : string) :
  Py.contains (String c "") (String d s) =
  Ascii.eqb c d || Py.contains (String c "") s.
Proof. now rewrite contains_cons, prefix_char. Qed.

Lemma contains_char_app (c : ascii) (a b : string) :
  Py.contains (String c "") (a +:+ b) =
  Py.contains (String c "") a || Py.contains (String c "") b.
Proof.
  induction a as [|d a IH].
  - change ("" +:+ b) with b. reflexivity.
  - rewrite app_cons, !contains_char_cons, IH. now rewrite orb_assoc.
Qed.

(** Removing a character leaves no occurrence of it. *)
Lemma replace_char_absent (c : ascii) (s : string) :
  Py.contains (String c "") (Py.replace s (String c "") "") = false.
Proof.
  unfold Py.replace. induction s as [|d s IH]; [reflexivity |].
  rewrite replace_from_cons, prefix_char.
  destruct (Ascii.eqb c d) eqn:E.
  - exact IH.
  - now rewrite contains_char_cons, E, IH.
Qed.

Lemma split_char_nonempty (sep : ascii) (s : string) :
  split_char sep s <> [].
Proof.
  destruct s as [|c s]; simpl; [discriminate |].
  destruct (Ascii.eqb c sep); [discriminate |].
  destruct (split_char sep s); discriminate.
Qed.

(** A string without the separator is one piece. *)
Lemma split_char_absent (sep : ascii) (s : string) :
  Py.contains (String sep "") s = false -> split_char sep s = [s].
Proof.
  induction s as [|c s IH]; intros H; [reflexivity |].
  rewrite contains_char_cons in H. apply orb_false_iff in H as [Hc Hs].
  simpl. rewrite Ascii.eqb_sym, Hc, (IH Hs). reflexivity.
Qed.

(** The last piece only depends on what follows the last separator. *)
Lemma last_split_char_app (sep : ascii) (a b : string) :
  List.last (split_char sep (a +:+ String sep b)) "" =
  List.last (split_char sep b) "".
Proof.
  induction a as [|c a IH].
  - change ("" +:+ String sep b) with (String sep b).
    simpl. rewrite Ascii.eqb_refl.
    pose proof (split_char_nonempty sep b).
    now destruct (split_char sep b).
  - rewrite app_cons. simpl.
    pose proof (split_char_nonempty sep (a +:+ String sep b)) as Hne.
    destruct (Ascii.eqb c sep).
    + destruct (split_char sep (a +:+ String sep b)) as [|x xs] eqn:E;
        [contradiction | exact IH].
    + destruct (split_char sep (a +:+ String sep b)) as [|x xs] eqn:E;
        [contradiction |].
      destruct xs as [|y ys]; [| exact IH].
      simpl in IH.
      pose proof (split_char_nonempty sep b) as Hb.
      (* a single piece cannot come from a string with a separator *)
      exfalso. clear IH Hb Hne.
      revert x E. induction a as [|d a IHa]; intros x E.
      * change ("" +:+ String sep b) with (String sep b) in E.
        simpl in E. rewrite Ascii.eqb_refl in E.
        pose proof (split_char_nonempty sep b).
        destruct (split_char sep b); [contradiction | discriminate].
      * rewrite app_cons in E. simpl in E.
        pose proof (split_char_nonempty sep (a +:+ String sep b)) as Hne.
        destruct (Ascii.eqb d sep).
        -- destruct (split_char sep (a +:+ String sep b));
             [contradiction | discriminate].
        -- destruct (split_char sep (a +:+ String sep b)) as [|z zs] eqn:E';
             [contradiction |].
           destruct zs; [| discriminate]. now apply (IHa z).
Qed.

(** The first piece of a string is what precedes the first separator. *)
Lemma hd_split_char_app (sep : ascii) (a b : string) :
  Py.contains (String sep "") a = false ->
  hd "" (split_char sep (a +:+ String sep b)) = a.
Proof.
  induction a as [|c a IH]; intros H.
  - change ("" +:+ String sep b) with (String sep b).
    simpl. now rewrite Ascii.eqb_refl.
  - rewrite contains_char_cons in H. apply orb_false_iff in H as [Hc Ha].
    rewrite app_cons. simpl. rewrite Ascii.eqb_sym, Hc.
    specialize (IH Ha).
    pose proof (split_char_nonempty sep (a +:+ String sep b)) as Hne.
    destruct (split_char sep (a +:+ String sep b)) as [|x xs];
      [contradiction |].
    simpl in *. now subst.
Qed.

End FileNames.

(** X3: the style token read from a file name [base-style.ext] is [style]
    whenever neither the style nor the extension holds a "-" and the style
    holds no "."; so the files that a build writes are read back by the
    next build with the style they were written for.  Without an extension
    the same holds. *)
Theorem style_of_written_filename (base style ext : string) :
  Py.contains "-" style = false ->
  Py.contains "." style = false ->
  Py.contains "-" ext = false ->
  style_of_filename (base +:+ "-" +:+ style +:+ "." +:+ ext) = style /\
  style_of_filename (base +:+ "-" +:+ style) = style.
Proof.
  intros Hdash Hdot Hext. unfold style_of_filename. split.
  - change (base +:+ "-" +:+ style +:+ "." +:+ ext)
      with (base +:+ String "-" (style +:+ String "." ext)).
    rewrite last_split_char_app.
    rewrite (split_char_absent "-" (style +:+ String "." ext)).
    + simpl. now apply hd_split_char_app.
    + rewrite contains_char_app, Hdash.
      rewrite contains_char_cons, Hext. reflexivity.
  - change (base +:+ "-" +:+ style) with (base +:+ String "-" style).
    rewrite last_split_char_app.
    rewrite (split_char_absent "-" style Hdash). simpl.
    now rewrite (split_char_absent "." style Hdot).
Qed.

Lemma style_of_written_filename_witness :
  style_of_filename ("MapleMono-NF" +:+ "-" +:+ "BoldItalic" +:+ "." +:+ "ttf")
  = "BoldItalic".
Proof.
  apply (style_of_written_filename "MapleMono-NF" "BoldItalic" "ttf");
    reflexivity.
Defined.

(** X4: the compact family name is the family name without its spaces, so
    the PostScript names of the mono, NF and CN builds hold no space when
    the style token holds none. *)
Theorem postscript_names_have_no_space (family_name style : string)
    (with_nerd_font : bool) :
  Py.contains " " style = false ->
  let compact := compact_family_name family_name in
  Py.contains " " compact = false /\
  Py.contains " " (mono_postscript_name compact style) = false /\
  Py.contains " " (nf_postscript_name compact style) = false /\
  Py.contains " " (cn_postscript_name compact with_nerd_font style) = false.
Proof.
  intros Hstyle compact.
  assert (Py.contains " " compact = false) as Hc
    by apply replace_char_absent.
  split; [exact Hc |].
  unfold mono_postscript_name, nf_postscript_name, cn_postscript_name.
  rewrite !contains_char_app, Hc, Hstyle.
  now destruct with_nerd_font.
Qed.

Lemma postscript_names_have_no_space_witness :
  Py.contains " "
    (mono_postscript_name (compact_family_name "Maple Mono") "Bold") = false.
Proof.
  destruct (postscript_names_have_no_space "Maple Mono" "Bold" false
              eq_refl) as (_ & H & _).
  exact H.
Defined.

(** ** Name records of the three builds *)

Lemma parse_font_name_skip (token : string) (skip_list : list string) :
  Py.list_in token skip_list = true ->
  parse_font_name token skip_list =
  ("", display_style_name token skip_list,
   display_style_name token skip_list, is_italic_flag token skip_list).
Proof.
  intros H. unfold display_style_name, is_italic_flag, parse_font_name.
  now rewrite H.
Qed.

Lemma parse_font_name_other (token : string) (skip_list : list string) :
  Py.list_in token skip_list = false ->
  parse_font_name token skip_list =
  (family_suffix token skip_list, subfamily_name token skip_list,
   display_style_name token skip_list, is_italic_flag token skip_list).
Proof.
  intros H.
  unfold family_suffix, subfamily_name, display_style_name, is_italic_flag,
    parse_font_name.
  now rewrite H.
Qed.

(** The shape shared by the name calls of the three builds: a family
    prefix, the compact PostScript name, and the narrow flag. *)
Lemma name_calls_consistent (prefix postscript_name : string)
    (feature_freeze : list (string * string)) (narrow : bool)
    (skip_list : list string) (token : string) (names : gmap nat string) :
  let '(with_prefix_space, in_2, style, _) :=
    parse_font_name token skip_list in
  let names' :=
    set_font_names
      ([ (prefix +:+ with_prefix_space, 1); (in_2, 2);
         (prefix +:+ " " +:+ style, 4); (postscript_name, 6);
         (get_unique_identifier postscript_name feature_freeze narrow "", 3) ]
       ++ (if negb (Py.list_in token skip_list)
           then [ (prefix, 16); (style, 17) ] else []))
      names in
  names_consistent (Py.list_in token skip_list) names names'.
Proof.
  unfold names_consistent.
  destruct (Py.list_in token skip_list) eqn:Hin.
  - rewrite (parse_font_name_skip token skip_list Hin).
    cbn [negb app]. unfold set_font_names, set_font_name.
    cbn [foldl fst snd]. split; [| split].
    + intros _. exists prefix, (display_style_name token skip_list).
      rewrite app_empty_r.
      repeat split; repeat (rewrite lookup_insert_ne by lia);
        try reflexivity; now rewrite lookup_insert_eq.
    + discriminate.
    + exists postscript_name. eexists.
      split; repeat (rewrite lookup_insert_ne by lia);
        rewrite lookup_insert_eq; reflexivity.
  - rewrite (parse_font_name_other token skip_list Hin).
    cbn [negb app]. unfold set_font_names, set_font_name.
    cbn [foldl fst snd]. split; [| split].
    + discriminate.
    + intros _. exists prefix, (display_style_name token skip_list).
      repeat split; repeat (rewrite lookup_insert_ne by lia);
        now rewrite lookup_insert_eq.
    + exists postscript_name. eexists.
      split; repeat (rewrite lookup_insert_ne by lia);
        rewrite lookup_insert_eq; reflexivity.
Qed.

(** X5: in the name tables that [build_mono], [build_nf] and [build_cn]
    write, for every style token and skip list, the full name (ID 4) is the
    family name, a space and the subfamily name (IDs 1 and 2 for a style of
    the skip list, IDs 16 and 17 otherwise), and the unique identifier
    (ID 3) carries the PostScript name written as ID 6. *)
Theorem name_tables_consistent (family_name family_name_compact : string)
    (feature_freeze : list (string * string)) (skip_list : list string)
    (with_nerd_font narrow : bool) (token : string)
    (names : gmap nat string) :
  names_consistent (Py.list_in token skip_list) names
    (build_mono_names family_name family_name_compact feature_freeze
       skip_list token names) /\
  names_consistent (Py.list_in token skip_list) names
    (set_font_names
       (build_nf_name_calls family_name family_name_compact feature_freeze
          skip_list token) names) /\
  names_consistent (Py.list_in token skip_list) names
    (set_font_names
       (build_cn_name_calls family_name family_name_compact feature_freeze
          skip_list with_nerd_font narrow token) names).
Proof.
  split; [| split].
  - pose proof (name_calls_consistent family_name
                  (family_name_compact +:+ "-" +:+ token) feature_freeze
                  false skip_list token names) as H.
    unfold build_mono_names, build_mono_name_calls.
    destruct (parse_font_name token skip_list) as [[[a b] c] d].
    exact H.
  - pose proof (name_calls_consistent (family_name +:+ " NF")
                  (family_name_compact +:+ "-NF-" +:+ token) feature_freeze
                  false skip_list token names) as H.
    unfold build_nf_name_calls.
    destruct (parse_font_name token skip_list) as [[[a b] c] d].
    rewrite !app_assoc_string in H. exact H.
  - pose proof (name_calls_consistent
                  (family_name +:+ " " +:+ cn_suffix with_nerd_font)
                  (family_name_compact +:+ "-"
                   +:+ cn_suffix_compact with_nerd_font +:+ "-" +:+ token)
                  feature_freeze narrow skip_list token names) as H.
    unfold build_cn_name_calls.
    destruct (parse_font_name token skip_list) as [[[a b] c] d].
    rewrite !app_assoc_string in H. exact H.
Qed.

Lemma prefix_app_l (sub a b : string) :
  String.prefix sub a = true -> String.prefix sub (a +:+ b) = true.
Proof.
  revert a. induction sub as [|c sub IH]; intros a H.
  - apply prefix_empty.
  - destruct a as [|d a]; [discriminate |].
    rewrite app_cons. simpl in *.
    destruct (ascii_dec c d); [now apply IH | discriminate].
Qed.

Lemma contains_app_l (sub a b : string) :
  Py.contains sub a = true -> Py.contains sub (a +:+ b) = true.
Proof.
  induction a as [|c a IH]; intros H.
  - simpl in H. destruct sub; [| discriminate].
    change ("" +:+ b) with b. destruct b; reflexivity.
  - rewrite app_cons, contains_cons. rewrite contains_cons in H.
    apply orb_true_iff in H as [H | H].
    + rewrite <- app_cons, (prefix_app_l _ _ b H). reflexivity.
    + rewrite (IH H). apply orb_true_r.
Qed.

(** X6: the weight-class override of [build_mono] goes by the family-name
    suffix, from which "Italic" has been removed.  A style of the skip list
    keeps the weight class of the font; a style outside the list gets 250
    when its token without "Italic" is "Thin", 275 when it is
    "ExtraLight", and keeps the weight class of the font otherwise: so
    "Thin" and "ThinItalic" get 250, "ExtraLight" and "ExtraLightItalic"
    get 275, and an italic style outside the list gets the weight class of
    its upright style. *)
Theorem weight_class_follows_upright (skip_list : list string)
    (usWeightClass : Z) :
  (forall token, token ∈ skip_list ->
     build_mono_weight_class skip_list token usWeightClass = usWeightClass) /\
  (forall token, token ∉ skip_list ->
     (Py.replace token "Italic" "" = "Thin" ->
      build_mono_weight_class skip_list token usWeightClass = 250%Z) /\
     (Py.replace token "Italic" "" = "ExtraLight" ->
      build_mono_weight_class skip_list token usWeightClass = 275%Z) /\
     (Py.replace token "Italic" "" <> "Thin" ->
      Py.replace token "Italic" "" <> "ExtraLight" ->
      build_mono_weight_class skip_list token usWeightClass =
      usWeightClass)) /\
  ("Thin" ∉ skip_list ->
   build_mono_weight_class skip_list "Thin" usWeightClass = 250%Z) /\
  ("ThinItalic" ∉ skip_list ->
   build_mono_weight_class skip_list "ThinItalic" usWeightClass = 250%Z) /\
  ("ExtraLight" ∉ skip_list ->
   build_mono_weight_class skip_list "ExtraLight" usWeightClass = 275%Z) /\
  ("ExtraLightItalic" ∉ skip_list ->
   build_mono_weight_class skip_list "ExtraLightItalic" usWeightClass =
   275%Z) /\
  (forall p, Py.contains "Italic" (p +:+ "Itali") = false ->
     p ∉ skip_list -> p +:+ "Italic" ∉ skip_list ->
     build_mono_weight_class skip_list (p +:+ "Italic") usWeightClass =
     build_mono_weight_class skip_list p usWeightClass).
Proof.
  assert (forall token, token ∉ skip_list ->
            build_mono_weight_class skip_list token usWeightClass =
            override_weight_class (" " +:+ Py.replace token "Italic" "")
              usWeightClass) as Hout.
  { intros token Hin. unfold build_mono_weight_class.
    now destruct (other_tokens_names _ _ Hin) as [-> _]. }
  assert (forall x,
            override_weight_class (" " +:+ x) usWeightClass =
            if String.eqb x "Thin" then 250%Z
            else if String.eqb x "ExtraLight" then 275%Z
            else usWeightClass) as Hov by reflexivity.
  split; [| split; [| split; [| split; [| split; [| split]]]]].
  - intros token Hin. apply list_in_spec in Hin.
    unfold build_mono_weight_class, family_suffix, parse_font_name.
    now rewrite Hin.
  - intros token Hin. rewrite (Hout token Hin), Hov. split; [| split].
    + now intros ->.
    + now intros ->.
    + intros H1 H2. apply String.eqb_neq in H1, H2. now rewrite H1, H2.
  - intros Hin. now rewrite (Hout _ Hin).
  - intros Hin. now rewrite (Hout _ Hin).
  - intros Hin. now rewrite (Hout _ Hin).
  - intros Hin. now rewrite (Hout _ Hin).
  - intros p Hno Hp Hpi. rewrite (Hout _ Hp), (Hout _ Hpi).
    rewrite remove_trailing_Italic by exact Hno.
    rewrite replace_absent; [reflexivity |].
    destruct (Py.contains "Italic" p) eqn:E; [| reflexivity].
    now rewrite (contains_app_l "Italic" p "Itali" E) in Hno.
Qed.

Lemma weight_class_follows_upright_witness :
  build_mono_weight_class skip_subfamily_list "ThinItalic" 100 = 250%Z /\
  build_mono_weight_class skip_subfamily_list "ExtraLight" 200 = 275%Z /\
  build_mono_weight_class skip_subfamily_list "Bold" 700 = 700%Z /\
  build_mono_weight_class skip_subfamily_list "Light" 300 = 300%Z.
Proof.
  destruct (weight_class_follows_upright skip_subfamily_list 100)
    as (_ & _ & _ & Hthin & _).
  destruct (weight_class_follows_upright skip_subfamily_list 200)
    as (_ & _ & _ & _ & Hextra & _).
  destruct (weight_class_follows_upright skip_subfamily_list 700)
    as (Hskip & _).
  destruct (weight_class_follows_upright skip_subfamily_list 300)
    as (_ & Hother & _).
  split; [| split; [| split]].
  - apply Hthin. apply list_in_false. reflexivity.
  - apply Hextra. apply list_in_false. reflexivity.
  - apply Hskip. apply list_in_spec. reflexivity.
  - apply (Hother "Light"); [apply list_in_false; reflexivity | |];
      discriminate.
Defined.

(** ** Removing the locl features *)

Section RemoveLocl.

Implicit Types (x y : FeatureRecord) (l pre xs : list FeatureRecord).

Lemma list_remove_past x pre l :
  x ∉ pre ->
  list_remove x (pre ++ l) =
  match list_remove x l with Some l' => Some (pre ++ l') | None => None end.
Proof.
  induction pre as [|y pre IH]; intros Hx; simpl.
  - now destruct (list_remove x l).
  - apply not_elem_of_cons in Hx as [Hne Hx].
    rewrite decide_False by congruence. rewrite (IH Hx).
    now destruct (list_remove x l).
Qed.

Lemma remove_each_past xs pre l :
  (forall x, x ∈ xs -> x ∉ pre) ->
  remove_each xs (pre ++ l) =
  (pre ++ (remove_each xs l).1, (remove_each xs l).2).
Proof.
  revert l. induction xs as [|x xs IH]; intros l Hxs; simpl; [reflexivity |].
  rewrite list_remove_past by (apply Hxs; apply list_elem_of_here).
  destruct (list_remove x l) as [l'|]; [| reflexivity].
  apply IH. intros x' Hx'. apply Hxs. now right.
Qed.

(** Removing, one by one, the elements that satisfy a test leaves the
    others, in order. *)
Lemma remove_each_filter (P : FeatureRecord -> bool) l :
  remove_each (List.filter P l) l =
  (List.filter (fun y => negb (P y)) l, Next).
Proof.
  induction l as [|y l IH]; [reflexivity |].
  simpl. destruct (P y) eqn:Hy; simpl.
  - rewrite decide_True by reflexivity. exact IH.
  - change (y :: l) with ([y] ++ l). rewrite remove_each_past.
    + now rewrite IH.
    + intros x Hx Hin. apply list_elem_of_singleton in Hin. subst x.
      apply list_elem_of_In, filter_In in Hx as [_ Hx]. congruence.
Qed.

End RemoveLocl.

(** X7: [remove_locl] never raises and leaves exactly the records whose
    tag is not "locl", in their order, also when several locl records are
    equal; no record of the result is tagged "locl", the other tables are
    untouched, and a second call changes nothing. *)
Theorem remove_locl_filters (font : TTFont) :
  let kept :=
    List.filter (fun r => negb (is_locl r)) (FeatureRecords font) in
  remove_locl font = (with_FeatureRecords kept font, Next) /\
  ("locl" ∉ tags (with_FeatureRecords kept font)) /\
  (forall r, r ∈ kept <-> r ∈ FeatureRecords font /\ FeatureTag r <> "locl") /\
  remove_locl (with_FeatureRecords kept font) =
    (with_FeatureRecords kept font, Next).
Proof.
  intros kept.
  assert (forall f, remove_locl f =
            (with_FeatureRecords
               (List.filter (fun r => negb (is_locl r)) (FeatureRecords f)) f,
             Next)) as Hrun.
  { intros f. unfold remove_locl. now rewrite remove_each_filter. }
  assert (forall r, r ∈ kept <->
            r ∈ FeatureRecords font /\ FeatureTag r <> "locl") as Hkept.
  { intros r. unfold kept. rewrite !list_elem_of_In, filter_In.
    unfold is_locl. rewrite negb_true_iff.
    now destruct (String.eqb_spec (FeatureTag r) "locl"). }
  split; [apply Hrun |]. split; [| split; [exact Hkept |]].
  - unfold tags. simpl. intros Hin.
    apply list_elem_of_fmap in Hin as (r & Heq & Hr).
    apply Hkept in Hr as [_ Hr]. congruence.
  - rewrite Hrun. simpl. f_equal. unfold with_FeatureRecords. simpl.
    f_equal. apply forallb_filter_id.
    apply forallb_forall. intros r Hr.
    apply list_elem_of_In, Hkept in Hr as [_ Hr].
    unfold is_locl. apply negb_true_iff.
    now destruct (String.eqb_spec (FeatureTag r) "locl").
Qed.

(** ** The cv98 patch: [fix_cv98] *)

Section FixCv98.

Implicit Types (font : TTFont) (records : list FeatureRecord).

(** Records with another tag are passed over. *)
Lemma fix_cv98_loop_skip pre records font :
  "cv98" ∉ map FeatureTag pre ->
  fix_cv98_loop (pre ++ records) font = fix_cv98_loop records font.
Proof.
  induction pre as [|r pre IH]; intros Hpre; [reflexivity|].
  simpl. destruct (String.eqb_spec (FeatureTag r) "cv98") as [E|E]; simpl.
  - exfalso. apply Hpre. rewrite <- E. simpl. apply list_elem_of_here.
  - apply IH. intros H. apply Hpre. simpl. now apply list_elem_of_further.
Qed.

(** The patch writes the lookup list only, keeps its length, and raises
    nothing but [IndexError], before any write. *)
Lemma fix_cv98_loop_frame records font :
  let r := fix_cv98_loop records font in
  FeatureRecords r.1 = FeatureRecords font /\
  same_stores font r.1 /\
  glyph_objects r.1 = glyph_objects font /\
  glyphOrder r.1 = glyphOrder font /\
  advanceWidthMax r.1 = advanceWidthMax font /\
  length (Lookups r.1) = length (Lookups font) /\
  (r.2 <> Next -> r = (font, Raise "IndexError")).
Proof.
  induction records as [|rec records IH]; simpl.
  - unfold same_stores. repeat split; try reflexivity. now intros [].
  - destruct (negb (String.eqb (FeatureTag rec) "cv98")); [exact IH|].
    destruct (LookupListIndex (Feature rec)) as [|index more];
      [unfold same_stores; now repeat split|].
    destruct (Lookups font !! index) as [lookup|];
      [|unfold same_stores; now repeat split].
    destruct (SubTable lookup) as [|sub subs];
      [unfold same_stores; now repeat split|].
    unfold same_stores. simpl. repeat split; try reflexivity.
    + apply length_insert.
    + now intros [].
Qed.

(** A second pass over the same records finds the mapping in place. *)
Lemma fix_cv98_loop_twice records font :
  fix_cv98_loop records (fix_cv98_loop records font).1 =
  fix_cv98_loop records font.
Proof.
  induction records as [|rec records IH]; simpl; [reflexivity|].
  destruct (negb (String.eqb (FeatureTag rec) "cv98")) eqn:Etag; simpl.
  { exact IH. }
  destruct (LookupListIndex (Feature rec)) as [|index more] eqn:Eidx; simpl.
  { reflexivity. }
  destruct (Lookups font !! index) as [lookup|] eqn:Elook; simpl.
  2:{ now rewrite Elook. }
  destruct (SubTable lookup) as [|sub subs] eqn:Esub; simpl.
  { now rewrite Elook, Esub. }
  rewrite list_lookup_insert_eq by (eapply lookup_lt_Some; exact Elook).
  simpl. unfold with_Lookups. simpl.
  now rewrite list_insert_insert_eq.
Qed.

End FixCv98.

(** X8: [fix_cv98] writes nothing but the lookup list, whose length it
    keeps; the only exception it raises is [IndexError], and the font is
    then as it was; a font without a cv98 record is returned as it is; and
    a second call returns what the first one did. *)
Theorem fix_cv98_settles (font : TTFont) :
  let r := fix_cv98 font in
  fix_cv98 r.1 = r /\
  FeatureRecords r.1 = FeatureRecords font /\
  same_stores font r.1 /\
  glyph_objects r.1 = glyph_objects font /\
  glyphOrder r.1 = glyphOrder font /\
  advanceWidthMax r.1 = advanceWidthMax font /\
  length (Lookups r.1) = length (Lookups font) /\
  (r.2 <> Next -> r = (font, Raise "IndexError")) /\
  ("cv98" ∉ tags font -> r = (font, Next)).
Proof.
  intros r. unfold r, fix_cv98.
  pose proof (fix_cv98_loop_frame (FeatureRecords font) font) as H.
  cbv zeta in H. destruct H as (Hrec & Hst & Hobj & Hord & Hmax & Hlen & Hexc).
  split.
  { rewrite Hrec. apply fix_cv98_loop_twice. }
  repeat (split; [assumption|]).
  intros Hno. unfold tags in Hno.
  rewrite <- (app_nil_r (FeatureRecords font)).
  now rewrite fix_cv98_loop_skip.
Qed.

Section Cv98Freeze.

Implicit Types (font : TTFont) (records : list FeatureRecord).

(** The binding of a tag carried by one record only. *)
Lemma feature_dict_single pre r post :
  FeatureTag r <> "calt" ->
  FeatureTag r ∉ map FeatureTag post ->
  feature_dict (pre ++ r :: post) !! FeatureTag r = Some (length pre).
Proof.
  intros Hcalt Hpost. unfold feature_dict.
  assert (forall i (d : gmap string nat),
            feature_dict_from i (pre ++ r :: post) d !! FeatureTag r =
            Some (i + length pre)) as H.
  { induction pre as [|p pre IH]; intros i d; simpl.
    - destruct (String.eqb_spec (FeatureTag r) "calt") as [E|_];
        [contradiction|].
      rewrite feature_dict_from_absent by exact Hpost.
      rewrite lookup_insert_eq. f_equal. simpl. lia.
    - rewrite IH. f_equal. simpl. lia. }
  now rewrite H.
Qed.

End Cv98Freeze.

(** X9: the sequence [fix_cv98], [freeze] of [build_cn], for any policy
    with one cv98 entry, of an enabling status.  In a font with one cv98
    record, whose feature has one readable lookup, and with the four glyph
    names known: when the entries before the cv98 entry have completed, its
    step completes, prints nothing, and binds "emdash" and "ellipsis" to
    the glyph objects and the metrics that their cv98 forms have at that
    point, whatever the lookup mapped before the patch; every other name is
    bound as the earlier entries left it; and the entries after it run from
    that state. *)
Theorem fix_cv98_then_freeze (font : TTFont) (pre post : list FeatureRecord)
    (r : FeatureRecord) (index : nat)
    (earlier later : list (string * string)) (status : string)
    (out : list string) :
  FeatureRecords font = pre ++ r :: post ->
  FeatureTag r = "cv98" ->
  "cv98" ∉ map FeatureTag pre -> "cv98" ∉ map FeatureTag post ->
  LookupListIndex (Feature r) = [index] ->
  readable (Lookups font) index ->
  both_known font "emdash" "emdash.cv98" = true ->
  both_known font "ellipsis" "ellipsis.cv98" = true ->
  enabling status = true ->
  "cv98" ∉ earlier.*1 ->
  let fixed := fix_cv98 font in
  let reached := freeze fixed.1 earlier out in
  let run := freeze fixed.1 (earlier ++ [("cv98", status)]) out in
  control_of reached = Next ->
  fixed.2 = Next /\
  control_of run = Next /\ output_of run = output_of reached /\
  glyphs (font_of run) !! "emdash" =
    glyphs (font_of reached) !! "emdash.cv98" /\
  metrics (font_of run) !! "emdash" =
    metrics (font_of reached) !! "emdash.cv98" /\
  glyphs (font_of run) !! "ellipsis" =
    glyphs (font_of reached) !! "ellipsis.cv98" /\
  metrics (font_of run) !! "ellipsis" =
    metrics (font_of reached) !! "ellipsis.cv98" /\
  (forall k, k <> "emdash" -> k <> "ellipsis" ->
     glyphs (font_of run) !! k = glyphs (font_of reached) !! k /\
     metrics (font_of run) !! k = metrics (font_of reached) !! k) /\
  FeatureRecords (font_of run) = FeatureRecords (font_of reached) /\
  freeze fixed.1 (earlier ++ ("cv98", status) :: later) out =
    freeze_loop moving_tags (feature_dict (FeatureRecords fixed.1))
      (calt_features (FeatureRecords fixed.1)) later
      (font_of run) (output_of run).
Proof.
  intros Hrecs Htag Hpre Hpost Hidx (lookup & sub & subs & Hlook & Hsub)
    Hem Hel Hen Hearlier fixed reached run Hreach.
  set (font1 :=
         with_Lookups
           (<[index := {| SubTable :=
                            Single {| mapping := cv98_mapping |} :: subs |}]>
              (Lookups font)) font).
  assert (fixed = (font1, Next)) as Hfixed.
  { unfold fixed, fix_cv98. rewrite Hrecs, fix_cv98_loop_skip by exact Hpre.
    simpl. now rewrite Htag, Hidx, Hlook, Hsub. }
  assert (fixed.1 = font1) as Hf1 by now rewrite Hfixed.
  unfold reached, run in *. clear reached run. rewrite Hf1 in *.
  unfold freeze in *.
  set (reached := freeze_feature font1 moving_tags earlier out) in *.
  assert (feature_dict (FeatureRecords font1) !! "cv98" = Some (length pre))
    as Hfd.
  { pose proof (feature_dict_single pre r post) as Hfd.
    rewrite Htag in Hfd. simpl FeatureRecords. rewrite Hrecs.
    apply Hfd; [discriminate | exact Hpost]. }
  destruct (freeze_feature_evolves font1 moving_tags earlier out)
    as ((Hlk & _) & Htags & Hkn & _).
  fold reached in Hlk, Htags, Hkn.
  assert (lookups_at (font_of reached) (length pre) = [index]) as Hat.
  { unfold reached, freeze_feature.
    rewrite (freeze_loop_untouched moving_tags font1 earlier font1 out
               (length pre) "cv98" eq_refl).
    - unfold lookups_at. simpl FeatureRecords. rewrite Hrecs.
      rewrite list_lookup_middle by reflexivity. exact Hidx.
    - unfold tags. simpl FeatureRecords. rewrite Hrecs, list_lookup_fmap.
      rewrite list_lookup_middle by reflexivity. simpl. now rewrite Htag.
    - discriminate.
    - exact Hearlier. }
  assert (forall a b, both_known (font_of reached) a b = both_known font a b)
    as Hkn' by (intros a b; now rewrite Hkn).
  assert (freeze_feature font1 moving_tags (earlier ++ [("cv98", status)]) out
          = (foldl assign_glyph (font_of reached) cv98_mapping,
             output_of reached, Next)) as Hrun.
  { rewrite (freeze_feature_snoc font1 moving_tags earlier "cv98" status out
               Hreach).
    fold reached. unfold freeze_step. rewrite Hfd.
    unfold enabling in Hen. apply andb_true_iff in Hen as [Hi Hd].
    apply negb_true_iff in Hi, Hd. rewrite Hi, Hd.
    change (Py.list_in "cv98" moving_tags) with false. cbv iota.
    rewrite Hat, substitute_lookups_eval, Hlk. simpl resolved_pairs.
    simpl Lookups.
    rewrite list_lookup_insert_eq by (eapply lookup_lt_Some; exact Hlook).
    simpl. rewrite Hkn', Hem.
    rewrite both_known_assign by (now rewrite Hkn').
    rewrite Hkn', Hel. reflexivity. }
  rewrite <- Hkn' in Hem, Hel.
  destruct (both_known_target _ _ _ Hem) as (g1 & m1 & Hg1 & Hm1).
  destruct (both_known_target _ _ _ Hel) as (g2 & m2 & Hg2 & Hm2).
  assert (foldl assign_glyph (font_of reached) cv98_mapping =
          with_stores
            (<["ellipsis" := g2]> (<["emdash" := g1]>
               (glyphs (font_of reached))))
            (<["ellipsis" := m2]> (<["emdash" := m1]>
               (metrics (font_of reached))))
            (font_of reached)) as Hfont.
  { simpl. unfold assign_glyph. simpl.
    rewrite Hg1, Hm1. simpl.
    rewrite !lookup_insert_ne by discriminate. now rewrite Hg2, Hm2. }
  split; [now rewrite Hfixed |].
  split; [now rewrite Hrun |]. split; [now rewrite Hrun |].
  assert (freeze_feature font1 moving_tags
            (earlier ++ ("cv98", status) :: later) out =
          freeze_loop moving_tags (feature_dict (FeatureRecords font1))
            (calt_features (FeatureRecords font1)) later
            (font_of (freeze_feature font1 moving_tags
                        (earlier ++ [("cv98", status)]) out))
            (output_of (freeze_feature font1 moving_tags
                          (earlier ++ [("cv98", status)]) out))) as Hlast.
  { rewrite freeze_feature_after. cbv zeta. now rewrite Hrun. }
  rewrite Hlast. clear Hlast.
  assert (font_of (freeze_feature font1 moving_tags
                     (earlier ++ [("cv98", status)]) out) =
          foldl assign_glyph (font_of reached) cv98_mapping) as ->
    by now rewrite Hrun.
  rewrite Hfont. simpl glyphs. simpl metrics.
  rewrite Hg1, Hm1, Hg2, Hm2.
  split; [rewrite lookup_insert_ne by discriminate; apply lookup_insert_eq |].
  split; [rewrite lookup_insert_ne by discriminate; apply lookup_insert_eq |].
  split; [apply lookup_insert_eq |]. split; [apply lookup_insert_eq |].
  split; [intros k Hk1 Hk2; split;
          rewrite !lookup_insert_ne by congruence; reflexivity |].
  split; reflexivity.
Qed.

Lemma fix_cv98_then_freeze_witness :
  let policy := [("cv01", "enable"); ("cv98", "enable")] in
  glyphs (font_of (freeze (fix_cv98 cn_font).1 policy [])) !! "emdash"
  = Some 1 /\
  glyphs (font_of (freeze (fix_cv98 cn_font).1 policy [])) !! "a" = Some 5.
Proof.
  destruct (fix_cv98_then_freeze cn_font
              [feature_record "calt" [0]; feature_record "ss03" [1]]
              [feature_record "cv01" [3]] (feature_record "cv98" [2]) 2
              [("cv01", "enable")] [] "enable" [])
    as (_ & _ & _ & He & _ & _ & _ & Hk & _).
  - reflexivity.
  - reflexivity.
  - intros H%list_elem_of_In. simpl in H. intuition discriminate.
  - intros H%list_elem_of_In. simpl in H. intuition discriminate.
  - reflexivity.
  - exists (single_lookup [("emdash", "emdash.cv98");
                           ("ellipsis", "ellipsis.cv98")]),
      (Single {| mapping := [("emdash", "emdash.cv98");
                             ("ellipsis", "ellipsis.cv98")] |}), [].
    split; reflexivity.
  - reflexivity.
  - reflexivity.
  - reflexivity.
  - intros H%list_elem_of_In. simpl in H. intuition discriminate.
  - reflexivity.
  - intros policy. split.
    + unfold policy. change [("cv01", "enable"); ("cv98", "enable")]
        with ([("cv01", "enable")] ++ [("cv98", "enable")]).
      rewrite He. reflexivity.
    + unfold policy. change [("cv01", "enable"); ("cv98", "enable")]
        with ([("cv01", "enable")] ++ [("cv98", "enable")]).
      destruct (Hk "a") as [-> _]; [discriminate | discriminate |].
      reflexivity.
Defined.

(** ** Narrowing with shared glyph objects *)

Section Sharing.

Variables match_width target_width : Z.

Implicit Types (font : TTFont) (names : list string).

Lemma shift_glyph_coordinates d g :
  coordinates (shift_glyph d g) = translate (d, 0%Z) (coordinates g).
Proof. unfold shift_glyph. now destruct (calcIntBounds _) as [[[? ?] ?] ?]. Qed.

Lemma iter_shift_contours k d g :
  numberOfContours (Nat.iter k (shift_glyph d) g) = numberOfContours g.
Proof.
  induction k as [|k IH]; [reflexivity|].
  now rewrite Nat.iter_succ, shift_glyph_contours.
Qed.

Lemma iter_shift_has_coordinates k d g :
  has_coordinates (Nat.iter k (shift_glyph d) g) = has_coordinates g.
Proof.
  induction k as [|k IH]; [reflexivity|].
  now rewrite Nat.iter_succ, shift_glyph_has_coordinates.
Qed.

(** Moving an outline [k] times by [d] moves it by [k * d]. *)
Lemma iter_shift_coordinates k d g :
  coordinates (Nat.iter k (shift_glyph d) g) =
  translate ((Z.of_nat k * d)%Z, 0%Z) (coordinates g).
Proof.
  induction k as [|k IH].
  - simpl. unfold translate. induction (coordinates g) as [|[x y] cs IHc];
      [reflexivity|]. simpl in *. rewrite <- IHc. f_equal. f_equal; lia.
  - rewrite Nat.iter_succ, shift_glyph_coordinates, IH.
    unfold translate. rewrite map_map. apply map_ext. intros [x y]. simpl.
    f_equal; lia.
Qed.

Lemma narrowed_metrics_contours g g' m :
  numberOfContours g' = numberOfContours g ->
  narrowed_metrics match_width target_width g' m =
  narrowed_metrics match_width target_width g m.
Proof. unfold narrowed_metrics. now intros ->. Qed.

Lemma visits_cons font n names addr a m :
  glyphs font !! n = Some a -> metrics font !! n = Some m ->
  visits match_width font (n :: names) addr =
  (if (a =? addr)%nat && (m.1 =? match_width)%Z then 1 else 0)
  + visits match_width font names addr.
Proof.
  intros Ha Hm. unfold visits. simpl. rewrite Ha, Hm.
  now destruct ((a =? addr)%nat && (m.1 =? match_width)%Z).
Qed.

Lemma visits_ext font font' names addr :
  glyphs font' = glyphs font ->
  (forall n, n ∈ names -> metrics font' !! n = metrics font !! n) ->
  visits match_width font' names addr = visits match_width font names addr.
Proof.
  intros Hg Hm. unfold visits. f_equal. apply filter_ext_in.
  intros n Hn. rewrite Hg, Hm; [reflexivity | now apply list_elem_of_In].
Qed.

(** The loop on distinct bound names: each name gets the metrics of
    [narrowed_metrics]; each glyph object with contours is moved once per
    name that is bound to it and has the matching width. *)
Lemma width_loop_shared names font :
  NoDup names -> all_bound names font ->
  has_outlines match_width names font ->
  exists font',
    width_loop names match_width target_width font = (font', Next) /\
    glyphs font' = glyphs font /\
    FeatureRecords font' = FeatureRecords font /\
    Lookups font' = Lookups font /\
    glyphOrder font' = glyphOrder font /\
    advanceWidthMax font' = advanceWidthMax font /\
    (forall k, k ∉ names -> metrics font' !! k = metrics font !! k) /\
    (forall n a g m, n ∈ names ->
       glyphs font !! n = Some a -> glyph_objects font !! a = Some g ->
       metrics font !! n = Some m ->
       metrics font' !! n =
         Some (narrowed_metrics match_width target_width g m)) /\
    (forall a,
       glyph_objects font' !! a =
       (fun g =>
          if (numberOfContours g =? 0)%Z then g
          else Nat.iter (visits match_width font names a)
                 (shift_glyph (round_half (target_width - match_width))) g)
       <$> glyph_objects font !! a).
Proof.
  revert font. induction names as [|n names IH];
    intros font Hnd Hbound Hout.
  - exists font. repeat (split; [reflexivity|]). split.
    + intros n a g m Hin. now apply elem_of_nil in Hin.
    + intros a. destruct (glyph_objects font !! a) as [g|]; simpl;
        [|reflexivity]. now destruct (_ =? 0)%Z.
  - apply NoDup_cons in Hnd as [Hfresh Hnd].
    destruct (Hbound n (list_elem_of_here _ _)) as (a & g & m & Ha & Hg & Hm).
    rewrite (width_loop_cons _ _ n names font a g m Ha Hg Hm
               (Hout n a g m (list_elem_of_here _ _) Ha Hg Hm)).
    set (font1 := narrow_one match_width target_width font n a g m).
    assert (forall k, k <> n -> metrics font1 !! k = metrics font !! k) as Hm1.
    { intros k Hk. unfold font1, narrow_one. simpl.
      now rewrite lookup_insert_ne. }
    assert (glyph_objects font1 !! a =
            Some (narrowed_glyph match_width target_width g m)) as Hga.
    { unfold font1, narrow_one. simpl. apply lookup_insert_eq. }
    assert (forall a', a' <> a ->
              glyph_objects font1 !! a' = glyph_objects font !! a') as Hg1.
    { intros a' Hne. unfold font1, narrow_one. simpl.
      now rewrite lookup_insert_ne. }
    assert (forall addr, visits match_width font1 names addr =
                         visits match_width font names addr) as Hvis.
    { intros addr. apply visits_ext; [reflexivity|].
      intros k Hk. apply Hm1. intros ->. contradiction. }
    destruct (IH font1 Hnd)
      as (font' & Hrun & Hgl & Hfr & Hlk & Hord & Hadv & Hmf & Hmet & Hobj).
    { intros n' Hin'.
      destruct (Hbound n' (list_elem_of_further _ _ _ Hin'))
        as (a' & g' & m' & Ha' & Hg' & Hm').
      destruct (decide (a' = a)) as [->|Hne].
      - exists a, (narrowed_glyph match_width target_width g m), m'.
        split; [exact Ha'|]. split; [exact Hga|].
        rewrite Hm1; [exact Hm'|]. intros ->. contradiction.
      - exists a', g', m'. split; [exact Ha'|]. split.
        + now rewrite Hg1.
        + rewrite Hm1; [exact Hm'|]. intros ->. contradiction. }
    { intros n' a' g' m' Hin' Ha' Hg' Hm' Hw Hc.
      assert (n' <> n) as Hne by (intros ->; contradiction).
      rewrite Hm1 in Hm' by exact Hne.
      destruct (decide (a' = a)) as [->|Hane].
      - rewrite Hga in Hg'. inversion Hg'; subst g'. clear Hg'.
        rewrite narrowed_glyph_has_coordinates.
        rewrite narrowed_glyph_contours in Hc.
        apply (Hout n' a g m'); [now right | assumption ..].
      - rewrite Hg1 in Hg' by exact Hane.
        apply (Hout n' a' g' m'); [now right | assumption ..]. }
    exists font'. split; [exact Hrun|]. split; [exact Hgl|].
    split; [exact Hfr|]. split; [exact Hlk|]. split; [exact Hord|].
    split; [exact Hadv|]. split; [|split].
    + intros k Hk. apply not_elem_of_cons in Hk as [Hne Hk].
      rewrite Hmf by exact Hk. now apply Hm1.
    + intros n' a' g' m' Hin' Ha' Hg' Hm'.
      apply elem_of_cons in Hin' as [->|Hin'].
      * assert (a' = a) as -> by congruence.
        assert (g' = g) as -> by congruence.
        assert (m' = m) as -> by congruence.
        rewrite Hmf by exact Hfresh. unfold font1, narrow_one. simpl.
        apply lookup_insert_eq.
      * assert (n' <> n) as Hne by (intros ->; contradiction).
        destruct (decide (a' = a)) as [->|Hane].
        -- assert (g' = g) as -> by congruence.
           rewrite (Hmet n' a (narrowed_glyph match_width target_width g m) m');
             [| exact Hin' | exact Ha' | exact Hga | now rewrite Hm1].
           f_equal. apply narrowed_metrics_contours, narrowed_glyph_contours.
        -- apply (Hmet n' a' g' m'); [exact Hin' | exact Ha' | |].
           ++ now rewrite Hg1.
           ++ now rewrite Hm1.
    + intros a'. rewrite Hobj, Hvis.
      rewrite (visits_cons font n names a' a m Ha Hm).
      destruct (decide (a' = a)) as [->|Hane].
      * rewrite Hga, Hg. simpl. rewrite narrowed_glyph_contours.
        rewrite Nat.eqb_refl. simpl. f_equal.
        unfold narrowed_glyph.
        destruct (numberOfContours g =? 0)%Z eqn:Hc.
        { now destruct (negb _). }
        destruct (m.1 =? match_width)%Z; simpl; [|reflexivity].
        rewrite <- Nat.iter_succ. symmetry. apply Nat.iter_succ_r.
      * rewrite Hg1 by exact Hane.
        assert ((a =? a')%nat = false) as ->
          by (apply Nat.eqb_neq; congruence).
        reflexivity.
Qed.

Lemma width_loop_app pre post font :
  width_loop (pre ++ post) match_width target_width font =
  match width_loop pre match_width target_width font with
  | (font', Next) => width_loop post match_width target_width font'
  | r => r
  end.
Proof.
  revert font. induction pre as [|n pre IH]; intros font; [reflexivity|].
  cbn [app width_loop].
  destruct (glyphs font !! n) as [a|]; [|reflexivity].
  destruct (glyph_objects font !! a) as [g|]; [|reflexivity].
  destruct (metrics font !! n) as [[w lsb]|]; [|reflexivity].
  destruct (negb _); [apply IH|].
  destruct (_ =? 0)%Z; [apply IH|].
  destruct (negb _); [reflexivity | apply IH].
Qed.

(** Where no name has the matching width, the loop changes nothing. *)
Lemma width_loop_no_match names font :
  all_bound names font ->
  (forall n m, n ∈ names -> metrics font !! n = Some m ->
     m.1 <> match_width) ->
  width_loop names match_width target_width font = (font, Next).
Proof.
  induction names as [|n names IH]; intros Hbound Hno; [reflexivity|].
  destruct (Hbound n (list_elem_of_here _ _)) as (a & g & m & Ha & Hg & Hm).
  cbn [width_loop]. rewrite Ha, Hg, Hm. destruct m as [w lsb].
  assert ((w =? match_width)%Z = false) as ->.
  { apply Z.eqb_neq. apply (Hno n (w, lsb)); [apply list_elem_of_here|exact Hm]. }
  simpl. apply IH.
  - intros n' Hin'. apply Hbound. now right.
  - intros n' m' Hin'. apply Hno. now right.
Qed.

End Sharing.

(** X10: narrowing a font whose ordered glyph names are distinct and bound,
    glyph objects being shared or not, where no glyph of the matching width
    with contours is composite and the difference of the widths is small
    enough for its half to be rounded exactly: the run completes; every
    ordered name gets the metrics of [narrowed_metrics]; a glyph object
    without contours is kept, and one with contours is moved once for every
    ordered name that is bound to it and has the matching width, by that
    number times the rounded half difference in all; nothing else changes
    but the declared maximum width. *)
Theorem change_char_width_by_visits (font : TTFont)
    (match_width target_width : Z) :
  NoDup (glyphOrder font) ->
  all_bound (glyphOrder font) font ->
  has_outlines match_width (glyphOrder font) font ->
  exact_half (target_width - match_width) ->
  let delta := round_half (target_width - match_width) in
  exists font',
    change_char_width font match_width target_width = (font', Next) /\
    advanceWidthMax font' = target_width /\
    glyphs font' = glyphs font /\
    FeatureRecords font' = FeatureRecords font /\
    Lookups font' = Lookups font /\
    glyphOrder font' = glyphOrder font /\
    (forall k, k ∉ glyphOrder font -> metrics font' !! k = metrics font !! k) /\
    (forall n a g m, n ∈ glyphOrder font ->
       glyphs font !! n = Some a -> glyph_objects font !! a = Some g ->
       metrics font !! n = Some m ->
       metrics font' !! n =
         Some (narrowed_metrics match_width target_width g m)) /\
    (forall n a g w lsb, n ∈ glyphOrder font ->
       glyphs font !! n = Some a -> glyph_objects font !! a = Some g ->
       metrics font !! n = Some (w, lsb) ->
       (w <> match_width -> metrics font' !! n = Some (w, lsb)) /\
       (w = match_width -> numberOfContours g = 0%Z ->
          metrics font' !! n = Some (target_width, lsb)) /\
       (w = match_width -> numberOfContours g <> 0%Z ->
          metrics font' !! n = Some (target_width, (lsb + delta)%Z))) /\
    (forall a, glyph_objects font !! a = None ->
       glyph_objects font' !! a = None) /\
    (forall a g, glyph_objects font !! a = Some g ->
       let k := visits match_width font (glyphOrder font) a in
       exists g',
         glyph_objects font' !! a = Some g' /\
         numberOfContours g' = numberOfContours g /\
         has_coordinates g' = has_coordinates g /\
         (numberOfContours g = 0%Z -> g' = g) /\
         (numberOfContours g <> 0%Z ->
            g' = Nat.iter k (shift_glyph delta) g /\
            coordinates g' =
              translate ((Z.of_nat k * delta)%Z, 0%Z) (coordinates g))).
Proof.
  intros Hnd Hbound Hout _ delta. unfold change_char_width.
  destruct (width_loop_shared match_width target_width (glyphOrder font)
              (with_advanceWidthMax target_width font) Hnd Hbound Hout)
    as (font' & Hrun & Hgl & Hfr & Hlk & Hord & Hadv & Hmf & Hmet & Hobj).
  exists font'. split; [exact Hrun|]. split; [exact Hadv|].
  split; [exact Hgl|]. split; [exact Hfr|]. split; [exact Hlk|].
  split; [exact Hord|]. split; [exact Hmf|]. split; [exact Hmet|].
  split; [| split].
  - intros n a g w lsb Hin Ha Hg Hm.
    rewrite (Hmet n a g (w, lsb) Hin Ha Hg Hm).
    destruct (narrowed_cases match_width target_width g w lsb)
      as (Hother & Hempty & Hmoved).
    split; [| split].
    + intros Hw. now destruct (Hother Hw) as [-> _].
    + intros Hw Hc. now destruct (Hempty Hw Hc) as [-> _].
    + intros Hw Hc. now destruct (Hmoved Hw Hc) as (-> & _).
  - intros a Hnone. rewrite Hobj. simpl. now rewrite Hnone.
  - intros a g Hg. cbv zeta. rewrite Hobj. simpl glyph_objects.
    rewrite Hg. simpl.
    eexists. split; [reflexivity|].
    destruct (numberOfContours g =? 0)%Z eqn:Hc.
    + apply Z.eqb_eq in Hc. split; [reflexivity|].
      split; [reflexivity|]. split; [reflexivity|].
      intros Hne. contradiction.
    + apply Z.eqb_neq in Hc. split; [apply iter_shift_contours|].
      split; [apply iter_shift_has_coordinates|].
      split; [intros H0; contradiction|]. intros _.
      split; [reflexivity|]. apply iter_shift_coordinates.
Qed.

Lemma frozen_cn_font_well_formed :
  let frozen := font_of (freeze cn_font [("cv98", "enable")] []) in
  NoDup (glyphOrder frozen) /\ all_bound (glyphOrder frozen) frozen /\
  forall match_width, has_outlines match_width (glyphOrder frozen) frozen.
Proof.
  split; [| split].
  - apply (bool_decide_unpack _). vm_compute. exact I.
  - intros n Hin. apply list_elem_of_In in Hin. vm_compute in Hin.
    repeat (destruct Hin as [<- | Hin]); try contradiction;
      do 3 eexists; repeat split; reflexivity.
  - intros match_width n a g m Hin Ha Hg _ _ _.
    apply list_elem_of_In in Hin. vm_compute in Hin.
    repeat (destruct Hin as [<- | Hin]); try contradiction;
      vm_compute in Ha; inversion Ha; subst a;
      vm_compute in Hg; inversion Hg; reflexivity.
Qed.

Lemma change_char_width_by_visits_witness :
  exists font' g',
    change_char_width (font_of (freeze cn_font [("cv98", "enable")] []))
      1200 1000 = (font', Next) /\
    glyph_objects font' !! 1 = Some g' /\
    coordinates g' = [((-150)%Z, 0%Z); (950%Z, 700%Z)].
Proof.
  destruct frozen_cn_font_well_formed as (Hnd & Hbound & Hout).
  destruct (change_char_width_by_visits _ 1200 1000 Hnd Hbound (Hout _)
              exact_half_font_units)
    as (font' & Hrun & _ & _ & _ & _ & _ & _ & _ & _ & _ & Hobj).
  destruct (Hobj 1 (sample_glyph 50 1150) eq_refl)
    as (g' & Hg' & _ & _ & _ & Hmv).
  exists font', g'. split; [exact Hrun|]. split; [exact Hg'|].
  destruct Hmv as [_ ->]; [discriminate | reflexivity].
Defined.

(** X11: a first ordered name that a store does not have (its glyph
    object, if the glyph store has the name, being live), after names that
    are distinct and bound and of which none of the matching width with
    contours is composite: the call raises [KeyError], and leaves the
    declared maximum width at the target width and the names before that
    one narrowed. *)
Theorem change_char_width_key_error (font : TTFont)
    (match_width target_width : Z) (pre post : list string) (n : string) :
  glyphOrder font = pre ++ n :: post ->
  NoDup pre -> all_bound pre font ->
  has_outlines match_width pre font ->
  exact_half (target_width - match_width) ->
  (forall a, glyphs font !! n = Some a ->
     is_Some (glyph_objects font !! a)) ->
  has_key (glyphs font) n && has_key (metrics font) n = false ->
  exists font',
    change_char_width font match_width target_width =
      (font', Raise "KeyError") /\
    advanceWidthMax font' = target_width /\
    glyphs font' = glyphs font /\
    (forall n' a g m, n' ∈ pre ->
       glyphs font !! n' = Some a -> glyph_objects font !! a = Some g ->
       metrics font !! n' = Some m ->
       metrics font' !! n' =
         Some (narrowed_metrics match_width target_width g m)) /\
    (forall n' a g lsb, n' ∈ pre ->
       glyphs font !! n' = Some a -> glyph_objects font !! a = Some g ->
       metrics font !! n' = Some (match_width, lsb) ->
       metrics font' !! n' =
         Some (target_width,
               if (numberOfContours g =? 0)%Z then lsb
               else (lsb + round_half (target_width - match_width))%Z)) /\
    (forall k, k ∉ pre -> metrics font' !! k = metrics font !! k).
Proof.
  intros Hord Hnd Hbound Hout _ Hlive Hmiss. unfold change_char_width.
  rewrite Hord, width_loop_app.
  destruct (width_loop_shared match_width target_width pre
              (with_advanceWidthMax target_width font) Hnd Hbound Hout)
    as (font' & Hrun & Hgl & _ & _ & _ & Hadv & Hmf & Hmet & Hobj).
  rewrite Hrun. exists font'.
  assert (n ∉ pre) as Hfresh.
  { intros Hin. destruct (Hbound n Hin) as (a & g & m & Ha & _ & Hm).
    unfold has_key in Hmiss. now rewrite Ha, Hm in Hmiss. }
  split; [| split; [exact Hadv | split; [exact Hgl | split; [exact Hmet |]]]].
  2:{ split; [| exact Hmf].
      intros n' a g lsb Hin Ha Hg Hm.
      rewrite (Hmet n' a g (match_width, lsb) Hin Ha Hg Hm).
      unfold narrowed_metrics. simpl. rewrite Z.eqb_refl. simpl.
      now destruct (numberOfContours g =? 0)%Z. }
  cbn [width_loop]. rewrite Hgl. simpl glyphs.
  unfold has_key in Hmiss.
  destruct (glyphs font !! n) as [a|] eqn:Ha; [|reflexivity].
  rewrite Hobj. simpl glyph_objects.
  destruct (Hlive a eq_refl) as [g Hg]. rewrite Hg. simpl.
  rewrite Hmf by exact Hfresh. simpl metrics.
  destruct (metrics font !! n); [discriminate | reflexivity].
Qed.

Lemma change_char_width_key_error_witness :
  exists font',
    change_char_width cn_font_incomplete 1200 1000 =
      (font', Raise "KeyError") /\
    advanceWidthMax font' = 1000%Z /\
    metrics font' !! "emdash.cv98" = Some (1000, -50)%Z.
Proof.
  destruct (change_char_width_key_error cn_font_incomplete 1200 1000
              ["emdash"; "emdash.cv98"; "ellipsis"] ["a"; "a.cv01"]
              "ellipsis.cv98")
    as (font' & Hrun & Hadv & _ & Hmet & _).
  - reflexivity.
  - apply (bool_decide_unpack _). vm_compute. exact I.
  - intros n Hin. apply list_elem_of_In in Hin. simpl in Hin.
    repeat (destruct Hin as [<- | Hin]); try contradiction;
      do 3 eexists; repeat split; reflexivity.
  - intros n a g m Hin Ha Hg _ _ _.
    apply list_elem_of_In in Hin. simpl in Hin.
    repeat (destruct Hin as [<- | Hin]); try contradiction;
      vm_compute in Ha; inversion Ha; subst a;
      vm_compute in Hg; inversion Hg; reflexivity.
  - exact exact_half_font_units.
  - intros a Ha. vm_compute in Ha. discriminate.
  - reflexivity.
  - exists font'. split; [exact Hrun|]. split; [exact Hadv|].
    apply (Hmet "emdash.cv98" 1 (sample_glyph 50 1150) (1200, 50)%Z);
      try reflexivity.
    apply list_elem_of_In. simpl. tauto.
Defined.

(** X12: after narrowing to another width (ordered names distinct and
    bound, no glyph of the matching width with contours composite), no
    ordered name has the matching width, and a second call changes
    nothing. *)
Theorem change_char_width_twice (font : TTFont)
    (match_width target_width : Z) :
  NoDup (glyphOrder font) ->
  all_bound (glyphOrder font) font ->
  has_outlines match_width (glyphOrder font) font ->
  exact_half (target_width - match_width) ->
  match_width <> target_width ->
  exists font',
    change_char_width font match_width target_width = (font', Next) /\
    (forall n m, n ∈ glyphOrder font' -> metrics font' !! n = Some m ->
       m.1 <> match_width) /\
    change_char_width font' match_width target_width = (font', Next).
Proof.
  intros Hnd Hbound Hout _ Hne. unfold change_char_width at 1.
  destruct (width_loop_shared match_width target_width (glyphOrder font)
              (with_advanceWidthMax target_width font) Hnd Hbound Hout)
    as (font' & Hrun & Hgl & _ & _ & Hord & Hadv & _ & Hmet & Hobj).
  exists font'. split; [exact Hrun|].
  simpl in Hgl, Hord, Hadv.
  assert (forall n m, n ∈ glyphOrder font' -> metrics font' !! n = Some m ->
            m.1 <> match_width) as Hno.
  { intros n m Hin Hm. rewrite Hord in Hin.
    destruct (Hbound n Hin) as (a & g & m0 & Ha & Hg & Hm0).
    rewrite (Hmet n a g m0 Hin Ha Hg Hm0) in Hm. inversion Hm; subst m.
    unfold narrowed_metrics.
    destruct (m0.1 =? match_width)%Z eqn:Hw; simpl.
    - destruct (_ =? 0)%Z; simpl; congruence.
    - now apply Z.eqb_neq. }
  split; [exact Hno|].
  unfold change_char_width.
  assert (with_advanceWidthMax target_width font' = font') as ->.
  { destruct font'. simpl in Hadv. subst. reflexivity. }
  apply width_loop_no_match; [|exact Hno].
  intros n Hin. rewrite Hord in Hin.
  destruct (Hbound n Hin) as (a & g & m0 & Ha & Hg & Hm0).
  exists a. rewrite Hgl, Hobj. simpl glyph_objects. rewrite Hg.
  rewrite (Hmet n a g m0 Hin Ha Hg Hm0). eauto.
Qed.

Lemma change_char_width_twice_witness :
  exists font',
    change_char_width cn_font 1200 1000 = (font', Next) /\
    metrics font' !! "emdash.cv98" = Some (1000, -50)%Z /\
    change_char_width font' 1200 1000 = (font', Next).
Proof.
  destruct cn_font_well_formed as (Hnd & Hbound & _).
  destruct (change_char_width_twice cn_font 1200 1000 Hnd Hbound
              (cn_font_outlines 1200) exact_half_font_units)
    as (font' & Hrun & _ & Hagain); [lia|].
  exists font'. split; [exact Hrun |]. split; [| exact Hagain].
  unfold change_char_width in Hrun. vm_compute in Hrun.
  inversion Hrun. reflexivity.
Defined.

(** X19: a composite glyph (no attribute [coordinates], contour count not
    0) of the matching width, after ordered names that are distinct, bound
    and without such a glyph: the call raises [AttributeError] at that
    name, whose metrics are left as they were, while the declared maximum
    width is already the target width and the names before it are
    narrowed. *)
Theorem composite_glyph_raises (font : TTFont)
    (match_width target_width : Z) (pre post : list string) (n : string)
    (a : nat) (g : Glyph) (lsb : Z) :
  glyphOrder font = pre ++ n :: post ->
  NoDup (pre ++ [n]) -> all_bound pre font ->
  has_outlines match_width pre font ->
  exact_half (target_width - match_width) ->
  glyphs font !! n = Some a -> glyph_objects font !! a = Some g ->
  metrics font !! n = Some (match_width, lsb) ->
  numberOfContours g <> 0%Z -> has_coordinates g = false ->
  exists font',
    change_char_width font match_width target_width =
      (font', Raise "AttributeError") /\
    advanceWidthMax font' = target_width /\
    glyphs font' = glyphs font /\
    metrics font' !! n = Some (match_width, lsb) /\
    (forall n' a' g' m, n' ∈ pre ->
       glyphs font !! n' = Some a' -> glyph_objects font !! a' = Some g' ->
       metrics font !! n' = Some m ->
       metrics font' !! n' =
         Some (narrowed_metrics match_width target_width g' m)).
Proof.
  intros Hord Hnd Hbound Hout _ Ha Hg Hm Hc Hno. unfold change_char_width.
  apply NoDup_app in Hnd as (Hnd & Hfresh & _).
  assert (n ∉ pre) as Hn.
  { intros Hin. apply (Hfresh n Hin). apply list_elem_of_here. }
  rewrite Hord, width_loop_app.
  destruct (width_loop_shared match_width target_width pre
              (with_advanceWidthMax target_width font) Hnd Hbound Hout)
    as (font' & Hrun & Hgl & _ & _ & _ & Hadv & Hmf & Hmet & Hobj).
  rewrite Hrun. exists font'.
  assert (metrics font' !! n = Some (match_width, lsb)) as Hm'
    by (rewrite Hmf by exact Hn; exact Hm).
  split; [| split; [exact Hadv | split; [exact Hgl |
                                          split; [exact Hm' | exact Hmet]]]].
  cbn [width_loop]. rewrite Hgl. simpl glyphs. rewrite Ha.
  rewrite Hobj. simpl glyph_objects. rewrite Hg. simpl. rewrite Hm'.
  rewrite Z.eqb_refl. simpl.
  apply Z.eqb_neq in Hc.
  destruct (numberOfContours g =? 0)%Z eqn:Hc0; [discriminate |].
  - rewrite iter_shift_contours, Hc0, iter_shift_has_coordinates, Hno.
    reflexivity.
Qed.

Lemma composite_glyph_raises_witness :
  let font :=
    with_glyph_objects
      (<[3 := {| numberOfContours := -1; has_coordinates := false;
                 coordinates := [];
                 xMin := 60; yMin := 0; xMax := 1140; yMax := 700 |}]>
         (glyph_objects cn_font)) cn_font in
  exists font',
    change_char_width font 1200 1000 = (font', Raise "AttributeError") /\
    advanceWidthMax font' = 1000%Z /\
    metrics font' !! "emdash.cv98" = Some (1000, -50)%Z /\
    metrics font' !! "ellipsis.cv98" = Some (1200, 60)%Z.
Proof.
  intros font.
  destruct (composite_glyph_raises font 1200 1000
              ["emdash"; "emdash.cv98"; "ellipsis"] ["a"; "a.cv01"]
              "ellipsis.cv98" 3
              {| numberOfContours := -1; has_coordinates := false;
                 coordinates := [];
                 xMin := 60; yMin := 0; xMax := 1140; yMax := 700 |} 60)
    as (font' & Hrun & Hadv & _ & Hn & Hmet).
  - reflexivity.
  - apply (bool_decide_unpack _). vm_compute. exact I.
  - intros n Hin. apply list_elem_of_In in Hin. simpl in Hin.
    repeat (destruct Hin as [<- | Hin]); try contradiction;
      do 3 eexists; repeat split; reflexivity.
  - intros n a g m Hin Ha Hg _ _ _.
    apply list_elem_of_In in Hin. simpl in Hin.
    repeat (destruct Hin as [<- | Hin]); try contradiction;
      vm_compute in Ha; inversion Ha; subst a;
      vm_compute in Hg; inversion Hg; reflexivity.
  - exact exact_half_font_units.
  - reflexivity.
  - reflexivity.
  - reflexivity.
  - discriminate.
  - reflexivity.
  - exists font'. split; [exact Hrun|]. split; [exact Hadv|].
    split; [| exact Hn].
    apply (Hmet "emdash.cv98" 1 (sample_glyph 50 1150) (1200, 50)%Z);
      try reflexivity.
    apply list_elem_of_In. simpl. tauto.
Defined.

(** ** Feature freezing: how a run ends *)

Section FreezeOutcome.

Variable moving_rules : list string.
Variable fdict : gmap string nat.
Variable calt_feats : list nat.

Implicit Types (font : TTFont) (tag status : string) (out : list string).

Lemma stores_within_refl font : stores_within font font.
Proof. unfold stores_within. repeat split; eauto. Qed.

Lemma stores_within_trans f1 f2 f3 :
  stores_within f1 f2 -> stores_within f2 f3 -> stores_within f1 f3.
Proof.
  intros (Hg & Hm & Hgv & Hmv) (Hg' & Hm' & Hgv' & Hmv').
  unfold stores_within. repeat split.
  - intros k. now rewrite Hg', Hg.
  - intros k. now rewrite Hm', Hm.
  - intros k a Hk. destruct (Hgv' k a Hk) as [k' Hk']. eauto.
  - intros k m Hk. destruct (Hmv' k m Hk) as [k' Hk']. eauto.
Qed.

Lemma stores_within_same font font' :
  same_stores font font' -> stores_within font font'.
Proof.
  intros [Hg Hm]. unfold stores_within. rewrite Hg, Hm.
  repeat split; eauto.
Qed.

Lemma assign_glyph_within font o n :
  both_known font o n = true ->
  stores_within font (assign_glyph font (o, n)).
Proof.
  intros Hk. destruct (both_known_target _ _ _ Hk) as (g & m & Hg & Hm).
  unfold both_known in Hk.
  apply andb_true_iff in Hk as [Hk _]. apply andb_true_iff in Hk as [Hk _].
  apply andb_true_iff in Hk as [Hog Hom].
  unfold assign_glyph. cbn [fst snd]. rewrite Hg, Hm.
  unfold stores_within. simpl. repeat split.
  - intros k. now apply has_key_insert.
  - intros k. now apply has_key_insert.
  - intros k a. destruct (decide (o = k)) as [<-|Hne].
    + rewrite lookup_insert_eq. intros [= <-]. eauto.
    + rewrite lookup_insert_ne by exact Hne. eauto.
  - intros k a. destruct (decide (o = k)) as [<-|Hne].
    + rewrite lookup_insert_eq. intros [= <-]. eauto.
    + rewrite lookup_insert_ne by exact Hne. eauto.
Qed.

Lemma substitute_pairs_outcome pairs font out :
  let r := substitute_pairs pairs font out in
  stores_within font (font_of r) /\ run_end out r.
Proof.
  revert font. induction pairs as [|[o n] pairs IH]; intros font; simpl.
  - split; [apply stores_within_refl | reflexivity].
  - destruct (both_known font o n) eqn:Hk.
    + destruct (IH (assign_glyph font (o, n))) as [Hw He].
      split; [| exact He].
      eapply stores_within_trans;
        [apply (assign_glyph_within font o n Hk) | exact Hw].
    + split; [apply stores_within_refl |].
      unfold run_end. simpl. eauto.
Qed.

Lemma substitute_lookups_outcome indices font out :
  let r := substitute_lookups indices font out in
  stores_within font (font_of r) /\ run_end out r.
Proof.
  revert font. induction indices as [|index indices IH]; intros font; simpl.
  - split; [apply stores_within_refl | reflexivity].
  - destruct (Lookups font !! index) as [lookup|].
    2:{ split; [apply stores_within_refl |].
        unfold run_end. simpl. split; [now left | reflexivity]. }
    destruct (SubTable lookup) as [|[sub|] subs].
    { split; [apply stores_within_refl |].
      unfold run_end. simpl. split; [now left | reflexivity]. }
    2:{ split; [apply stores_within_refl |].
        unfold run_end. simpl. split; [now right | reflexivity]. }
    pose proof (substitute_pairs_outcome (mapping sub) font out) as Hp.
    cbv zeta in Hp.
    destruct (substitute_pairs (mapping sub) font out) as [[font' out'] c].
    destruct Hp as [Hw He]. unfold font_of in Hw. simpl in Hw.
    destruct c; try (split; assumption).
    unfold run_end, control_of, output_of in He. simpl in He. subst out'.
    destruct (IH font') as [Hw' He'].
    split; [| exact He']. eapply stores_within_trans; eassumption.
Qed.

Lemma freeze_step_outcome tag status font out :
  let r := freeze_step moving_rules fdict calt_feats tag status font out in
  stores_within font (font_of r) /\ run_end out r.
Proof.
  unfold freeze_step.
  destruct (fdict !! tag) as [t|];
    [| split; [apply stores_within_refl | reflexivity]].
  destruct (String.eqb status "ignore");
    [split; [apply stores_within_refl | reflexivity] |].
  destruct (String.eqb status "disable").
  { split; [| reflexivity]. apply stores_within_same. now split. }
  destruct (Py.list_in tag moving_rules).
  { split; [| reflexivity]. apply stores_within_same.
    now destruct (extend_calt_frame calt_feats t font) as (_ & Hst & _). }
  apply substitute_lookups_outcome.
Qed.

Lemma freeze_loop_outcome config font out :
  let r := freeze_loop moving_rules fdict calt_feats config font out in
  stores_within font (font_of r) /\ run_end out r.
Proof.
  revert font out. induction config as [|[tag status] config IH];
    intros font out; simpl.
  - split; [apply stores_within_refl | reflexivity].
  - pose proof (freeze_step_outcome tag status font out) as Hs.
    cbv zeta in Hs.
    destruct (freeze_step moving_rules fdict calt_feats tag status font out)
      as [[font' out'] c].
    destruct Hs as [Hw He]. unfold font_of in Hw. simpl in Hw.
    destruct c; try (split; assumption).
    unfold run_end, control_of, output_of in He. simpl in He. subst out'.
    destruct (IH font' out) as [Hw' He'].
    split; [| exact He']. eapply stores_within_trans; eassumption.
Qed.

End FreezeOutcome.

(** X13: whatever the font and the policy, a run of [freeze_feature] leaves
    the lookups and the glyph objects alone and makes no name known or
    unknown; every name is bound to a glyph object and to metrics that some
    name had at the start; and the run ends in one of three ways: it
    completes having printed nothing, or it returns early having printed
    exactly one message, about a pair with a name unknown to the final
    font, or it raises [IndexError] (a lookup index or a subtable list that
    cannot be indexed) or [AttributeError] (a first subtable without
    mapping) having printed nothing. *)
Theorem freeze_feature_outcome (font : TTFont) (moving_rules : list string)
    (config : list (string * string)) (out : list string) :
  let r := freeze_feature font moving_rules config out in
  stores_within font (font_of r) /\
  same_fixed_tables font (font_of r) /\
  run_end out r.
Proof.
  intros r.
  destruct (freeze_loop_outcome moving_rules
              (feature_dict (FeatureRecords font))
              (calt_features (FeatureRecords font)) config font out)
    as [Hw He].
  split; [exact Hw|]. split; [| exact He].
  now destruct (freeze_feature_evolves font moving_rules config out)
    as (Hfix & _).
Qed.

(** ** A status that is none of the three literals *)

Lemma suffix_loop_app (pre post : list (string * string)) (suffix : string) :
  suffix_loop (pre ++ post) suffix = suffix_loop post (suffix_loop pre suffix).
Proof.
  revert suffix. induction pre as [|[k v] pre IH]; intros suffix;
    [reflexivity|]. simpl. apply IH.
Qed.

(** X14: a status that is none of "enable", "disable" and "ignore" makes
    [freeze_feature] do what "enable" does, and is left out of the unique
    identifier as "ignore" is: the identifier then does not tell that the
    feature was frozen. *)
Theorem unlisted_status_enables_unrecorded (status : string)
    (font : TTFont) (moving_rules : list string)
    (pre post : list (string * string)) (tag : string) (out : list string)
    (postscript_name : string) (narrow : bool) :
  status <> "enable" -> status <> "disable" -> status <> "ignore" ->
  freeze_feature font moving_rules (pre ++ (tag, status) :: post) out =
  freeze_feature font moving_rules (pre ++ (tag, "enable") :: post) out /\
  get_unique_identifier postscript_name (pre ++ (tag, status) :: post)
    narrow "" =
  get_unique_identifier postscript_name (pre ++ post) narrow "".
Proof.
  intros He Hd Hi.
  apply String.eqb_neq in He, Hd, Hi. split.
  - unfold freeze_feature. rewrite !freeze_loop_app. cbv zeta.
    destruct (freeze_loop _ _ _ pre font out) as [[font' out'] c].
    unfold control_of, font_of, output_of. simpl.
    destruct c; try reflexivity.
    unfold freeze_step. now rewrite Hi, Hd.
  - unfold get_unique_identifier. simpl.
    rewrite !suffix_loop_app. simpl. now rewrite He, Hd.
Qed.

Lemma unlisted_status_enables_unrecorded_witness :
  glyphs (font_of (freeze_feature cn_font moving_tags [("cv98", "on")] []))
    !! "emdash" = Some 1 /\
  get_unique_identifier "MapleMono-Regular" [("cv98", "on")] false "" =
  "Version 7.000;SUBF;MapleMono-Regular;2024;FL830;".
Proof.
  destruct (unlisted_status_enables_unrecorded "on" cn_font moving_tags
              [] [] "cv98" [] "MapleMono-Regular" false)
    as [Hrun Hid]; try discriminate.
  simpl app in Hrun, Hid. rewrite Hrun, Hid. split; reflexivity.
Defined.

(** ** Feature freezing: the feature list after a run *)

Section FeatureListAfter.

Variable moving_rules : list string.
Variable font0 : TTFont.

Let fdict := feature_dict (FeatureRecords font0).
Let calt_feats := calt_features (FeatureRecords font0).

Implicit Types (font cur : TTFont) (tag status : string) (out : list string).

Lemma moved_indices_cons tag status config :
  moved_indices moving_rules font0 ((tag, status) :: config) =
  match fdict !! tag with
  | Some t =>
      if enabling status && Py.list_in tag moving_rules
      then lookups_at font0 t else []
  | None => []
  end ++ moved_indices moving_rules font0 config.
Proof. reflexivity. Qed.

(** A feature that is bound to no tag and is no calt feature is not
    written. *)
Lemma freeze_loop_not_target config cur out i :
  tags cur = tags font0 ->
  (forall tag, fdict !! tag <> Some i) -> i ∉ calt_feats ->
  lookups_at
    (font_of (freeze_loop moving_rules fdict calt_feats config cur out)) i =
  lookups_at cur i.
Proof.
  intros Hcur Hno Hcalt. revert cur out Hcur.
  induction config as [|[tag status] config IH]; intros cur out Hcur;
    [reflexivity|].
  cbn [freeze_loop].
  pose proof (freeze_step_lookups moving_rules font0 cur tag status out i
                Hcur) as Hl.
  pose proof (freeze_step_evolves moving_rules font0 cur tag status out Hcur)
    as (_ & Ht1 & _).
  fold fdict calt_feats in Hl, Ht1.
  destruct (freeze_step moving_rules fdict calt_feats tag status cur out)
    as [[cur1 out1] c].
  change (font_of (cur1, out1, c)) with cur1 in Hl, Ht1.
  assert (lookups_at cur1 i = lookups_at cur i) as Hsame.
  { rewrite Hl. destruct (fdict !! tag) as [t|] eqn:Hd; [|reflexivity].
    destruct (String.eqb status "ignore"); [reflexivity|].
    destruct (String.eqb status "disable").
    { destruct (decide (t = i)) as [->|]; [|reflexivity].
      now destruct (Hno tag). }
    destruct (Py.list_in tag moving_rules); [|reflexivity].
    now rewrite decide_False by exact Hcalt. }
  destruct c; try exact Hsame.
  rewrite IH; [exact Hsame | congruence].
Qed.

(** The feature list after a completed run over distinct tags, from a
    state in which the features of those tags are as in the initial
    font. *)
Lemma freeze_loop_feature_list config cur out :
  tags cur = tags font0 ->
  NoDup config.*1 ->
  (forall tag t, tag ∈ config.*1 -> fdict !! tag = Some t ->
     lookups_at cur t = lookups_at font0 t) ->
  let r := freeze_loop moving_rules fdict calt_feats config cur out in
  control_of r = Next ->
  forall i,
    (tags font0 !! i = Some "calt" ->
       lookups_at (font_of r) i =
       lookups_at cur i ++ moved_indices moving_rules font0 config) /\
    (tags font0 !! i <> Some "calt" ->
       ((forall tag, (tag, "disable") ∈ config -> fdict !! tag <> Some i) ->
          lookups_at (font_of r) i = lookups_at cur i) /\
       ((exists tag, (tag, "disable") ∈ config /\ fdict !! tag = Some i) ->
          lookups_at (font_of r) i = [])).
Proof.
  revert cur out. induction config as [|[tag status] config IH];
    intros cur out Hcur Hnd Hpre r Hend i.
  - split.
    + intros _. unfold r. simpl. now rewrite app_nil_r.
    + intros _. split; [reflexivity|].
      intros (tg & Hin & _). now apply elem_of_nil in Hin.
  - simpl in Hnd. apply NoDup_cons in Hnd as [Hfresh Hnd].
    unfold r in *. clear r. cbn [freeze_loop] in *.
    assert (forall j, lookups_at
              (font_of (freeze_step moving_rules fdict calt_feats tag status
                          cur out)) j = _) as Hl
      by (intros j; apply (freeze_step_lookups moving_rules font0 cur tag
                             status out j Hcur)).
    pose proof (freeze_step_evolves moving_rules font0 cur tag status out
                  Hcur) as (_ & Ht1 & _).
    fold fdict calt_feats in Hl, Ht1.
    destruct (freeze_step moving_rules fdict calt_feats tag status cur out)
      as [[cur1 out1] c].
    change (font_of (cur1, out1, c)) with cur1 in Hl, Ht1.
    destruct c; try discriminate Hend.
    assert (tags cur1 = tags font0) as Hcur1 by congruence.
    assert (forall tag' t', tag' ∈ config.*1 -> fdict !! tag' = Some t' ->
              lookups_at cur1 t' = lookups_at font0 t') as Hpre1.
    { intros tag' t' Hin' Hd'.
      rewrite <- (Hpre tag' t'); [| simpl; now right | exact Hd'].
      rewrite Hl. destruct (fdict !! tag) as [t|] eqn:Hd; [|reflexivity].
      destruct (String.eqb status "ignore"); [reflexivity|].
      destruct (String.eqb status "disable").
      { destruct (decide (t = t')) as [->|]; [|reflexivity].
        exfalso. apply Hfresh.
        now rewrite (fdict_injective font0 tag tag' t' Hd Hd'). }
      destruct (Py.list_in tag moving_rules); [|reflexivity].
      destruct (fdict_target font0 font0 tag' t' eq_refl Hd')
        as (_ & _ & Hnc & _).
      now rewrite decide_False by exact Hnc. }
    destruct (IH cur1 out1 Hcur1 Hnd Hpre1 Hend i) as [IHc IHo].
    split.
    + intros Hi. rewrite (IHc Hi), moved_indices_cons, app_assoc. f_equal.
      rewrite Hl. unfold enabling.
      destruct (fdict !! tag) as [t|] eqn:Hd; [| now rewrite app_nil_r].
      destruct (String.eqb status "ignore"); simpl; [now rewrite app_nil_r|].
      destruct (String.eqb status "disable"); simpl.
      { rewrite app_nil_r.
        destruct (decide (t = i)) as [->|]; [|reflexivity].
        destruct (fdict_target font0 font0 tag i eq_refl Hd)
          as (Hne & Hti & _). congruence. }
      destruct (Py.list_in tag moving_rules); [| now rewrite app_nil_r].
      rewrite decide_True
        by (apply (calt_feats_tag font0 font0 i eq_refl); exact Hi).
      f_equal. apply (Hpre tag t); [simpl; apply list_elem_of_here | exact Hd].
    + intros Hi. destruct (IHo Hi) as [IHkeep IHclear]. split.
      * intros Hno. rewrite IHkeep.
        2:{ intros tg Hin. apply Hno. now right. }
        rewrite Hl. destruct (fdict !! tag) as [t|] eqn:Hd; [|reflexivity].
        destruct (String.eqb_spec status "ignore"); [reflexivity|].
        destruct (String.eqb_spec status "disable") as [->|].
        { destruct (decide (t = i)) as [->|]; [|reflexivity].
          exfalso. apply (Hno tag); [apply list_elem_of_here | exact Hd]. }
        destruct (Py.list_in tag moving_rules); [|reflexivity].
        rewrite decide_False; [reflexivity|].
        intros Hc. apply Hi.
        now apply (calt_feats_tag font0 font0 i eq_refl).
      * intros (tg & Hin & Hd).
        apply elem_of_cons in Hin as [Heq | Hin].
        -- inversion Heq; subst tg status. clear Heq.
           rewrite IHkeep.
           ++ rewrite Hl, Hd. simpl. now rewrite decide_True.
           ++ intros tg' Hin' Hd'. apply Hfresh.
              rewrite (fdict_injective font0 tag tg' i Hd Hd').
              apply list_elem_of_fmap. exists (tg', "disable").
              split; [reflexivity | exact Hin'].
        -- apply IHclear. exists tg. split; assumption.
Qed.

End FeatureListAfter.

(** X15: the feature list after a completed run over a policy with
    distinct tags.  Every calt feature has its initial lookup indices
    followed by those that the features of the enabled moving tags had at
    the start, in policy order; a feature that some entry disables is
    empty; every other feature has its initial indices. *)
Theorem completed_run_feature_list (font : TTFont)
    (moving_rules : list string) (config : list (string * string))
    (out : list string) :
  NoDup config.*1 ->
  control_of (freeze_feature font moving_rules config out) = Next ->
  let final := font_of (freeze_feature font moving_rules config out) in
  forall i,
    (tags font !! i = Some "calt" ->
       lookups_at final i =
       lookups_at font i ++ moved_indices moving_rules font config) /\
    (tags font !! i <> Some "calt" ->
       ((forall tag, (tag, "disable") ∈ config ->
           feature_dict (FeatureRecords font) !! tag <> Some i) ->
          lookups_at final i = lookups_at font i) /\
       ((exists tag, (tag, "disable") ∈ config /\
           feature_dict (FeatureRecords font) !! tag = Some i) ->
          lookups_at final i = [])).
Proof.
  intros Hnd Hend final i.
  apply (freeze_loop_feature_list moving_rules font config font out
           eq_refl Hnd (fun _ _ _ _ => eq_refl) Hend i).
Qed.

Lemma completed_run_feature_list_witness :
  let config := [("ss03", "enable"); ("cv01", "disable"); ("cv98", "enable")] in
  let final := font_of (freeze_feature cn_font moving_tags config []) in
  lookups_at final 0 = [0; 1] /\ lookups_at final 3 = [] /\
  lookups_at final 2 = [2].
Proof.
  intros config final.
  assert (NoDup config.*1) as Hnd
    by (apply (bool_decide_unpack _); vm_compute; exact I).
  assert (control_of (freeze_feature cn_font moving_tags config []) = Next)
    as Hend by reflexivity.
  pose proof (completed_run_feature_list cn_font moving_tags config []
                Hnd Hend) as H.
  cbv zeta in H. fold final in H.
  destruct (H 0) as [H0 _]. destruct (H 3) as [_ H3]. destruct (H 2) as [_ H2].
  split; [| split].
  - rewrite H0 by reflexivity. reflexivity.
  - apply H3; [discriminate|]. exists "cv01". split; [|reflexivity].
    apply list_elem_of_In. simpl. tauto.
  - destruct H2 as [H2 _]; [discriminate|]. rewrite H2; [reflexivity|].
    intros tag Hin. apply list_elem_of_In in Hin. simpl in Hin.
    destruct Hin as [Hin|[Hin|[Hin|[]]]]; inversion Hin. discriminate.
Defined.

(** X16: a record that is followed by a record with the same tag, other
    than "calt", is not processed: whatever the policy, a run leaves it as
    it is. *)
Theorem earlier_duplicate_untouched (font : TTFont)
    (moving_rules : list string) (config : list (string * string))
    (out : list string) (j k : nat) (r r' : FeatureRecord) :
  FeatureRecords font !! j = Some r ->
  FeatureRecords font !! k = Some r' ->
  j < k -> FeatureTag r' = FeatureTag r -> FeatureTag r <> "calt" ->
  FeatureRecords (font_of (freeze_feature font moving_rules config out)) !! j
  = Some r.
Proof.
  intros Hj Hk Hlt Htag Hcalt.
  pose proof (freeze_loop_not_target moving_rules font config font out j
                eq_refl) as Hsame.
  pose proof (tags_reached font moving_rules config out) as Htags.
  unfold freeze_feature in *.
  set (final := font_of (freeze_loop _ _ _ config font out)) in *.
  destruct (tags_lookup font final j r Htags Hj) as (r2 & Hr2 & Ht2).
  rewrite Hr2. f_equal.
  assert (lookups_at final j = lookups_at font j) as Hl.
  { apply Hsame.
    - intros tag Hd.
      apply feature_dict_bound in Hd as (_ & (r0 & Hr0 & Ht0) & Hlast).
      assert (r0 = r) as -> by congruence.
      specialize (Hlast k r' Hk ltac:(congruence)). lia.
    - intros Hc. apply elem_of_calt_features in Hc as (r0 & Hr0 & Ht0).
      congruence. }
  unfold lookups_at in Hl. rewrite Hr2, Hj in Hl.
  destruct r2 as [tag2 [l2]], r as [tag1 [l1]]. simpl in *. congruence.
Qed.

Lemma earlier_duplicate_untouched_witness :
  let font :=
    with_FeatureRecords
      [feature_record "cv01" [0]; feature_record "cv01" [3]] cn_font in
  FeatureRecords (font_of (freeze_feature font moving_tags
                             [("cv01", "disable")] [])) !! 0 =
  Some (feature_record "cv01" [0]).
Proof.
  intros font.
  apply (earlier_duplicate_untouched font moving_tags [("cv01", "disable")]
           [] 0 1 (feature_record "cv01" [0]) (feature_record "cv01" [3]));
    try reflexivity; [lia | discriminate].
Defined.

(** ** A glyph object under two names *)

Lemma visits_two (match_width : Z) (font : TTFont) (names : list string)
    (o n : string) (a : nat) (m1 m2 : Z * Z) :
  NoDup names -> o ∈ names -> n ∈ names -> o <> n ->
  glyphs font !! o = Some a -> glyphs font !! n = Some a ->
  metrics font !! o = Some m1 -> metrics font !! n = Some m2 ->
  m1.1 = match_width -> m2.1 = match_width ->
  2 <= visits match_width font names a.
Proof.
  intros Hnd Ho Hn Hne Hao Han Hmo Hmn Hw1 Hw2. unfold visits.
  set (P := fun k : string => _).
  assert (P o = true) as HPo.
  { unfold P. rewrite Hao, Hmo, Hw1, Nat.eqb_refl, Z.eqb_refl. reflexivity. }
  assert (P n = true) as HPn.
  { unfold P. rewrite Han, Hmn, Hw2, Nat.eqb_refl, Z.eqb_refl. reflexivity. }
  apply list_elem_of_split in Ho as (l1 & l2 & ->).
  rewrite List.filter_app, length_app. simpl. rewrite HPo. simpl.
  apply elem_of_app in Hn as [Hn | Hn].
  - assert (1 <= length (List.filter P l1)); [| lia].
    apply list_elem_of_split in Hn as (l3 & l4 & ->).
    rewrite List.filter_app, length_app. simpl. rewrite HPn. simpl. lia.
  - apply elem_of_cons in Hn as [Hn | Hn]; [congruence |].
    assert (1 <= length (List.filter P l2)); [| lia].
    apply list_elem_of_split in Hn as (l3 & l4 & ->).
    rewrite List.filter_app, length_app. simpl. rewrite HPn. simpl. lia.
Qed.

(** X17: a glyph object with contours that two ordered names of the
    matching width are bound to, as a direct substitution leaves them, is
    moved at least twice by a narrowing: by the rounded half difference
    times the number of such names, while each of the names gets a side
    bearing moved once.  The ordered names are distinct and bound, no glyph
    of the matching width with contours is composite, and the difference of
    the widths is small enough for its half to be rounded exactly. *)
Theorem rebound_glyph_moved_per_name (font : TTFont)
    (match_width target_width : Z) (o n : string) (a : nat) (g : Glyph)
    (lsb1 lsb2 : Z) :
  NoDup (glyphOrder font) ->
  all_bound (glyphOrder font) font ->
  has_outlines match_width (glyphOrder font) font ->
  exact_half (target_width - match_width) ->
  o ∈ glyphOrder font -> n ∈ glyphOrder font -> o <> n ->
  glyphs font !! o = Some a -> glyphs font !! n = Some a ->
  glyph_objects font !! a = Some g -> numberOfContours g <> 0%Z ->
  metrics font !! o = Some (match_width, lsb1) ->
  metrics font !! n = Some (match_width, lsb2) ->
  let delta := round_half (target_width - match_width) in
  exists font' g' k,
    change_char_width font match_width target_width = (font', Next) /\
    glyph_objects font' !! a = Some g' /\
    k = visits match_width font (glyphOrder font) a /\
    2 <= k /\
    coordinates g' =
      translate ((Z.of_nat k * delta)%Z, 0%Z) (coordinates g) /\
    metrics font' !! o = Some (target_width, (lsb1 + delta)%Z) /\
    metrics font' !! n = Some (target_width, (lsb2 + delta)%Z).
Proof.
  intros Hnd Hbound Hout _ Ho Hn Hne Hao Han Hg Hc Hmo Hmn delta.
  unfold change_char_width.
  destruct (width_loop_shared match_width target_width (glyphOrder font)
              (with_advanceWidthMax target_width font) Hnd Hbound Hout)
    as (font' & Hrun & _ & _ & _ & _ & _ & _ & Hmet & Hobj).
  exists font',
    (Nat.iter (visits match_width font (glyphOrder font) a)
       (shift_glyph delta) g),
    (visits match_width font (glyphOrder font) a).
  split; [exact Hrun|]. split; [| split; [reflexivity |]].
  2: split; [| split; [| split]].
  - rewrite Hobj. simpl glyph_objects. rewrite Hg. simpl.
    apply Z.eqb_neq in Hc. now rewrite Hc.
  - apply (visits_two match_width font (glyphOrder font) o n a
             (match_width, lsb1) (match_width, lsb2)); auto.
  - apply iter_shift_coordinates.
  - rewrite (Hmet o a g (match_width, lsb1) Ho Hao Hg Hmo).
    unfold narrowed_metrics. simpl. rewrite Z.eqb_refl. simpl.
    apply Z.eqb_neq in Hc. now rewrite Hc.
  - rewrite (Hmet n a g (match_width, lsb2) Hn Han Hg Hmn).
    unfold narrowed_metrics. simpl. rewrite Z.eqb_refl. simpl.
    apply Z.eqb_neq in Hc. now rewrite Hc.
Qed.

Lemma rebound_glyph_moved_per_name_witness :
  exists font' g' k,
    change_char_width (font_of (freeze cn_font [("cv98", "enable")] []))
      1200 1000 = (font', Next) /\
    glyph_objects font' !! 3 = Some g' /\ 2 <= k /\
    coordinates g' =
      translate ((Z.of_nat k * -100)%Z, 0%Z)
        (coordinates (sample_glyph 60 1140)).
Proof.
  destruct frozen_cn_font_well_formed as (Hnd & Hbound & Hout).
  destruct (rebound_glyph_moved_per_name
              (font_of (freeze cn_font [("cv98", "enable")] []))
              1200 1000 "ellipsis" "ellipsis.cv98" 3 (sample_glyph 60 1140)
              60 60 Hnd Hbound (Hout _) exact_half_font_units)
    as (font' & g' & k & Hrun & Hg' & _ & Hk & Hco & _);
    try reflexivity; try discriminate;
    try (apply list_elem_of_In; vm_compute; tauto).
  exists font', g', k. repeat split; assumption.
Defined.

(** ** An unreadable lookup *)

Lemma resolved_pairs_stops (lookups : list Lookup) (good : list nat)
    (index : nat) (more : list nat) (exc : string) :
  Forall (has_mapping lookups) good ->
  match lookups !! index with
  | None => exc = "IndexError"
  | Some lookup =>
      match SubTable lookup with
      | [] => exc = "IndexError"
      | Other :: _ => exc = "AttributeError"
      | Single _ :: _ => False
      end
  end ->
  resolved_pairs lookups (good ++ index :: more) =
  ((resolved_pairs lookups good).1, Raise exc).
Proof.
  intros Hgood Hbad. induction Hgood as [|i good Hi Hgood IH]; simpl.
  - destruct (lookups !! index) as [lookup|]; [| now subst].
    destruct (SubTable lookup) as [|[sub|] subs];
      [now subst | contradiction | now subst].
  - destruct Hi as (lookup & sub & subs & -> & ->).
    rewrite IH. now destruct (resolved_pairs lookups good).
Qed.

Lemma freeze_feature_raises (font : TTFont)
    (moving_rules : list string) (out : list string)
    (pre : list (string * string)) (tag status : string) (t : nat)
    (post : list (string * string))
    (good : list nat) (index : nat) (more : list nat) (exc : string) :
  control_of (freeze_feature font moving_rules pre out) = Next ->
  enabling status = true ->
  Py.list_in tag moving_rules = false ->
  feature_dict (FeatureRecords font) !! tag = Some t ->
  lookups_at (font_of (freeze_feature font moving_rules pre out)) t =
    good ++ index :: more ->
  resolved_pairs (Lookups font) (good ++ index :: more) =
    ((resolved_pairs (Lookups font) good).1, Raise exc) ->
  Forall (fun p => both_known font p.1 p.2 = true)
    (resolved_pairs (Lookups font) good).1 ->
  freeze_feature font moving_rules (pre ++ (tag, status) :: post) out =
    (foldl assign_glyph (font_of (freeze_feature font moving_rules pre out))
       (resolved_pairs (Lookups font) good).1,
     output_of (freeze_feature font moving_rules pre out), Raise exc).
Proof.
  intros Hreach Hen Hmov Hd Hidx Hres Hknown.
  destruct (freeze_feature_evolves font moving_rules pre out)
    as ((Hlk & _) & _ & Hkn & _).
  rewrite freeze_feature_after. cbv zeta.
  rewrite (freeze_feature_snoc font moving_rules pre tag status out Hreach).
  unfold freeze_step. rewrite Hd, Hmov.
  unfold enabling in Hen.
  destruct (String.eqb status "ignore"); [discriminate |].
  destruct (String.eqb status "disable"); [discriminate |].
  rewrite substitute_lookups_eval, Hlk, Hidx, Hres.
  rewrite substitute_pairs_eval.
  rewrite (known_prefix_ext font
             (font_of (freeze_feature font moving_rules pre out)))
    by exact Hkn.
  rewrite (known_prefix_all font _ Hknown).
  reflexivity.
Qed.

(** X18: when the loop reaches an enabled direct-substitution feature
    whose lookup indices have a first one that cannot be read (no such
    lookup, or a lookup without subtable), and the names of the pairs
    before it are known, the run raises [IndexError] there: the pairs of
    the lookups before that index have been applied, nothing is printed,
    and the rest of the policy is not processed. *)
Theorem unreadable_lookup_raises (font : TTFont)
    (moving_rules : list string) (out : list string)
    (pre : list (string * string)) (tag status : string) (t : nat)
    (post : list (string * string))
    (good : list nat) (index : nat) (more : list nat) :
  control_of (freeze_feature font moving_rules pre out) = Next ->
  enabling status = true ->
  Py.list_in tag moving_rules = false ->
  feature_dict (FeatureRecords font) !! tag = Some t ->
  let before := freeze_feature font moving_rules pre out in
  lookups_at (font_of before) t = good ++ index :: more ->
  Forall (has_mapping (Lookups font)) good ->
  ~ readable (Lookups font) index ->
  let pairs := (resolved_pairs (Lookups font) good).1 in
  Forall (fun p => both_known font p.1 p.2 = true) pairs ->
  freeze_feature font moving_rules (pre ++ (tag, status) :: post) out =
    (foldl assign_glyph (font_of before) pairs, output_of before,
     Raise "IndexError").
Proof.
  intros Hreach Hen Hmov Hd before Hidx Hgood Hbad pairs Hknown.
  apply (freeze_feature_raises font moving_rules out pre tag status t post
           good index more "IndexError" Hreach Hen Hmov Hd Hidx);
    [| exact Hknown].
  apply resolved_pairs_stops; [exact Hgood |].
  destruct (Lookups font !! index) as [lookup|] eqn:Hl; [| reflexivity].
  destruct (SubTable lookup) as [|sub subs] eqn:Hs; [reflexivity |].
  exfalso. apply Hbad. exists lookup, sub, subs. now split.
Qed.

Lemma unreadable_lookup_raises_witness :
  let font :=
    with_FeatureRecords
      [feature_record "cv98" [2; 7]; feature_record "cv01" [3]] cn_font in
  let r :=
    freeze_feature font moving_tags
      ([] ++ ("cv98", "enable") :: [("cv01", "disable")]) [] in
  control_of r = Raise "IndexError" /\ output_of r = [] /\
  glyphs (font_of r) !! "emdash" = Some 1 /\
  lookups_at (font_of r) 1 = [3].
Proof.
  intros font r.
  assert (r = (foldl assign_glyph font
                 (resolved_pairs (Lookups font) [2]).1, [],
               Raise "IndexError")) as ->.
  { apply (unreadable_lookup_raises font moving_tags [] [] "cv98" "enable" 0
             [("cv01", "disable")] [2] 7 []); try reflexivity.
    - constructor; [| constructor].
      exists (single_lookup [("emdash", "emdash.cv98");
                             ("ellipsis", "ellipsis.cv98")]),
        {| mapping := [("emdash", "emdash.cv98");
                       ("ellipsis", "ellipsis.cv98")] |}, [].
      split; reflexivity.
    - intros (lookup & sub & subs & Hl & _). discriminate Hl.
    - repeat constructor. }
  repeat split.
Defined.

(** X20: when the loop reaches an enabled direct-substitution feature
    whose lookup indices have a first one whose first subtable has no
    mapping (a lookup of another type than single substitution), and the
    names of the pairs before it are known, the run raises
    [AttributeError] there: the pairs of the lookups before that index
    have been applied, nothing is printed, and the rest of the policy is
    not processed. *)
Theorem unmapped_subtable_raises (font : TTFont)
    (moving_rules : list string) (out : list string)
    (pre : list (string * string)) (tag status : string) (t : nat)
    (post : list (string * string))
    (good : list nat) (index : nat) (more : list nat)
    (lookup : Lookup) (subs : list Subtable) :
  control_of (freeze_feature font moving_rules pre out) = Next ->
  enabling status = true ->
  Py.list_in tag moving_rules = false ->
  feature_dict (FeatureRecords font) !! tag = Some t ->
  let before := freeze_feature font moving_rules pre out in
  lookups_at (font_of before) t = good ++ index :: more ->
  Forall (has_mapping (Lookups font)) good ->
  Lookups font !! index = Some lookup ->
  SubTable lookup = Other :: subs ->
  let pairs := (resolved_pairs (Lookups font) good).1 in
  Forall (fun p => both_known font p.1 p.2 = true) pairs ->
  freeze_feature font moving_rules (pre ++ (tag, status) :: post) out =
    (foldl assign_glyph (font_of before) pairs, output_of before,
     Raise "AttributeError").
Proof.
  intros Hreach Hen Hmov Hd before Hidx Hgood Hl Hs pairs Hknown.
  apply (freeze_feature_raises font moving_rules out pre tag status t post
           good index more "AttributeError" Hreach Hen Hmov Hd Hidx);
    [| exact Hknown].
  apply resolved_pairs_stops; [exact Hgood |].
  now rewrite Hl, Hs.
Qed.

Lemma unmapped_subtable_raises_witness :
  let font :=
    with_Lookups
      [ single_lookup []; single_lookup [];
        single_lookup [("emdash", "emdash.cv98")];
        {| SubTable := [Other] |} ]
      (with_FeatureRecords
         [feature_record "cv98" [2; 3]; feature_record "cv01" [3]] cn_font) in
  let r :=
    freeze_feature font moving_tags
      ([] ++ ("cv98", "enable") :: [("cv01", "disable")]) [] in
  control_of r = Raise "AttributeError" /\ output_of r = [] /\
  glyphs (font_of r) !! "emdash" = Some 1 /\
  lookups_at (font_of r) 1 = [3].
Proof.
  intros font r.
  assert (r = (foldl assign_glyph font
                 (resolved_pairs (Lookups font) [2]).1, [],
               Raise "AttributeError")) as ->.
  { apply (unmapped_subtable_raises font moving_tags [] [] "cv98" "enable" 0
             [("cv01", "disable")] [2] 3 [] {| SubTable := [Other] |} []);
      try reflexivity.
    - constructor; [| constructor].
      exists (single_lookup [("emdash", "emdash.cv98")]),
        {| mapping := [("emdash", "emdash.cv98")] |}, [].
      split; reflexivity.
    - repeat constructor. }
  repeat split.
Defined.
